(** * A 1D spring-assembly solver: model of [fea_core.py] and its specification

    The development follows the source file top to bottom: the number
    interface the code computes with, the numpy operations it calls, the
    object store holding [Node] and [SpringElement] objects, the three
    classes, and then the properties of assembly and of the partitioned
    solve.  The window of [gui.py], which collects a model from its entry
    fields, runs the solver on it and sketches it, is modelled after the
    solver, and its properties follow those of the solver. *)

From Stdlib Require Import ZArith QArith Qcanon Ring Field Lia PrimFloat Floats.
From stdpp Require Import base option list strings.

(** ** Numbers

    The source computes with Python floats and numpy [float64] arrays.  The
    operations it applies to them are collected in the class [Num]; every
    definition below is written against this interface only, so that the
    structural theorems hold for IEEE binary64 ([float_Num]) as well as for
    exact arithmetic ([Qc_Num]).  *)

Class Num (A : Type) := {
  n0 : A;                    (* the literal 0.0 *)
  nadd : A -> A -> A;        (* +, += *)
  nsub : A -> A -> A;        (* binary - *)
  nmul : A -> A -> A;        (* * and the products inside @ *)
  nopp : A -> A;             (* unary - *)
  neqb : A -> A -> bool;     (* == *)
  nleb : A -> A -> bool;     (* <= *)
}.

#[global] Instance float_Num : Num float := {|
  n0 := 0%float;
  nadd := PrimFloat.add;
  nsub := PrimFloat.sub;
  nmul := PrimFloat.mul;
  nopp := PrimFloat.opp;
  neqb := PrimFloat.eqb;
  nleb := PrimFloat.leb;
|}.

#[global] Instance Qc_Num : Num Qc := {|
  n0 := 0%Qc;
  nadd := Qcplus;
  nsub := Qcminus;
  nmul := Qcmult;
  nopp := Qcopp;
  neqb := fun a b => Qeq_bool (this a) (this b);
  nleb := fun a b => Qle_bool (this a) (this b);
|}.

#[global] Instance Num_inhabited `{Num A} : Inhabited A := populate n0.

(** The laws of exact arithmetic, for the claims that the spec states "up to
    numerical tolerance": a commutative ring whose [==] is equality. *)
Class NumRing (A : Type) `{Num A} := {
  n1 : A;
  num_ring : ring_theory n0 n1 nadd nmul nsub nopp (@eq A);
  neqb_eq : forall a b : A, neqb a b = true <-> a = b;
}.

(** ** Exceptions

    One constructor per [raise] site of the source, and [IndexError] for a
    numpy index out of bounds. *)

Inductive exn : Type :=
| ValueError_identical_nodes (id : Z)   (* SpringElement.__init__, i = j *)
| ValueError_stiffness                  (* SpringElement.__init__, k <= 0 *)
| ValueError_singular                   (* solve, LinAlgError re-raised *)
| IndexError.

Inductive result (T : Type) : Type :=
| Ok (v : T)
| Raise (e : exn).
Arguments Ok {T} v.
Arguments Raise {T} e.

#[global] Instance result_ret : MRet result := fun _ v => Ok v.
#[global] Instance result_bind : MBind result := fun _ _ f m =>
  match m with Ok v => f v | Raise e => Raise e end.

(** The spec's error taxonomy. *)
Definition InvalidElement (e : exn) : Prop :=
  match e with
  | ValueError_identical_nodes _ | ValueError_stiffness => True
  | _ => False
  end.

Definition StructuralSingularity (e : exn) : Prop := e = ValueError_singular.

(** ** numpy

    Arrays are lists, matrices are lists of rows.  An index is a Python
    integer: numpy counts a negative index from the end and raises
    [IndexError] outside [-n, n). *)

Module np.
Section np.
Context {A : Type} `{Num A}.

Definition index (n : nat) (i : Z) : result nat :=
  if decide (0 <= i < Z.of_nat n)%Z then Ok (Z.to_nat i)
  else if decide (- Z.of_nat n <= i < 0)%Z then Ok (Z.to_nat (i + Z.of_nat n))
  else Raise IndexError.

(** [np.zeros(n)] and [np.zeros((r, c))] *)
Definition zeros (n : nat) : list A := replicate n n0.
Definition zeros2 (r c : nat) : list (list A) := replicate r (zeros c).

(** [u[i]] *)
Definition getitem (u : list A) (i : Z) : result A :=
  a ← index (length u) i; Ok (u !!! a).

(** [K[i, j] += v] *)
Definition iadd2 (K : list (list A)) (i j : Z) (v : A) : result (list (list A)) :=
  a ← index (length K) i;
  b ← index (length (K !!! 0%nat)) j;
  Ok (alter (alter (fun x => nadd x v) b) a K).

(** The sum accumulated from the left, as a loop [acc += x] does. *)
Definition seq_sum (l : list A) : A := foldl nadd n0 l.

(** [a.sum()] over a contiguous array is numpy's pairwise summation
    ([pairwise_sum] of the add loops).  Fewer than eight entries are added
    from the left.  Up to 128 entries go through eight running sums
    [r[0..7]]: the first eight entries, to which every further full block
    of eight is added entry by entry; they are combined as
    [((r0 + r1) + (r2 + r3)) + ((r4 + r5) + (r6 + r7))] and the entries
    left over are added from the left.  A longer array is split at a
    multiple of eight near its middle and the sums of the halves are
    added. *)
Fixpoint add_blocks (k : nat) (r l : list A) : list A :=
  match k with
  | 0 => r
  | S k' => add_blocks k' (zip_with nadd r (firstn 8 l)) (skipn 8 l)
  end.

Definition sum_unrolled (l : list A) : A :=
  let k := length l / 8 - 1 in
  let r := add_blocks k (firstn 8 l) (skipn 8 l) in
  let res :=
    nadd (nadd (nadd (r !!! 0%nat) (r !!! 1%nat)) (nadd (r !!! 2%nat) (r !!! 3%nat)))
         (nadd (nadd (r !!! 4%nat) (r !!! 5%nat)) (nadd (r !!! 6%nat) (r !!! 7%nat))) in
  foldl nadd res (skipn (8 * (k + 1)) l).

(** The recursion halves the array, so [fuel = length l] is never used
    up ([pairwise_sum_fuel]). *)
Fixpoint pairwise_sum (fuel : nat) (l : list A) : A :=
  if decide (length l < 8) then foldl nadd n0 l
  else if decide (length l <= 128) then sum_unrolled l
  else
    match fuel with
    | 0 => foldl nadd n0 l
    | S fuel' =>
        let n2 := (length l / 2 - (length l / 2) mod 8)%nat in
        nadd (pairwise_sum fuel' (firstn n2 l)) (pairwise_sum fuel' (skipn n2 l))
    end.

(** The reduction starts from the identity [0.0] and adds the pairwise
    sum to it. *)
Definition sum (l : list A) : A := nadd n0 (pairwise_sum (length l) l).

(** [K.sum()] over all entries of a matrix: the array is contiguous, so
    the entries are summed as one flat array in row-major order. *)
Definition sum2 (K : list (list A)) : A := sum (concat K).

(** [np.where(mask)[0]]: the indices of the true entries, ascending. *)
Fixpoint where_from (o : nat) (mask : list bool) : list nat :=
  match mask with
  | [] => []
  | b :: m => (if b then [o] else []) ++ where_from (S o) m
  end.
Definition where_ (mask : list bool) : list nat := where_from 0 mask.

(** [a[idx]] for an index array *)
Definition take (a : list A) (idx : list nat) : list A :=
  (fun i => a !!! i) <$> idx.

(** [K[np.ix_(rows, cols)]] *)
Definition ix_ (K : list (list A)) (rows cols : list nat) : list (list A) :=
  (fun i => take (K !!! i) cols) <$> rows.

(** [u[idx] = vals] *)
Definition put (u : list A) (idx : list nat) (vals : list A) : list A :=
  foldl (fun u p => <[p.1 := p.2]> u) u (zip idx vals).

(** [a @ b] for two vectors, the products added from the left; [K @ u]
    for a matrix and a vector, [a - b] *)
Definition dot (a b : list A) : A := seq_sum (zip_with nmul a b).
Definition matvec (K : list (list A)) (u : list A) : list A :=
  (fun row => dot row u) <$> K.
Definition vsub (a b : list A) : list A := zip_with nsub a b.

End np.
End np.

(** ** Node *)

Module Node.
Section Node.
Context {A : Type} `{Num A}.

Record t : Type := mk {
  id : Z;                (* 1-based id *)
  force : A;             (* external load *)
  fixed : bool;          (* DOF constrained (includes prescribed-u) *)
  prescribed : bool;     (* a displacement is prescribed *)
  u_prescribed : A;      (* prescribed displacement value *)
  u : A;                 (* solved displacement *)
  dof : Z;               (* 0-based DOF index *)
}.

(** [Node.__init__(node_id)] *)
Definition init (node_id : Z) : t :=
  {| id := node_id; force := n0; fixed := false; prescribed := false;
     u_prescribed := n0; u := n0; dof := node_id - 1 |}.

(** [nd.u = v] *)
Definition set_u (nd : t) (v : A) : t :=
  {| id := id nd; force := force nd; fixed := fixed nd;
     prescribed := prescribed nd; u_prescribed := u_prescribed nd;
     u := v; dof := dof nd |}.

(** [nd.force = f], as the caller of the solver sets a load *)
Definition set_force (nd : t) (f : A) : t :=
  {| id := id nd; force := f; fixed := fixed nd;
     prescribed := prescribed nd; u_prescribed := u_prescribed nd;
     u := u nd; dof := dof nd |}.

(** The fields a caller sets and the solver only reads. *)
Definition inputs (nd : t) : Z * A * bool * bool * A * Z :=
  (id nd, force nd, fixed nd, prescribed nd, u_prescribed nd, dof nd).

#[global] Instance inhabited : Inhabited t := populate (init 0).

End Node.
Arguments t A : clear implicits.
End Node.

(** ** The object store

    Python objects are shared by reference: one [Node] may be an end of
    many elements and sits in the solver's node list as well.  A reference
    is an address into the store; [__init__] allocates at the end. *)

Abbreviation ref := nat (only parsing).

Module Elem.
Section Elem.
Context {A : Type}.

(** The fields of a [SpringElement] object. *)
Record t : Type := mk {
  i : ref;               (* self.i, a Node *)
  j : ref;               (* self.j, a Node *)
  k : A;                 (* stiffness *)
  axial : A;             (* internal axial force (+tension) *)
}.

Definition set_axial (e : t) (v : A) : t :=
  {| i := i e; j := j e; k := k e; axial := v |}.

Definition inputs (e : t) : ref * ref * A := (i e, j e, k e).

End Elem.
Arguments t A : clear implicits.
End Elem.

Record Heap (A : Type) : Type := mkHeap {
  h_nodes : list (Node.t A);
  h_elems : list (Elem.t A);
}.
Arguments mkHeap {A} _ _.
Arguments h_nodes {A} _.
Arguments h_elems {A} _.

Section Store.
Context {A : Type} `{Num A}.

#[global] Instance Elem_inhabited : Inhabited (Elem.t A) :=
  populate (Elem.mk 0%nat 0%nat n0 n0).

Definition node_at (h : Heap A) (r : ref) : Node.t A := h_nodes h !!! r.
Definition elem_at (h : Heap A) (r : ref) : Elem.t A := h_elems h !!! r.

Definition alloc_node (h : Heap A) (nd : Node.t A) : Heap A * ref :=
  (mkHeap (h_nodes h ++ [nd]) (h_elems h), length (h_nodes h)).
Definition alloc_elem (h : Heap A) (e : Elem.t A) : Heap A * ref :=
  (mkHeap (h_nodes h) (h_elems h ++ [e]), length (h_elems h)).

Definition update_node (h : Heap A) (r : ref) (f : Node.t A -> Node.t A) : Heap A :=
  mkHeap (alter f r (h_nodes h)) (h_elems h).
Definition update_elem (h : Heap A) (r : ref) (f : Elem.t A -> Elem.t A) : Heap A :=
  mkHeap (h_nodes h) (alter f r (h_elems h)).

(** A [for] loop whose body mutates the store and may raise: the mutations
    made before the exception stay. *)
Fixpoint for_each {X : Type} (body : X -> Heap A -> Heap A * result unit)
    (xs : list X) (h : Heap A) : Heap A * result unit :=
  match xs with
  | [] => (h, Ok tt)
  | x :: xs' =>
      match body x h with
      | (h', Ok _) => for_each body xs' h'
      | (h', Raise e) => (h', Raise e)
      end
  end.

End Store.

(** ** SpringElement *)

Module SpringElement.
Section SpringElement.
Context {A : Type} `{Num A}.

(** [SpringElement.__init__(ni, nj, k)]: returns the store and the new
    object, or the store and the exception. *)
Definition init (h : Heap A) (ni nj : ref) (k : A) : Heap A * result ref :=
  if decide (Node.id (node_at h ni) = Node.id (node_at h nj)) then
    (h, Raise (ValueError_identical_nodes (Node.id (node_at h ni))))
  else if nleb k n0 then
    (h, Raise ValueError_stiffness)
  else
    let (h', r) := alloc_elem h (Elem.mk ni nj k n0) in (h', Ok r).

(** [ke()]: the element stiffness matrix *)
Definition ke (e : Elem.t A) : list (list A) :=
  let k := Elem.k e in [[k; nopp k]; [nopp k; k]].

(** [connectivity()]: global DOF indices *)
Definition connectivity (h : Heap A) (e : Elem.t A) : Z * Z :=
  (Node.dof (node_at h (Elem.i e)), Node.dof (node_at h (Elem.j e))).

(** [add_to_global(K)] *)
Definition add_to_global (h : Heap A) (e : Elem.t A) (K : list (list A))
    : result (list (list A)) :=
  let '(ii, jj) := connectivity h e in
  let ke := ke e in
  K ← np.iadd2 K ii ii ((ke !!! 0%nat) !!! 0%nat);
  K ← np.iadd2 K ii jj ((ke !!! 0%nat) !!! 1%nat);
  K ← np.iadd2 K jj ii ((ke !!! 1%nat) !!! 0%nat);
  np.iadd2 K jj jj ((ke !!! 1%nat) !!! 1%nat).

(** [elongation(u)] *)
Definition elongation (h : Heap A) (e : Elem.t A) (u : list A) : result A :=
  let '(ii, jj) := connectivity h e in
  uj ← np.getitem u jj;
  ui ← np.getitem u ii;
  Ok (nsub uj ui).

(** [axial_force(u)] *)
Definition axial_force (h : Heap A) (e : Elem.t A) (u : list A) : result A :=
  d ← elongation h e u; Ok (nmul (Elem.k e) d).

(** [nodal_actions(u)]: forces in nodes i and j *)
Definition nodal_actions (h : Heap A) (e : Elem.t A) (u : list A) : result (A * A) :=
  let '(ii, jj) := connectivity h e in
  ui ← np.getitem u ii;
  uj ← np.getitem u jj;
  Ok (nmul (Elem.k e) (nsub ui uj), nmul (Elem.k e) (nsub uj ui)).

End SpringElement.
End SpringElement.

(** ** numpy.linalg.solve

    The dense solver is a library routine outside the source.  It is a
    parameter of the model: [linalg_solve K b] is [Some x] when the routine
    returns [x], and [None] when it raises [LinAlgError].  The properties
    below that name no particular solver hold for every value of the
    parameter; [lapack.dgesv] further down is the routine numpy calls for
    binary64. *)

Class LinalgSolve (A : Type) :=
  linalg_solve : list (list A) -> list A -> option (list A).

(** ** SpringFEASolver *)

Module SpringFEASolver.
Section SpringFEASolver.
Context {A : Type} `{Num A} `{LinalgSolve A}.

Record t : Type := mk {
  nodes : list ref;            (* list of Node *)
  elements : list ref;         (* list of SpringElement *)
  n : nat;                     (* total DOFs *)
  K_full : list (list A);      (* global stiffness matrix *)
  F_full : list A;             (* global force vector *)
  fixed : list bool;           (* mask of known displacements *)
  u_known : list A;            (* known displacements *)
}.

(** [SpringFEASolver.__init__(nodes, elements)] *)
Definition init (nodes elements : list ref) : t :=
  let n := length nodes in
  {| nodes := nodes; elements := elements; n := n;
     K_full := np.zeros2 n n; F_full := np.zeros n;
     fixed := replicate n false; u_known := np.zeros n |}.

(** The loop [for e in self.elements: e.add_to_global(K)] *)
Fixpoint scatter (h : Heap A) (es : list ref) (K : list (list A))
    : result (list (list A)) :=
  match es with
  | [] => Ok K
  | e :: es' =>
      K' ← SpringElement.add_to_global h (elem_at h e) K;
      scatter h es' K'
  end.

(** [assemble()]: the solver after the call, and [K] or the exception.  [K]
    is local until the loop is over, so an exception leaves the solver as
    it was. *)
Definition assemble (s : t) (h : Heap A) : t * result (list (list A)) :=
  let n := n s in
  match scatter h (elements s) (np.zeros2 n n) with
  | Raise e => (s, Raise e)
  | Ok K =>
      ({| nodes := nodes s; elements := elements s; n := n;
          K_full := K;
          F_full := (fun nd => Node.force (node_at h nd)) <$> nodes s;
          fixed := (fun nd => Node.fixed (node_at h nd)) <$> nodes s;
          u_known := (fun nd => if Node.prescribed (node_at h nd)
                                then Node.u_prescribed (node_at h nd)
                                else n0) <$> nodes s |},
       Ok K)
  end.

(** The test [self.K_full.sum() == 0.0] that guards the call of assemble. *)
Definition still_zero (s : t) : bool := neqb (np.sum2 (K_full s)) n0.

(** The body of [for i, nd in enumerate(self.nodes): nd.u = float(u[i])] *)
Definition store_u (u : list A) (x : nat * ref) (h : Heap A) : Heap A * result unit :=
  match np.getitem u (Z.of_nat x.1) with
  | Ok v => (update_node h x.2 (fun nd => Node.set_u nd v), Ok tt)
  | Raise e => (h, Raise e)
  end.

(** The body of [for e in self.elements: e.axial = e.axial_force(u)] *)
Definition store_axial (u : list A) (e : ref) (h : Heap A) : Heap A * result unit :=
  match SpringElement.axial_force h (elem_at h e) u with
  | Ok f => (update_elem h e (fun x => Elem.set_axial x f), Ok tt)
  | Raise e => (h, Raise e)
  end.

(** The two write-back loops that end both branches of [solve]. *)
Definition write_back (s : t) (u : list A) (h : Heap A) : Heap A * result unit :=
  match for_each (store_u u) (imap pair (nodes s)) h with
  | (h1, Raise e) => (h1, Raise e)
  | (h1, Ok _) => for_each (store_axial u) (elements s) h1
  end.

(** What [solve] returns: [(u, R, free_idx, fixed_idx)]. *)
Definition output : Type := list A * list A * list nat * list nat.

(** [solve()] after the assembly test: partition, reduce, solve, recover. *)
Definition solve_assembled (s : t) (h : Heap A) : Heap A * result output :=
  let free_idx := np.where_ (negb <$> fixed s) in
  let fixed_idx := np.where_ (fixed s) in
  let u := np.zeros (n s) in
  let uc := if decide (fixed_idx = []) then [] else np.take (u_known s) fixed_idx in
  if decide (free_idx = []) then
    (* all DOFs known *)
    let u := np.put u fixed_idx uc in
    let R := np.vsub (np.matvec (K_full s) u) (F_full s) in
    match write_back s u h with
    | (h', Raise e) => (h', Raise e)
    | (h', Ok _) => (h', Ok (u, R, free_idx, fixed_idx))
    end
  else
    let Kff := np.ix_ (K_full s) free_idx free_idx in
    let Ff := np.take (F_full s) free_idx in
    let rhs :=
      if decide (fixed_idx = []) then Ff
      else
        let Kfc := np.ix_ (K_full s) free_idx fixed_idx in
        np.vsub Ff (np.matvec Kfc uc) in
    match linalg_solve Kff rhs with
    | None => (h, Raise ValueError_singular)
    | Some uf =>
        let u := np.put u free_idx uf in
        let u := if decide (fixed_idx = []) then u else np.put u fixed_idx uc in
        let R := np.vsub (np.matvec (K_full s) u) (F_full s) in
        match write_back s u h with
        | (h', Raise e) => (h', Raise e)
        | (h', Ok _) => (h', Ok (u, R, free_idx, fixed_idx))
        end
    end.

(** [solve()]: the solver and the store after the call, and the result or
    the exception. *)
Definition solve (s : t) (h : Heap A) : t * Heap A * result output :=
  if still_zero s then
    match assemble s h with
    | (s', Raise e) => (s', h, Raise e)
    | (s', Ok _) => let (h', r) := solve_assembled s' h in (s', h', r)
    end
  else
    let (h', r) := solve_assembled s h in (s, h', r).

(** [element_forces()] *)
Definition element_forces (s : t) (h : Heap A) : list A :=
  (fun e => Elem.axial (elem_at h e)) <$> elements s.

End SpringFEASolver.
Arguments t A : clear implicits.
End SpringFEASolver.

(** ** Square and singular matrices *)

Definition square {A : Type} (n : nat) (K : list (list A)) : Prop :=
  length K = n /\ Forall (fun row => length row = n) K.

(** A square matrix is singular when it sends a non-zero vector to zero. *)
Definition singular {A : Type} `{Num A} (K : list (list A)) : Prop :=
  exists z : list A,
    length z = length K /\ z <> np.zeros (length K) /\
    np.matvec K z = np.zeros (length K).

(** ** A solver for exact arithmetic

    Gaussian elimination over a field, on which the model runs with exact
    rationals. *)

(** Division, for the reference solver only: the source never divides. *)
Class NumField (A : Type) `{NumRing A} := {
  ndiv : A -> A -> A;
  ninv : A -> A;
  num_field : field_theory n0 n1 nadd nmul nsub nopp ndiv ninv (@eq A);
}.

Module Gauss.
Section Gauss.
Context {A : Type} `{NumField A}.

(** A row of the augmented system: coefficients and right-hand side. *)
Definition row : Type := list A * A.

(** Subtract the multiple of the pivot row [p] that clears the first
    coefficient of [r], and drop that column. *)
Definition elim (p r : row) : row :=
  let c := ndiv (hd n0 r.1) (hd n0 p.1) in
  (zip_with (fun x y => nsub x (nmul c y)) (tail r.1) (tail p.1),
   nsub r.2 (nmul c p.2)).

(** The first row whose leading coefficient is not zero, and the others. *)
Fixpoint find_pivot (rows : list row) : option (row * list row) :=
  match rows with
  | [] => None
  | r :: rs =>
      if neqb (hd n0 r.1) n0 then
        match find_pivot rs with
        | Some (p, rest) => Some (p, r :: rest)
        | None => None
        end
      else Some (r, rs)
  end.

(** Elimination on [m] unknowns followed by back substitution. *)
Fixpoint gauss (m : nat) (rows : list row) : option (list A) :=
  match m with
  | O => Some []
  | S m' =>
      match find_pivot rows with
      | None => None
      | Some (p, rest) =>
          match gauss m' (elim p <$> rest) with
          | None => None
          | Some xs =>
              Some (ndiv (nsub p.2 (np.dot (tail p.1) xs)) (hd n0 p.1) :: xs)
          end
      end
  end.

Definition solve (K : list (list A)) (b : list A) : option (list A) :=
  gauss (length b) (zip K b).

End Gauss.
End Gauss.

(** ** numpy.linalg.solve in binary64

    For [float64] arrays [numpy.linalg.solve] calls LAPACK's [dgesv]: the
    LU factorisation with partial pivoting of [dgetrf], then the row
    interchanges and the two triangular solves of [dgetrs].  [dgesv]
    reports a singular matrix, and numpy raises [LinAlgError], exactly
    when a pivot of the factorisation is exactly zero.  The routine is
    not code of the repository: the definitions follow LAPACK's reference
    implementation ([idamax], [dgetf2], [dger], [dlaswp], [dtrsm]), each
    rounding where the reference code rounds. *)

Module lapack.

(** A row of the system while it is factorised: the coefficients from the
    current column on, and the entry of the right-hand side. *)
Definition row : Type := list float * float.

(** [idamax]: the position of the first entry of largest absolute value. *)
Fixpoint idamax_from (i best : nat) (dmax : float) (col : list float) : nat :=
  match col with
  | [] => best
  | x :: col' =>
      if PrimFloat.ltb dmax (PrimFloat.abs x)
      then idamax_from (S i) i (PrimFloat.abs x) col'
      else idamax_from (S i) best dmax col'
  end.

Definition idamax (col : list float) : nat :=
  match col with
  | [] => 0
  | x :: col' => idamax_from 1 0 (PrimFloat.abs x) col'
  end.

(** [dlamch('S')]: the smallest number whose reciprocal does not overflow. *)
Definition sfmin : float := 0x1p-1022%float.

(** The row interchange of [dgetf2] and [dlaswp]: rows [0] and [jp]. *)
Definition swap (jp : nat) (rows : list row) : list row :=
  match rows !! 0, rows !! jp with
  | Some r0, Some rp => <[jp := r0]> (<[0 := rp]> rows)
  | _, _ => rows
  end.

(** The multiplier of a row: [dscal] by the reciprocal of the pivot, or
    the quotient when the pivot is tiny. *)
Definition multiplier (piv a : float) : float :=
  if PrimFloat.ltb (PrimFloat.abs piv) sfmin then (a / piv)%float
  else (a * (1 / piv))%float.

(** One entry of the rank-one update of [dger] with [alpha = -1]. *)
Definition update (l a u : float) : float :=
  if PrimFloat.eqb u 0 then a else (a + l * (- u))%float.

(** One entry of the forward substitution of [dtrsm]. *)
Definition forward (l b bk : float) : float :=
  if PrimFloat.eqb bk 0 then b else (b - bk * l)%float.

(** Row [r] after the elimination step with pivot row [p]. *)
Definition eliminate (p r : row) : row :=
  let l := multiplier (hd 0%float p.1) (hd 0%float r.1) in
  (zip_with (update l) (tail r.1) (tail p.1), forward l r.2 p.2).

(** The back substitution of [dtrsm] for one row: the entries [xs] found
    so far are taken from the last to the first; an entry whose
    numerator was zero is skipped. *)
Definition back (us : list float) (b : float) (xs : list (float * bool)) : float :=
  foldr (fun '(u, (x, solved)) acc => if solved : bool then (acc - x * u)%float else acc)
        b (zip us xs).

(** [dgetf2] on the remaining [n] columns, then [dtrsm] on the way back.
    [None] is [info > 0]: a pivot is exactly zero. *)
Fixpoint factor_solve (n : nat) (rows : list row) : option (list (float * bool)) :=
  match n with
  | 0 => Some []
  | S n' =>
      match swap (idamax ((fun r : row => hd 0%float r.1) <$> rows)) rows with
      | [] => Some []
      | p :: rest =>
          if PrimFloat.eqb (hd 0%float p.1) 0 then None
          else
            match factor_solve n' (eliminate p <$> rest) with
            | None => None
            | Some xs =>
                let b := back (tail p.1) p.2 xs in
                if PrimFloat.eqb b 0 then Some ((b, false) :: xs)
                else Some ((b / hd 0%float p.1, true)%float :: xs)
            end
      end
  end.

(** [dgesv(A, b)] *)
Definition dgesv (K : list (list float)) (b : list float) : option (list float) :=
  match factor_solve (length b) (zip K b) with
  | Some xs => Some (xs.*1)
  | None => None
  end.

End lapack.

(** ** Exact rationals *)

Lemma Qc_neqb_eq (a b : Qc) : neqb a b = true <-> a = b.
Proof.
  cbn. rewrite Qeq_bool_iff. split.
  - apply Qc_is_canon.
  - intros ->. reflexivity.
Qed.

#[global] Instance Qc_NumRing : NumRing Qc :=
  {| n1 := 1%Qc; num_ring := Qcrt; neqb_eq := Qc_neqb_eq |}.

#[global] Instance Qc_NumField : NumField Qc :=
  {| ndiv := Qcdiv; ninv := Qcinv; num_field := Qcft |}.

(** * The vocabulary of the properties

    The definitions the lemmas and theorems below are stated with. *)

(** The reference solver as the linear solver of the exact rationals. *)
#[global] Instance Qc_linalg : LinalgSolve Qc := Gauss.solve.

(** LAPACK's routine as the linear solver of binary64. *)
#[global] Instance float_linalg : LinalgSolve float := lapack.dgesv.

Section AssignVocabulary.
Context {X : Type}.

(** A loop that overwrites one field of each object of a list is, on the
    store, a sequence of in-place updates [(r, f)]: apply the setter [f] to
    the object at address [r]. *)
Definition assign_all (st : list X) (asg : list (nat * (X -> X))) : list X :=
  foldl (fun st a => alter a.2 a.1 st) st asg.

(** What the whole sequence does to the object at address [x]. *)
Fixpoint effect (asg : list (nat * (X -> X))) (x : nat) : X -> X :=
  match asg with
  | [] => fun v => v
  | a :: asg' => fun v => effect asg' x (if decide (a.1 = x) then a.2 v else v)
  end.

(** The entries of [v] under the true positions of the mask. *)
Fixpoint select {X : Type} (mask : list bool) (v : list X) : list X :=
  match mask, v with
  | b :: m, x :: v' => if b then x :: select m v' else select m v'
  | _, _ => []
  end.

End AssignVocabulary.

Section Vocabulary.
Context {A : Type} `{Num A} `{!LinalgSolve A}.

(** One scatter-add [K[a, b] += v] on in-range row and column. *)
Definition madd (K : list (list A)) (a b : nat) (v : A) : list (list A) :=
  alter (alter (fun x => nadd x v) b) a K.

(** The four scatter-adds of one element at rows and columns [a], [b]. *)
Definition stamp (K : list (list A)) (a b : nat) (k : A) : list (list A) :=
  madd (madd (madd (madd K a a k) a b (nopp k)) b a (nopp k)) b b k.

(** The rows, columns and stiffness an element contributes to, once its
    DOF indices are normalised against the matrix size. *)
Definition resolve (n : nat) (h : Heap A) (r : ref) : result (nat * nat * A) :=
  let '(ii, jj) := SpringElement.connectivity h (elem_at h r) in
  a ← np.index n ii; b ← np.index n jj; Ok (a, b, Elem.k (elem_at h r)).

Fixpoint resolve_all (n : nat) (h : Heap A) (es : list ref)
    : result (list (nat * nat * A)) :=
  match es with
  | [] => Ok []
  | e :: es' => t ← resolve n h e; ts ← resolve_all n h es'; Ok (t :: ts)
  end.

Definition stamp3 (K : list (list A)) (t : nat * nat * A) : list (list A) :=
  stamp K t.1.1 t.1.2 t.2.

Definition in_range (n : nat) (t : nat * nat * A) : Prop := t.1.1 < n /\ t.1.2 < n.

Definition symmetric (K : list (list A)) : Prop :=
  forall a b : nat, (K !!! a) !!! b = (K !!! b) !!! a.

(** The vector of the column sums of a matrix with [n] columns. *)
Definition colsums (n : nat) (K : list (list A)) : list A :=
  foldr (zip_with nadd) (np.zeros n) K.

(** The entry of a stamped matrix is the old entry plus what the element
    contributes there. *)
Definition contrib (a b : nat) (k : A) (x y : nat) : A :=
  nadd (nadd (nadd (if decide (x = a /\ y = a) then k else n0)
                   (if decide (x = a /\ y = b) then nopp k else n0))
             (if decide (x = b /\ y = a) then nopp k else n0))
       (if decide (x = b /\ y = b) then k else n0).

(** [h'] holds the same objects as [h], with the same input fields. *)
Definition same_inputs (h h' : Heap A) : Prop :=
  length (h_nodes h') = length (h_nodes h) /\
  length (h_elems h') = length (h_elems h) /\
  (forall r, Node.inputs (node_at h' r) = Node.inputs (node_at h r)) /\
  (forall r, Elem.inputs (elem_at h' r) = Elem.inputs (elem_at h r)).

(** Two stores with the same DOF indices and the same elements. *)
Definition same_geometry (h h' : Heap A) : Prop :=
  (forall r, Node.dof (node_at h' r) = Node.dof (node_at h r)) /\
  (forall r, Elem.inputs (elem_at h' r) = Elem.inputs (elem_at h r)).

Definition is_set_u (f : Node.t A -> Node.t A) : Prop :=
  exists v, f = fun nd => Node.set_u nd v.

Definition is_set_axial (f : Elem.t A -> Elem.t A) : Prop :=
  exists v, f = fun e => Elem.set_axial e v.

(** The assignments of the node loop and of the element loop. *)
Definition node_asg (u : list A) (xs : list (nat * ref))
    : list (nat * (Node.t A -> Node.t A)) :=
  (fun x => (x.2, fun nd => Node.set_u nd (u !!! x.1))) <$> xs.

Definition axial_val (h : Heap A) (u : list A) (e : ref) : A :=
  match SpringElement.axial_force h (elem_at h e) u with
  | Ok v => v
  | Raise _ => n0
  end.

Definition elem_asg (h : Heap A) (u : list A) (es : list ref)
    : list (nat * (Elem.t A -> Elem.t A)) :=
  (fun e => (e, fun x => Elem.set_axial x (axial_val h u e))) <$> es.

Definition axial_ok (h : Heap A) (u : list A) (e : ref) : Prop :=
  exists v, SpringElement.axial_force h (elem_at h e) u = Ok v.

(** The store after the caller sets the load of node [r0] to [f]. *)
Definition set_load (h : Heap A) (r0 : ref) (f : A) : Heap A :=
  update_node h r0 (fun nd => Node.set_force nd f).

(** The solver with another stored load vector. *)
Definition with_F (s : SpringFEASolver.t A) (F : list A) : SpringFEASolver.t A :=
  {| SpringFEASolver.nodes := SpringFEASolver.nodes s;
     SpringFEASolver.elements := SpringFEASolver.elements s;
     SpringFEASolver.n := SpringFEASolver.n s;
     SpringFEASolver.K_full := SpringFEASolver.K_full s;
     SpringFEASolver.F_full := F;
     SpringFEASolver.fixed := SpringFEASolver.fixed s;
     SpringFEASolver.u_known := SpringFEASolver.u_known s |}.

(** The shapes [__init__] and [assemble] give to the solver's arrays. *)
Definition wf (s : SpringFEASolver.t A) : Prop :=
  SpringFEASolver.n s = length (SpringFEASolver.nodes s) /\
  square (SpringFEASolver.n s) (SpringFEASolver.K_full s) /\
  length (SpringFEASolver.F_full s) = SpringFEASolver.n s /\
  length (SpringFEASolver.fixed s) = SpringFEASolver.n s /\
  length (SpringFEASolver.u_known s) = SpringFEASolver.n s.

(** Every element's DOF indices address the [n] by [n] matrix. *)
Definition in_bounds (s : SpringFEASolver.t A) (h : Heap A) : Prop :=
  exists ts, resolve_all (SpringFEASolver.n s) h (SpringFEASolver.elements s) = Ok ts.

(** The reduced system that [solve] hands to the linear solver. *)
Definition free_idx (s : SpringFEASolver.t A) : list nat :=
  np.where_ (negb <$> SpringFEASolver.fixed s).

Definition fixed_idx (s : SpringFEASolver.t A) : list nat :=
  np.where_ (SpringFEASolver.fixed s).

Definition Kff (s : SpringFEASolver.t A) : list (list A) :=
  np.ix_ (SpringFEASolver.K_full s) (free_idx s) (free_idx s).

Definition Kfc (s : SpringFEASolver.t A) : list (list A) :=
  np.ix_ (SpringFEASolver.K_full s) (free_idx s) (fixed_idx s).

Definition Ff (s : SpringFEASolver.t A) : list A :=
  np.take (SpringFEASolver.F_full s) (free_idx s).

Definition uc (s : SpringFEASolver.t A) : list A :=
  np.take (SpringFEASolver.u_known s) (fixed_idx s).

Definition rhs (s : SpringFEASolver.t A) : list A :=
  if decide (fixed_idx s = []) then Ff s else np.vsub (Ff s) (np.matvec (Kfc s) (uc s)).

(** The displacement vector [solve] builds from the free values [uf]. *)
Definition u_full (s : SpringFEASolver.t A) (uf : list A) : list A :=
  np.put (np.put (np.zeros (SpringFEASolver.n s)) (free_idx s) uf) (fixed_idx s) (uc s).

(** A solver whose stored matrix has columns summing to zero. *)
Definition balanced (s : SpringFEASolver.t A) : Prop :=
  wf s /\
  colsums (SpringFEASolver.n s) (SpringFEASolver.K_full s) = np.zeros (SpringFEASolver.n s).

(** The states of a solver object: constructed, then any number of calls
    of [assemble] and [solve], the caller changing the store in between. *)
Inductive reachable : SpringFEASolver.t A -> Prop :=
| reach_init nodes elements : reachable (SpringFEASolver.init nodes elements)
| reach_assemble s h : reachable s -> reachable (SpringFEASolver.assemble s h).1
| reach_solve s h : reachable s -> reachable (SpringFEASolver.solve s h).1.1.

End Vocabulary.
Arguments resolve : simpl never.

(** ** Example models *)

Definition qc (z : Z) : Qc := Q2Qc (inject_Z z).

(** A node as the caller sets it up: id, load, constraint flags and
    prescribed value. *)
Definition node_of {A : Type} `{Num A} (id : Z) (f : A) (fixed prescribed : bool) (up : A)
    : Node.t A :=
  Node.mk id f fixed prescribed up n0 (id - 1).

(** One spring, [k = 10], node 1 fixed, node 2 free with load 5. *)
Definition single_spring : Heap Qc :=
  mkHeap [node_of 1 (qc 0) true false (qc 0); node_of 2 (qc 5) false false (qc 0)]
         [Elem.mk 0%nat 1%nat (qc 10) (qc 0)].

Definition single_spring_solver : SpringFEASolver.t Qc :=
  SpringFEASolver.init [0; 1]%nat [0]%nat.

(** Three nodes in series, each [k = 1], node 1 fixed, node 3 prescribed
    at 2. *)
Definition chain3 : Heap Qc :=
  mkHeap [node_of 1 (qc 0) true false (qc 0); node_of 2 (qc 0) false false (qc 0);
          node_of 3 (qc 0) true true (qc 2)]
         [Elem.mk 0%nat 1%nat (qc 1) (qc 0); Elem.mk 1%nat 2%nat (qc 1) (qc 0)].

Definition chain3_solver : SpringFEASolver.t Qc :=
  SpringFEASolver.init [0; 1; 2]%nat [0; 1]%nat.

(** Three nodes, one element between nodes 1 and 2, node 3 free and
    uncoupled. *)
Definition floating3 : Heap Qc :=
  mkHeap [node_of 1 (qc 0) true false (qc 0); node_of 2 (qc 0) false false (qc 0);
          node_of 3 (qc 0) false false (qc 0)]
         [Elem.mk 0%nat 1%nat (qc 1) (qc 0)].

Definition floating3_solver : SpringFEASolver.t Qc :=
  SpringFEASolver.init [0; 1; 2]%nat [0]%nat.

(** Node 1 joined to nodes 2, 3 and 4 by springs of stiffness 0.1, 0.2 and
    0.3, in binary64. *)
Definition star4 : Heap float :=
  mkHeap (Node.init <$> [1; 2; 3; 4]%Z)
         [Elem.mk 0%nat 1%nat 0.1%float 0%float;
          Elem.mk 0%nat 2%nat 0.2%float 0%float;
          Elem.mk 0%nat 3%nat 0.3%float 0%float].

Definition star4_solver (elements : list ref) : SpringFEASolver.t float :=
  SpringFEASolver.init [0; 1; 2; 3]%nat elements.

(** The single spring in binary64. *)
Definition single_spring_f : Heap float :=
  mkHeap [node_of 1 0%float true false 0%float; node_of 2 5%float false false 0%float]
         [Elem.mk 0%nat 1%nat 10%float 0%float].

Definition single_spring_solver_f : SpringFEASolver.t float :=
  SpringFEASolver.init [0; 1]%nat [0]%nat.

(** The values read off a result, as plain rationals. *)
Definition show (r : SpringFEASolver.t Qc * Heap Qc * result (SpringFEASolver.output (A:=Qc)))
    : option (list Q * list Q * list nat * list nat * list Q) :=
  match r with
  | (s, h, Ok (u, R, fr, fx)) =>
      Some (this <$> u, this <$> R, fr, fx, this <$> SpringFEASolver.element_forces s h)
  | _ => None
  end.

(** * The window: model of [gui.py]

    [App] reads the model from entry widgets, builds [Node] and
    [SpringElement] objects from them and runs the solver.  The widgets are
    a parameter of the model: each Tk variable is given by what its
    [get()] returns, or [None] when [get()] raises because the text is not
    a number. *)

(** ** Exceptions of the window

    One constructor per [raise] site of [collect_model], [TclError] for a
    widget variable read outside a [try], and the exceptions of
    [fea_core]. *)

Inductive gui_exn : Type :=
| TclError                                 (* int(self.num_nodes_var.get()) *)
| ValueError_forces                        (* Forces must be numeric. *)
| ValueError_prescribed                    (* Prescribed u values must be numeric. *)
| ValueError_element_data                  (* Element data must be numeric ... *)
| ValueError_element_indices (nN i j : Z)  (* Element node indices must be between 1 and nN *)
| RuntimeError_aborted                     (* Aborted by user *)
| Solver (e : exn).                        (* raised inside fea_core *)

Inductive gresult (T : Type) : Type :=
| GOk (v : T)
| GRaise (e : gui_exn).
Arguments GOk {T} v.
Arguments GRaise {T} e.

#[global] Instance gresult_ret : MRet gresult := fun _ v => GOk v.
#[global] Instance gresult_bind : MBind gresult := fun _ _ f m =>
  match m with GOk v => f v | GRaise e => GRaise e end.

(** An exception of [fea_core] passing through the window's code. *)
Definition lift {T : Type} (r : result T) : gresult T :=
  match r with Ok v => GOk v | Raise e => GRaise (Solver e) end.

Module App.
Section App.
Context {A : Type} `{Num A} `{!LinalgSolve A}.

(** The widget variables [collect_model] reads, and the answer to the
    dialog it may open. *)
Record t : Type := mk {
  num_nodes_var : option Z;            (* tk.IntVar *)
  force_vars : list (option A);        (* tk.DoubleVar per node *)
  bc_type_vars : list string;          (* tk.StringVar per node *)
  u_val_vars : list (option A);        (* tk.DoubleVar per node *)
  elem_entries : list (option Z * option Z * option A);  (* (i_var, j_var, k_var) *)
  askyesno : bool;                     (* messagebox.askyesno *)
}.

(** [nd.fixed = a; nd.prescribed = b; nd.u_prescribed = v] *)
Definition set_bc (nd : Node.t A) (a b : bool) (v : A) : Node.t A :=
  {| Node.id := Node.id nd; Node.force := Node.force nd; Node.fixed := a;
     Node.prescribed := b; Node.u_prescribed := v;
     Node.u := Node.u nd; Node.dof := Node.dof nd |}.

(** The BC type of row [r]. *)
Definition bc_of (app : t) (r : nat) : string :=
  if decide (r < length (bc_type_vars app)) then bc_type_vars app !!! r else "Free".

(** The body of the loop [for r in range(nN)] over the load/BC table. *)
Definition bc_row (app : t) (r : nat) (nodes : list (Node.t A))
    : gresult (list (Node.t A)) :=
  match force_vars app !! r with
  | Some (Some f) =>
      let nodes := alter (fun nd => Node.set_force nd f) r nodes in
      let bc := bc_of app r in
      uv ← (if decide (bc = "Prescribed") then
              match u_val_vars app !! r with
              | Some (Some v) => GOk v
              | _ => GRaise ValueError_prescribed
              end
            else GOk n0);
      if decide (bc = "Fixed") then
        GOk (alter (fun nd => set_bc nd true false n0) r nodes)
      else if decide (bc = "Prescribed") then
        GOk (alter (fun nd => set_bc nd true true uv) r nodes)
      else
        GOk (alter (fun nd => set_bc nd false false n0) r nodes)
  | _ => GRaise ValueError_forces
  end.

Fixpoint bc_loop (app : t) (rs : list nat) (nodes : list (Node.t A))
    : gresult (list (Node.t A)) :=
  match rs with
  | [] => GOk nodes
  | r :: rs' => nodes' ← bc_row app r nodes; bc_loop app rs' nodes'
  end.

(** The body of the loop over [self.elem_entries]: the store holds the
    nodes at addresses [0 .. nN-1], so [nodes[i - 1]] is address [i - 1]. *)
Definition elem_row (nN : Z) (entry : option Z * option Z * option A)
    (st : Heap A * list ref) : gresult (Heap A * list ref) :=
  match entry with
  | (Some i, Some j, Some k) =>
      if decide (i < 1 \/ j < 1 \/ i > nN \/ j > nN)%Z then
        GRaise (ValueError_element_indices nN i j)
      else
        match SpringElement.init st.1 (Z.to_nat (i - 1)) (Z.to_nat (j - 1)) k with
        | (h, Ok e) => GOk (h, st.2 ++ [e])
        | (_, Raise x) => GRaise (Solver x)
        end
  | _ => GRaise ValueError_element_data
  end.

Fixpoint elem_loop (nN : Z) (entries : list (option Z * option Z * option A))
    (st : Heap A * list ref) : gresult (Heap A * list ref) :=
  match entries with
  | [] => GOk st
  | en :: entries' => st' ← elem_row nN en st; elem_loop nN entries' st'
  end.

(** [collect_model()]: the store holding the new objects, the node list
    and the element list. *)
Definition collect_model (app : t) : gresult (Heap A * list ref * list ref) :=
  match num_nodes_var app with
  | None => GRaise TclError
  | Some nN =>
      let n := Z.to_nat nN in
      let nodes := (fun i : nat => Node.init (Z.of_nat i + 1)) <$> seq 0 n in
      nodes ← bc_loop app (seq 0 n) nodes;
      st ← elem_loop nN (elem_entries app) (mkHeap nodes [], []);
      if negb (existsb Node.fixed nodes) then
        if negb (askyesno app) then GRaise RuntimeError_aborted
        else GOk (st.1, seq 0 n, st.2)
      else GOk (st.1, seq 0 n, st.2)
  end.

(** [[e.nodal_actions(u) for e in elements]] *)
Fixpoint end_forces (h : Heap A) (u : list A) (es : list ref) : result (list (A * A)) :=
  match es with
  | [] => Ok []
  | e :: es' =>
      f ← SpringElement.nodal_actions h (elem_at h e) u;
      fs ← end_forces h u es';
      Ok (f :: fs)
  end.

(** What [solve_model] goes on to display. *)
Record results : Type := mk_results {
  r_store : Heap A;
  r_nodes : list ref;
  r_elements : list ref;
  r_K : list (list A);
  r_u : list A;
  r_R : list A;
  r_free_idx : list nat;
  r_fixed_idx : list nat;
  r_elem_forces : list A;
  r_elem_end_forces : list (A * A);
}.

(** The [try] block that opens [solve_model] and [export_results_csv]. *)
Definition compute (app : t) : gresult results :=
  m ← collect_model app;
  let h := m.1.1 in let nodes := m.1.2 in let elements := m.2 in
  let solver := SpringFEASolver.init nodes elements in
  let a := SpringFEASolver.assemble solver h in
  K ← lift a.2;
  let s := SpringFEASolver.solve a.1 h in
  out ← lift s.2;
  let solver := s.1.1 in let h := s.1.2 in
  let u := out.1.1.1 in
  let elem_forces := SpringFEASolver.element_forces solver h in
  elem_end_forces ← lift (end_forces h u elements);
  GOk {| r_store := h; r_nodes := nodes; r_elements := elements; r_K := K;
         r_u := u; r_R := out.1.1.2; r_free_idx := out.1.2; r_fixed_idx := out.2;
         r_elem_forces := elem_forces; r_elem_end_forces := elem_end_forces |}.

(** How [solve_model] ends: it displays the results, returns silently on
    [RuntimeError], or shows an error box with the exception. *)
Inductive outcome : Type :=
| Displayed (r : results)
| Returned
| ErrorBox (e : gui_exn).

Definition solve_model (app : t) : outcome :=
  match compute app with
  | GOk r => Displayed r
  | GRaise RuntimeError_aborted => Returned
  | GRaise e => ErrorBox e
  end.

End App.
Arguments t A : clear implicits.
Arguments results A : clear implicits.
Arguments outcome A : clear implicits.
End App.

(** ** The sketch: tracks of the springs

    [draw_sketch] draws every spring on a horizontal track; two springs
    that share a node or whose spans overlap must not lie on the same
    track. *)

Module Sketch.

(** The dict [{i, j, a, b}] of one spring: its node indices and its span
    [a < b]. *)
Record elem : Type := mk_elem { i : Z; j : Z; a : Z; b : Z }.

#[global] Instance elem_inhabited : Inhabited elem := populate (mk_elem 0 0 0 0).

(** The loop that builds [elems]: rows out of range or with [i = j] are
    skipped; [None] stands for the [except] branch. *)
Fixpoint elems_loop {A : Type} (nN : Z) (entries : list (option Z * option Z * option A))
    (elems : list elem) : option (list elem) :=
  match entries with
  | [] => Some elems
  | (Some i, Some j, _) :: entries' =>
      let i := (i - 1)%Z in let j := (j - 1)%Z in
      if decide (i < 0 \/ j < 0 \/ i >= nN \/ j >= nN \/ i = j)%Z then
        elems_loop nN entries' elems
      else
        let (a, b) := if decide (i < j)%Z then (i, j) else (j, i) in
        elems_loop nN entries' (elems ++ [mk_elem i j a b])
  | _ => None
  end.

Definition elems_of {A : Type} (nN : Z) (entries : list (option Z * option Z * option A))
    : list elem :=
  match elems_loop nN entries [] with Some elems => elems | None => [] end.

(** [e[i] in (p[i], p[j]) or e[j] in (p[i], p[j])] *)
Definition shares (e p : elem) : bool :=
  bool_decide ((i e = i p \/ i e = j p) \/ (j e = i p \/ j e = j p)).

(** [(e[a] < p[b] and p[a] < e[b]) and not (e[a] == p[b] or p[a] == e[b])] *)
Definition overlaps (e p : elem) : bool :=
  bool_decide (((a e < b p)%Z /\ (a p < b e)%Z) /\ ~ (a e = b p \/ a p = b e)).

(** The inner loop [for p_idx in range(e_idx)]: the tracks taken by the
    earlier springs in conflict with [e].  The set [used] is kept as a
    list; only membership in it is ever asked. *)
Definition used_by (elems : list elem) (tracks : list nat) (e_idx : nat) (e : elem)
    : list nat :=
  foldl (fun used p_idx =>
           let p := elems !!! p_idx in
           let used := if shares e p then tracks !!! p_idx :: used else used in
           if overlaps e p then tracks !!! p_idx :: used else used)
        [] (seq 0 e_idx).

(** [t = 0; while t in used: t += 1], the test made at most [fuel] times;
    one test more than [used] has entries always ends the loop
    ([first_unused_pick]). *)
Fixpoint first_unused (fuel t : nat) (used : list nat) : nat :=
  match fuel with
  | 0 => t
  | S fuel' => if bool_decide (t ∈ used) then first_unused fuel' (S t) used else t
  end.

(** The body of the outer loop [for e_idx, e in enumerate(elems)]. *)
Definition place (elems : list elem) (tracks : list nat) (x : nat * elem) : list nat :=
  let used := used_by elems tracks x.1 x.2 in
  tracks ++ [first_unused (S (length used)) 0 used].

Definition assign_tracks (elems : list elem) : list nat :=
  foldl (place elems) [] (imap pair elems).

(** [track_to_level(t)] *)
Definition track_to_level (t : nat) : Z :=
  if decide (t = 0) then 0%Z
  else (Z.of_nat ((t + 1) / 2)%nat * (if decide (t mod 2 = 1)%nat then 1 else -1))%Z.

End Sketch.

(** ** The vocabulary of the further properties *)

Section SolverVocabulary.
Context {A : Type} `{Num A}.

(** Both DOF indices of an element address an array of [n] entries, counted
    from the front or, when negative, from the end. *)
Definition dofs_in_range (n : nat) (h : Heap A) (e : ref) : Prop :=
  let '(ii, jj) := SpringElement.connectivity h (elem_at h e) in
  (- Z.of_nat n <= ii < Z.of_nat n)%Z /\ (- Z.of_nat n <= jj < Z.of_nat n)%Z.

(** The row or column a DOF index addresses in an array of [n] entries. *)
Definition dof_index (n : nat) (d : Z) : nat := Z.to_nat (d mod Z.of_nat n).

(** What element [e] adds to the entry [(x, y)] of the global matrix. *)
Definition elem_entry (n : nat) (h : Heap A) (x y : nat) (e : ref) : A :=
  let '(ii, jj) := SpringElement.connectivity h (elem_at h e) in
  contrib (dof_index n ii) (dof_index n jj) (Elem.k (elem_at h e)) x y.

(** The values one element with rows [a], [b] and stiffness [k] adds to
    the entry [(x, y)], in the order [add_to_global] adds them. *)
Definition terms (a b : nat) (k : A) (x y : nat) : list A :=
  (if decide (x = a /\ y = a) then [k] else []) ++
  (if decide (x = a /\ y = b) then [nopp k] else []) ++
  (if decide (x = b /\ y = a) then [nopp k] else []) ++
  (if decide (x = b /\ y = b) then [k] else []).

Definition elem_terms (n : nat) (h : Heap A) (x y : nat) (e : ref) : list A :=
  let '(ii, jj) := SpringElement.connectivity h (elem_at h e) in
  terms (dof_index n ii) (dof_index n jj) (Elem.k (elem_at h e)) x y.

(** The values the elements [es] add to the entry [(x, y)] of the global
    matrix, in the order of the list. *)
Definition entry_terms (n : nat) (h : Heap A) (x y : nat) (es : list ref) : list A :=
  flat_map (elem_terms n h x y) es.

(** The known displacement of a node: its prescribed value, or zero. *)
Definition known_u (h : Heap A) (nd : ref) : A :=
  if Node.prescribed (node_at h nd) then Node.u_prescribed (node_at h nd) else n0.

End SolverVocabulary.

Section WindowVocabulary.
Context {A : Type} `{Num A} `{!LinalgSolve A}.

(** Row [r] of the load/BC table constrains its node. *)
Definition row_constrained (app : App.t A) (r : nat) : Prop :=
  App.bc_of app r = "Fixed" \/ App.bc_of app r = "Prescribed".

(** Node [nd] is the fresh node [nd0] with the load and the boundary
    condition of row [r] of the table. *)
Definition row_node (app : App.t A) (r : nat) (nd0 nd : Node.t A) : Prop :=
  Node.id nd = Node.id nd0 /\ Node.dof nd = Node.dof nd0 /\ Node.u nd = Node.u nd0 /\
  App.force_vars app !! r = Some (Some (Node.force nd)) /\
  Node.fixed nd = bool_decide (row_constrained app r) /\
  Node.prescribed nd = bool_decide (App.bc_of app r = "Prescribed") /\
  (if decide (App.bc_of app r = "Prescribed")
   then App.u_val_vars app !! r = Some (Some (Node.u_prescribed nd))
   else Node.u_prescribed nd = n0).

(** Element [e] is what row [en] of the element table describes, over
    [nN] nodes. *)
Definition row_elem (nN : Z) (en : option Z * option Z * option A) (e : Elem.t A) : Prop :=
  exists i j k,
    en = (Some i, Some j, Some k) /\
    (1 <= i <= nN)%Z /\ (1 <= j <= nN)%Z /\ i <> j /\ nleb k n0 = false /\
    e = Elem.mk (Z.to_nat (i - 1)) (Z.to_nat (j - 1)) k n0.

End WindowVocabulary.

(** Two springs that may not share a track. *)
Definition conflict (e p : Sketch.elem) : Prop :=
  Sketch.shares e p = true \/ Sketch.overlaps e p = true.

(** A sketched spring joins two different nodes of the model and spans
    from the lower to the higher one. *)
Definition span_ok (nN : Z) (e : Sketch.elem) : Prop :=
  (0 <= Sketch.a e < Sketch.b e)%Z /\ (Sketch.b e < nN)%Z /\
  Sketch.a e = Z.min (Sketch.i e) (Sketch.j e) /\
  Sketch.b e = Z.max (Sketch.i e) (Sketch.j e).

(** ** Further example models *)

(** One spring in binary64, [k = 10], node 1 fixed and node 2 prescribed
    at 1. *)
Definition clamped2_f : Heap float :=
  mkHeap [node_of 1 0%float true false 0%float; node_of 2 0%float true true 1%float]
         [Elem.mk 0%nat 1%nat 10%float 0%float].

Definition clamped2_solver_f : SpringFEASolver.t float :=
  SpringFEASolver.init [0; 1]%nat [0]%nat.

(** The three-node chain in binary64, stiffnesses 0.1 and 0.2. *)
Definition chain3_f : Heap float :=
  mkHeap (Node.init <$> [1; 2; 3]%Z)
         [Elem.mk 0%nat 1%nat 0.1%float 0%float; Elem.mk 1%nat 2%nat 0.2%float 0%float].

Definition chain3_solver_f (elements : list ref) : SpringFEASolver.t float :=
  SpringFEASolver.init [0; 1; 2]%nat elements.



(** Three free nodes in binary64, node 1 joined to node 2 by a spring of
    stiffness 1 and to node 3 by one of stiffness 2, load 1 on node 3. *)
Definition adrift3 : Heap float :=
  mkHeap [node_of 1 0%float false false 0%float; node_of 2 0%float false false 0%float;
          node_of 3 1%float false false 0%float]
         [Elem.mk 0%nat 1%nat 1%float 0%float; Elem.mk 0%nat 2%nat 2%float 0%float].

Definition adrift3_solver : SpringFEASolver.t float :=
  SpringFEASolver.init [0; 1; 2]%nat [0; 1]%nat.

(** The window filled in with the three-node chain. *)
Definition form_chain3 : App.t Qc :=
  {| App.num_nodes_var := Some 3%Z;
     App.force_vars := [Some (qc 0); Some (qc 0); Some (qc 0)];
     App.bc_type_vars := ["Fixed"; "Free"; "Prescribed"]%string;
     App.u_val_vars := [Some (qc 0); Some (qc 0); Some (qc 2)];
     App.elem_entries := [(Some 1%Z, Some 2%Z, Some (qc 1)); (Some 2%Z, Some 3%Z, Some (qc 1))];
     App.askyesno := false |}.

(** The window filled in with the unsupported spring, the user answering
    yes to the dialog. *)
Definition form_free2 : App.t Qc :=
  {| App.num_nodes_var := Some 2%Z;
     App.force_vars := [Some (qc 0); Some (qc 5)];
     App.bc_type_vars := ["Free"; "Free"]%string;
     App.u_val_vars := [Some (qc 0); Some (qc 0)];
     App.elem_entries := [(Some 1%Z, Some 2%Z, Some (qc 10))];
     App.askyesno := true |}.

(** The same, the user answering no. *)
Definition form_aborted : App.t Qc :=
  {| App.num_nodes_var := Some 2%Z;
     App.force_vars := [Some (qc 0); Some (qc 5)];
     App.bc_type_vars := ["Free"; "Free"]%string;
     App.u_val_vars := [Some (qc 0); Some (qc 0)];
     App.elem_entries := [(Some 1%Z, Some 2%Z, Some (qc 10))];
     App.askyesno := false |}.

(** Three springs over three nodes: 1-2, 2-3 and 1-3. *)
Definition sketch3 : list Sketch.elem :=
  Sketch.elems_of (A:=Qc) 3
    [(Some 1%Z, Some 2%Z, None); (Some 2%Z, Some 3%Z, None); (Some 1%Z, Some 3%Z, None)].


(** * Properties *)

(** ** Indexing and scatter-add *)

Section Scatter.
Context {A : Type} `{Num A}.

Lemma index_Ok n i a : np.index n i = Ok a -> a < n.
Proof.
  unfold np.index. repeat case_decide; intros [= <-]; lia.
Qed.

Lemma index_in_range n i :
  (- Z.of_nat n <= i < Z.of_nat n)%Z -> exists a, np.index n i = Ok a.
Proof.
  intros Hi. unfold np.index. repeat case_decide; eauto. lia.
Qed.

Lemma index_Raise n i e :
  np.index n i = Raise e -> e = IndexError /\ ~ (- Z.of_nat n <= i < Z.of_nat n)%Z.
Proof.
  unfold np.index. repeat case_decide; intros [= <-]. split; [done | lia].
Qed.

Lemma square_zeros2 n : square n (np.zeros2 (A:=A) n n).
Proof.
  split; [apply length_replicate|].
  apply Forall_replicate. apply length_replicate.
Qed.

Lemma square_row n (K : list (list A)) a :
  square n K -> a < n -> length (K !!! a) = n.
Proof.
  intros [Hl Hr] Ha. apply (Forall_lookup_total_1 _ _ a) in Hr; [done | lia].
Qed.

Lemma square_madd n (K : list (list A)) a b v : square n K -> square n (madd K a b v).
Proof.
  intros [Hl Hr]. split; unfold madd.
  - by rewrite length_alter.
  - apply Forall_alter; [done|]. intros row _ Hrow. by rewrite length_alter.
Qed.

Lemma square_stamp n (K : list (list A)) a b k : square n K -> square n (stamp K a b k).
Proof. intros HK. unfold stamp. by repeat apply square_madd. Qed.

Lemma entry_madd n (K : list (list A)) a b v x y :
  square n K -> a < n -> b < n ->
  (madd K a b v !!! x) !!! y =
    if decide (x = a /\ y = b) then nadd ((K !!! x) !!! y) v else (K !!! x) !!! y.
Proof.
  intros HK Ha Hb. unfold madd.
  rewrite list_lookup_total_alter. destruct HK as [Hl Hr].
  destruct (decide (a = x)) as [->|Hax].
  - rewrite decide_True by (split; [done | lia]).
    rewrite list_lookup_total_alter.
    assert (length (K !!! x) = n) as Hx by (apply square_row; [by split | done]).
    destruct (decide (b = y)) as [->|Hby].
    + rewrite decide_True by (split; [done | lia]). by rewrite decide_True.
    + rewrite decide_False by tauto. rewrite decide_False; [done | intros [_ ->]; done].
  - rewrite decide_False by tauto. rewrite decide_False; [done | intros [-> _]; done].
Qed.

Lemma iadd2_Ok n (K : list (list A)) i j v K' :
  square n K -> np.iadd2 K i j v = Ok K' ->
  exists a b, np.index n i = Ok a /\ np.index n j = Ok b /\ K' = madd K a b v.
Proof.
  intros HK. unfold np.iadd2. destruct HK as [Hl Hr]. rewrite Hl.
  destruct (np.index n i) as [a|] eqn:Hi; [|done]. cbn.
  assert (length (K !!! 0%nat) = n) as ->.
  { apply index_Ok in Hi. apply square_row; [by split | lia]. }
  destruct (np.index n j) as [b|] eqn:Hj; [|done]. cbn.
  intros [= <-]. eauto.
Qed.

Lemma iadd2_in_range n (K : list (list A)) i j v a b :
  square n K -> np.index n i = Ok a -> np.index n j = Ok b ->
  np.iadd2 K i j v = Ok (madd K a b v).
Proof.
  intros HK Hi Hj. unfold np.iadd2. destruct HK as [Hl Hr]. rewrite Hl, Hi. cbn.
  assert (length (K !!! 0%nat) = n) as ->.
  { apply index_Ok in Hi. apply square_row; [by split | lia]. }
  by rewrite Hj.
Qed.

Lemma iadd2_Raise n (K : list (list A)) i j v e :
  square n K -> np.iadd2 K i j v = Raise e ->
  e = IndexError /\ (np.index n i = Raise IndexError \/ np.index n j = Raise IndexError).
Proof.
  intros HK. unfold np.iadd2. destruct HK as [Hl Hr]. rewrite Hl.
  destruct (np.index n i) as [a|e1] eqn:Hi; cbn.
  - assert (length (K !!! 0%nat) = n) as ->.
    { apply index_Ok in Hi. apply square_row; [by split | lia]. }
    destruct (np.index n j) as [b|e2] eqn:Hj; cbn; [done|].
    intros [= <-]. apply index_Raise in Hj as Hj'. destruct Hj' as [-> _]. auto.
  - intros [= <-]. apply index_Raise in Hi as Hi'. destruct Hi' as [-> _]. auto.
Qed.

Lemma iadd2_out_l n (K : list (list A)) i j v :
  square n K -> np.index n i = Raise IndexError ->
  np.iadd2 K i j v = Raise IndexError.
Proof.
  intros [Hl Hr] Hi. unfold np.iadd2. rewrite Hl, Hi. done.
Qed.

Lemma iadd2_out_r n (K : list (list A)) i j v a :
  square n K -> np.index n i = Ok a -> np.index n j = Raise IndexError ->
  np.iadd2 K i j v = Raise IndexError.
Proof.
  intros HK Hi Hj. unfold np.iadd2. destruct HK as [Hl Hr]. rewrite Hl, Hi. cbn.
  assert (length (K !!! 0%nat) = n) as ->.
  { apply index_Ok in Hi. apply square_row; [by split | lia]. }
  by rewrite Hj.
Qed.

(** [add_to_global] either stamps the element at its two normalised DOF
    indices, or raises [IndexError] because one of them is out of range. *)
Lemma add_to_global_spec n h (e : Elem.t A) (K : list (list A)) :
  square n K ->
  let '(ii, jj) := SpringElement.connectivity h e in
  match np.index n ii, np.index n jj with
  | Ok a, Ok b => SpringElement.add_to_global h e K = Ok (stamp K a b (Elem.k e))
  | _, _ => SpringElement.add_to_global h e K = Raise IndexError
  end.
Proof.
  intros HK. unfold SpringElement.add_to_global.
  destruct (SpringElement.connectivity h e) as [ii jj].
  destruct (np.index n ii) as [a|e1] eqn:Hi.
  - destruct (np.index n jj) as [b|e2] eqn:Hj.
    + cbn. rewrite (iadd2_in_range n K ii ii _ a a) by done. cbn.
      rewrite (iadd2_in_range n _ ii jj _ a b) by (by try apply square_madd). cbn.
      rewrite (iadd2_in_range n _ jj ii _ b a) by (by repeat apply square_madd). cbn.
      rewrite (iadd2_in_range n _ jj jj _ b b) by (by repeat apply square_madd).
      done.
    + apply index_Raise in Hj as Hj'. destruct Hj' as [-> _].
      cbn. rewrite (iadd2_in_range n K ii ii _ a a) by done. cbn.
      rewrite (iadd2_out_r n _ ii jj _ a) by (by try apply square_madd). done.
  - apply index_Raise in Hi as Hi'. destruct Hi' as [-> _].
    cbn. rewrite (iadd2_out_l n K ii ii) by done. done.
Qed.

End Scatter.

(** ** Assembly as a fold of stamps *)

Section Assembly.
Context {A : Type} `{Num A}.

Lemma resolve_Raise n h r e : resolve n h r = Raise e -> e = IndexError.
Proof.
  unfold resolve. destruct (SpringElement.connectivity h (elem_at h r)) as [ii jj].
  destruct (np.index n ii) as [a|e1] eqn:Hi; cbn.
  - destruct (np.index n jj) as [b|e2] eqn:Hj; cbn; [done|].
    intros [= <-]. by apply index_Raise in Hj as [-> _].
  - intros [= <-]. by apply index_Raise in Hi as [-> _].
Qed.

Lemma resolve_in_range n h r t : resolve n h r = Ok t -> in_range n t.
Proof.
  unfold resolve. destruct (SpringElement.connectivity h (elem_at h r)) as [ii jj].
  destruct (np.index n ii) as [a|e1] eqn:Hi; cbn; [|done].
  destruct (np.index n jj) as [b|e2] eqn:Hj; cbn; [|done].
  intros [= <-]. split; cbn; by eapply index_Ok.
Qed.

Lemma resolve_all_Raise n h es e : resolve_all n h es = Raise e -> e = IndexError.
Proof.
  induction es as [|r es IH]; cbn; [done|].
  destruct (resolve n h r) as [t|e1] eqn:Hr; cbn.
  - destruct (resolve_all n h es) as [ts|e2]; cbn; [done|].
    intros [= <-]. by apply IH.
  - intros [= <-]. by eapply resolve_Raise.
Qed.

Lemma resolve_all_in_range n h es ts :
  resolve_all n h es = Ok ts -> Forall (in_range n) ts.
Proof.
  revert ts. induction es as [|r es IH]; cbn; intros ts.
  - intros [= <-]. constructor.
  - destruct (resolve n h r) as [t|e1] eqn:Hr; cbn; [|done].
    destruct (resolve_all n h es) as [ts'|e2]; cbn; [|done].
    intros [= <-]. constructor; [by eapply resolve_in_range | by apply IH].
Qed.

Lemma square_stamps n (K : list (list A)) ts :
  square n K -> square n (foldl stamp3 K ts).
Proof.
  revert K. induction ts as [|t ts IH]; intros K HK; cbn; [done|].
  apply IH. by apply square_stamp.
Qed.

Lemma add_to_global_resolve n h r (K : list (list A)) :
  square n K ->
  SpringElement.add_to_global h (elem_at h r) K =
  (t ← resolve n h r; Ok (stamp3 K t)).
Proof.
  intros HK. pose proof (add_to_global_spec n h (elem_at h r) K HK) as Hs.
  unfold resolve.
  destruct (SpringElement.connectivity h (elem_at h r)) as [ii jj].
  destruct (np.index n ii) as [a|e1] eqn:Hi.
  - destruct (np.index n jj) as [b|e2] eqn:Hj; rewrite Hs; cbn; [done|].
    by apply index_Raise in Hj as [-> _].
  - rewrite Hs. cbn. by apply index_Raise in Hi as [-> _].
Qed.

(** The assembly loop computes the fold of the stamps of its elements, or
    raises [IndexError] when some element has a DOF index out of range. *)
Lemma scatter_resolve n h es (K : list (list A)) :
  square n K ->
  SpringFEASolver.scatter h es K =
  (ts ← resolve_all n h es; Ok (foldl stamp3 K ts)).
Proof.
  revert K. induction es as [|r es IH]; intros K HK;
    cbn [SpringFEASolver.scatter resolve_all]; [done|].
  rewrite (add_to_global_resolve n) by done.
  destruct (resolve n h r) as [t|e1] eqn:Hr; cbn.
  - rewrite IH by (by apply square_stamp).
    destruct (resolve_all n h es) as [ts|e2] eqn:Hrs; cbn; [done|].
    done.
  - done.
Qed.

(** *** Symmetry *)

Lemma entry_zeros2 r c x y : (np.zeros2 (A:=A) r c !!! x) !!! y = n0.
Proof.
  unfold np.zeros2, np.zeros. rewrite !list_lookup_total_alt.
  destruct (replicate r (replicate c n0) !! x) as [row|] eqn:Hx; cbn.
  - apply lookup_replicate in Hx as [-> _].
    destruct (replicate c n0 !! y) as [v|] eqn:Hy; cbn; [|done].
    by apply lookup_replicate in Hy as [-> _].
  - done.
Qed.

Lemma entry_stamp n (K : list (list A)) a b k x y :
  square n K -> a < n -> b < n ->
  (stamp K a b k !!! x) !!! y =
    let v0 := (K !!! x) !!! y in
    let v1 := if decide (x = a /\ y = a) then nadd v0 k else v0 in
    let v2 := if decide (x = a /\ y = b) then nadd v1 (nopp k) else v1 in
    let v3 := if decide (x = b /\ y = a) then nadd v2 (nopp k) else v2 in
    if decide (x = b /\ y = b) then nadd v3 k else v3.
Proof.
  intros HK Ha Hb. unfold stamp.
  rewrite (entry_madd n) by (by repeat apply square_madd).
  rewrite (entry_madd n) by (by repeat apply square_madd).
  rewrite (entry_madd n) by (by repeat apply square_madd).
  rewrite (entry_madd n) by done.
  done.
Qed.

Lemma symmetric_stamp n (K : list (list A)) a b k :
  square n K -> a < n -> b < n -> symmetric K -> symmetric (stamp K a b k).
Proof.
  intros HK Ha Hb Hsym x y.
  rewrite !(entry_stamp n) by done. cbn zeta. rewrite (Hsym y x).
  repeat case_decide; try done; exfalso; intuition congruence.
Qed.

Lemma symmetric_stamps n (K : list (list A)) ts :
  square n K -> Forall (in_range n) ts -> symmetric K ->
  symmetric (foldl stamp3 K ts).
Proof.
  revert K. induction ts as [|t ts IH]; intros K HK Hts Hsym; cbn; [done|].
  apply Forall_cons in Hts as [[Ht1 Ht2] Hts].
  apply IH; [by apply square_stamp | done |].
  by apply (symmetric_stamp n).
Qed.

Lemma scatter_symmetric n h es (K : list (list A)) :
  SpringFEASolver.scatter h es (np.zeros2 n n) = Ok K -> symmetric K.
Proof.
  rewrite (scatter_resolve n) by apply square_zeros2.
  destruct (resolve_all n h es) as [ts|e] eqn:Hts; cbn; [|done].
  intros [= <-]. apply (symmetric_stamps n).
  - apply square_zeros2.
  - by eapply resolve_all_in_range.
  - intros x y. by rewrite !entry_zeros2.
Qed.

End Assembly.

(** ** Loops of field assignments

    Both write-back loops of [solve] run over a list of objects and
    overwrite one field of each.  On the store this is a sequence of
    in-place updates [(r, f)]: apply the setter [f] to the object at [r]. *)

Section Assign.
Context {X : Type}.

Lemma lookup_assign_all (st : list X) asg x :
  assign_all st asg !! x = effect asg x <$> st !! x.
Proof.
  revert st. induction asg as [|[r f] asg IH]; intros st; cbn.
  - by destruct (st !! x).
  - unfold assign_all in IH. rewrite IH, list_lookup_alter.
    case_decide as Hrx; cbn in *.
    + subst r. by destruct (st !! x).
    + by destruct (st !! x).
Qed.

Lemma length_assign_all (st : list X) asg : length (assign_all st asg) = length st.
Proof.
  revert st. induction asg as [|a asg IH]; intros st; cbn; [done|].
  unfold assign_all in IH. by rewrite IH, length_alter.
Qed.

Lemma assign_all_app (st : list X) asg1 asg2 :
  assign_all st (asg1 ++ asg2) = assign_all (assign_all st asg1) asg2.
Proof. unfold assign_all. by rewrite foldl_app. Qed.

(** Setters of one field absorb each other: the last one wins. *)
Variable setter : (X -> X) -> Prop.
Hypothesis setter_absorb : forall f g, setter f -> setter g -> forall v, f (g v) = f v.

Lemma effect_cases (asg : list (nat * (X -> X))) x :
  Forall (fun a => setter a.2) asg ->
  (forall v, effect asg x v = v) \/
  (exists f, setter f /\ forall v, effect asg x v = f v).
Proof.
  induction asg as [|[r f] asg IH]; intros Hs; cbn; [by left|].
  apply Forall_cons in Hs as [Hf Hs]. cbn in Hf.
  destruct (IH Hs) as [Hid | (g & Hg & Heq)].
  - case_decide; [|by left]. right. exists f. split; [done|]. intros v. by rewrite Hid.
  - right. exists g. split; [done|]. intros v. rewrite Heq.
    case_decide; [by apply setter_absorb | done].
Qed.

(** Running the same assignments a second time changes nothing. *)
Lemma assign_all_twice (st : list X) asg :
  Forall (fun a => setter a.2) asg ->
  assign_all (assign_all st asg) asg = assign_all st asg.
Proof.
  intros Hs. apply list_eq. intros x.
  rewrite !lookup_assign_all.
  destruct (st !! x) as [v|]; cbn; [|done]. f_equal.
  destruct (effect_cases asg x Hs) as [Hid | (g & Hg & Heq)].
  - by rewrite !Hid.
  - rewrite !Heq. by apply setter_absorb.
Qed.

End Assign.

(** ** The frame of [solve]: only [u] and [axial] are written *)

Section Frame.
Context {A : Type} `{Num A} `{!LinalgSolve A}.

Lemma same_inputs_refl h : same_inputs h h.
Proof. by repeat split. Qed.

Lemma same_inputs_trans h1 h2 h3 :
  same_inputs h1 h2 -> same_inputs h2 h3 -> same_inputs h1 h3.
Proof.
  intros (Hn & He & Hni & Hei) (Hn' & He' & Hni' & Hei').
  repeat split; intros; congruence.
Qed.

Lemma same_inputs_sym h1 h2 : same_inputs h1 h2 -> same_inputs h2 h1.
Proof. intros (Hn & He & Hni & Hei). repeat split; intros; congruence. Qed.

Lemma same_inputs_update_node h r v :
  same_inputs h (update_node h r (fun nd => Node.set_u nd v)).
Proof.
  repeat split; cbn; try done.
  - apply length_alter.
  - intros x. unfold node_at, update_node. cbn.
    rewrite list_lookup_total_alter. by case_decide as Hd; [destruct Hd as [-> _]|].
Qed.

Lemma same_inputs_update_elem h r v :
  same_inputs h (update_elem h r (fun e => Elem.set_axial e v)).
Proof.
  repeat split; cbn; try done.
  - apply length_alter.
  - intros x. unfold elem_at, update_elem. cbn.
    rewrite list_lookup_total_alter. by case_decide as Hd; [destruct Hd as [-> _]|].
Qed.

Lemma same_inputs_store_u u x h :
  same_inputs h (SpringFEASolver.store_u u x h).1.
Proof.
  unfold SpringFEASolver.store_u. destruct (np.getitem u _); cbn.
  - apply same_inputs_update_node.
  - apply same_inputs_refl.
Qed.

Lemma same_inputs_store_axial u e h :
  same_inputs h (SpringFEASolver.store_axial u e h).1.
Proof.
  unfold SpringFEASolver.store_axial. destruct (SpringElement.axial_force _ _ _); cbn.
  - apply same_inputs_update_elem.
  - apply same_inputs_refl.
Qed.

Lemma same_inputs_for_each {X : Type} (body : X -> Heap A -> Heap A * result unit) xs h :
  (forall x h, same_inputs h (body x h).1) ->
  same_inputs h (for_each body xs h).1.
Proof.
  intros Hbody. revert h. induction xs as [|x xs IH]; intros h; cbn.
  - apply same_inputs_refl.
  - specialize (Hbody x h). destruct (body x h) as [h1 [[]|e]]; cbn in *; [|done].
    eapply same_inputs_trans; [done | apply IH].
Qed.

Lemma same_inputs_write_back s u h :
  same_inputs h (SpringFEASolver.write_back s u h).1.
Proof.
  unfold SpringFEASolver.write_back.
  pose proof (same_inputs_for_each (SpringFEASolver.store_u u)
                (imap pair (SpringFEASolver.nodes s)) h (same_inputs_store_u u)) as H1.
  destruct (for_each (SpringFEASolver.store_u u) _ h) as [h1 [[]|e]]; cbn in *; [|done].
  eapply same_inputs_trans; [done|].
  apply same_inputs_for_each, same_inputs_store_axial.
Qed.

Lemma same_inputs_solve_assembled s h :
  same_inputs h (SpringFEASolver.solve_assembled s h).1.
Proof.
  unfold SpringFEASolver.solve_assembled.
  repeat match goal with
  | |- context [SpringFEASolver.write_back ?s ?u ?h] =>
      let Hw := fresh "Hw" in
      pose proof (same_inputs_write_back s u h) as Hw;
      destruct (SpringFEASolver.write_back s u h) as [? [[]|?]]
  | |- context [decide ?P] => destruct (decide P)
  | |- context [linalg_solve ?K ?b] => destruct (linalg_solve K b)
  end; cbn in *; try done; apply same_inputs_refl.
Qed.

(** [assemble] and [solve] keep the solver's node and element lists. *)
Lemma assemble_lists s h :
  SpringFEASolver.nodes (SpringFEASolver.assemble s h).1 = SpringFEASolver.nodes s /\
  SpringFEASolver.elements (SpringFEASolver.assemble s h).1 = SpringFEASolver.elements s /\
  SpringFEASolver.n (SpringFEASolver.assemble s h).1 = SpringFEASolver.n s.
Proof.
  unfold SpringFEASolver.assemble. by destruct (SpringFEASolver.scatter _ _ _).
Qed.

Lemma solve_frame s h :
  same_inputs h (SpringFEASolver.solve s h).1.2 /\
  SpringFEASolver.nodes (SpringFEASolver.solve s h).1.1 = SpringFEASolver.nodes s /\
  SpringFEASolver.elements (SpringFEASolver.solve s h).1.1 = SpringFEASolver.elements s.
Proof.
  unfold SpringFEASolver.solve.
  destruct (SpringFEASolver.still_zero s).
  - pose proof (assemble_lists s h) as (Hn & He & _).
    destruct (SpringFEASolver.assemble s h) as [s' [K|e]]; cbn in *.
    + pose proof (same_inputs_solve_assembled s' h) as Hs.
      destruct (SpringFEASolver.solve_assembled s' h) as [h' r]. by cbn in *.
    + split; [apply same_inputs_refl | done].
  - pose proof (same_inputs_solve_assembled s h) as Hs.
    destruct (SpringFEASolver.solve_assembled s h) as [h' r]. by cbn in *.
Qed.

End Frame.

(** ** What the solver reads from the store *)

Section Reads.
Context {A : Type} `{Num A} `{!LinalgSolve A}.

Lemma same_inputs_geometry h h' : same_inputs h h' -> same_geometry h h'.
Proof.
  intros (_ & _ & Hn & He). split; [|done].
  intros r. specialize (Hn r). unfold Node.inputs in Hn. congruence.
Qed.

Lemma connectivity_same h h' r :
  same_geometry h h' ->
  SpringElement.connectivity h' (elem_at h' r) = SpringElement.connectivity h (elem_at h r).
Proof.
  intros [Hd He]. unfold SpringElement.connectivity.
  specialize (He r). unfold Elem.inputs in He.
  injection He as Hi Hj Hk. by rewrite Hi, Hj, !Hd.
Qed.

Lemma elem_k_same h h' r :
  same_geometry h h' -> Elem.k (elem_at h' r) = Elem.k (elem_at h r).
Proof.
  intros [_ He]. specialize (He r). unfold Elem.inputs in He. congruence.
Qed.

Lemma axial_force_same h h' r u :
  same_geometry h h' ->
  SpringElement.axial_force h' (elem_at h' r) u =
  SpringElement.axial_force h (elem_at h r) u.
Proof.
  intros Hg. unfold SpringElement.axial_force, SpringElement.elongation.
  by rewrite (connectivity_same h h'), (elem_k_same h h').
Qed.

Lemma add_to_global_same h h' r (K : list (list A)) :
  same_geometry h h' ->
  SpringElement.add_to_global h' (elem_at h' r) K =
  SpringElement.add_to_global h (elem_at h r) K.
Proof.
  intros Hg. unfold SpringElement.add_to_global, SpringElement.ke.
  by rewrite (connectivity_same h h'), (elem_k_same h h').
Qed.

Lemma scatter_same h h' es (K : list (list A)) :
  same_geometry h h' ->
  SpringFEASolver.scatter h' es K = SpringFEASolver.scatter h es K.
Proof.
  intros Hg. revert K. induction es as [|r es IH]; intros K; [done|].
  cbn [SpringFEASolver.scatter]. rewrite (add_to_global_same h h') by done.
  destruct (SpringElement.add_to_global h (elem_at h r) K); cbn; [apply IH | done].
Qed.

Lemma assemble_same s h h' :
  same_inputs h h' -> SpringFEASolver.assemble s h' = SpringFEASolver.assemble s h.
Proof.
  intros Hs. unfold SpringFEASolver.assemble.
  rewrite (scatter_same h h') by (by apply same_inputs_geometry).
  destruct (SpringFEASolver.scatter h _ _) as [K|e]; [|done].
  destruct Hs as (_ & _ & Hn & _).
  assert (forall r, Node.force (node_at h' r) = Node.force (node_at h r) /\
                    Node.fixed (node_at h' r) = Node.fixed (node_at h r) /\
                    Node.prescribed (node_at h' r) = Node.prescribed (node_at h r) /\
                    Node.u_prescribed (node_at h' r) = Node.u_prescribed (node_at h r)) as Hf.
  { intros r. specialize (Hn r). unfold Node.inputs in Hn.
    injection Hn as _ Hfo Hfi Hpr Hup _. done. }
  f_equal. f_equal.
  - apply list_fmap_ext. intros i r _. apply Hf.
  - apply list_fmap_ext. intros i r _. apply Hf.
  - apply list_fmap_ext. intros i r _.
    destruct (Hf r) as (_ & _ & -> & ->). done.
Qed.

(** Assembling twice from the same store gives the same solver. *)
Lemma assemble_idem s h s' K :
  SpringFEASolver.assemble s h = (s', Ok K) ->
  SpringFEASolver.assemble s' h = (s', Ok K).
Proof.
  unfold SpringFEASolver.assemble.
  destruct (SpringFEASolver.scatter h (SpringFEASolver.elements s) _) as [K1|e] eqn:Hsc;
    [|done].
  intros [= <- <-]. cbn -[SpringFEASolver.scatter np.zeros2]. by rewrite Hsc.
Qed.

End Reads.

(** ** The write-back loops as assignment sequences *)

Section WriteBack.
Context {A : Type} `{Num A} `{!LinalgSolve A}.

Lemma getitem_nat (u : list A) (i : nat) :
  np.getitem u (Z.of_nat i) =
  if decide (i < length u) then Ok (u !!! i) else Raise IndexError.
Proof.
  unfold np.getitem, np.index.
  case_decide; repeat case_decide; try lia; cbn; [|done].
  by rewrite Nat2Z.id.
Qed.

Lemma set_u_absorb (f g : Node.t A -> Node.t A) : is_set_u f -> is_set_u g -> forall v, f (g v) = f v.
Proof. by intros [a ->] [b ->] v. Qed.

Lemma set_axial_absorb (f g : Elem.t A -> Elem.t A) :
  is_set_axial f -> is_set_axial g -> forall v, f (g v) = f v.
Proof. by intros [a ->] [b ->] v. Qed.

Lemma node_asg_setters u xs : Forall (fun a => is_set_u a.2) (node_asg u xs).
Proof. apply Forall_fmap, Forall_forall. intros x _. cbn. by eexists. Qed.

Lemma elem_asg_setters h u es : Forall (fun a => is_set_axial a.2) (elem_asg h u es).
Proof. apply Forall_fmap, Forall_forall. intros x _. cbn. by eexists. Qed.

Lemma node_loop_Ok u xs h h' :
  for_each (SpringFEASolver.store_u u) xs h = (h', Ok tt) ->
  Forall (fun x => x.1 < length u) xs /\
  h' = mkHeap (assign_all (h_nodes h) (node_asg u xs)) (h_elems h).
Proof.
  revert h. induction xs as [|x xs IH]; intros h; cbn.
  - intros [= <-]. split; [constructor | by destruct h].
  - unfold SpringFEASolver.store_u at 1. rewrite getitem_nat.
    case_decide as Hx; [|done]. intros Hrun.
    apply IH in Hrun as [Hxs ->]. split; [by constructor | done].
Qed.

Lemma node_loop_run u xs h :
  Forall (fun x => x.1 < length u) xs ->
  for_each (SpringFEASolver.store_u u) xs h =
  (mkHeap (assign_all (h_nodes h) (node_asg u xs)) (h_elems h), Ok tt).
Proof.
  revert h. induction xs as [|x xs IH]; intros h Hxs; cbn.
  - by destruct h.
  - apply Forall_cons in Hxs as [Hx Hxs].
    unfold SpringFEASolver.store_u at 1. rewrite getitem_nat, decide_True by done.
    by rewrite IH.
Qed.

Lemma same_geometry_update_elem h r f :
  (forall e, Elem.inputs (f e) = Elem.inputs e) ->
  same_geometry h (update_elem h r f).
Proof.
  intros Hf. split; [done|]. intros x. unfold elem_at, update_elem. cbn.
  rewrite list_lookup_total_alter. by case_decide as Hd; [destruct Hd as [-> _]|].
Qed.

Lemma axial_val_same h h' u e :
  same_geometry h h' -> axial_val h' u e = axial_val h u e.
Proof. intros Hg. unfold axial_val. by rewrite (axial_force_same h h'). Qed.

Lemma elem_asg_same h h' u es :
  same_geometry h h' -> elem_asg h' u es = elem_asg h u es.
Proof.
  intros Hg. unfold elem_asg. apply list_fmap_ext. intros i e _.
  by rewrite (axial_val_same h h').
Qed.

Lemma axial_ok_same h h' u e : same_geometry h h' -> axial_ok h u e -> axial_ok h' u e.
Proof. intros Hg [v Hv]. exists v. by rewrite (axial_force_same h h'). Qed.

Lemma elem_loop_Ok u es h h' :
  for_each (SpringFEASolver.store_axial u) es h = (h', Ok tt) ->
  Forall (axial_ok h u) es /\
  h' = mkHeap (h_nodes h) (assign_all (h_elems h) (elem_asg h u es)).
Proof.
  revert h. induction es as [|e es IH]; intros h; cbn [for_each].
  - intros [= <-]. split; [constructor | by destruct h].
  - unfold SpringFEASolver.store_axial at 1.
    destruct (SpringElement.axial_force h (elem_at h e) u) as [v|err] eqn:Hv; [|done].
    intros Hrun. apply IH in Hrun as [Hes ->].
    pose proof (same_geometry_update_elem h e (fun x => Elem.set_axial x v)
                  (fun _ => eq_refl)) as Hg.
    split.
    + constructor; [by exists v|].
      eapply Forall_impl; [exact Hes|]. intros x. apply axial_ok_same.
      split; intros r; symmetry; apply Hg.
    + rewrite (elem_asg_same h _) by done. cbn.
      assert (axial_val h u e = v) as -> by (unfold axial_val; by rewrite Hv).
      done.
Qed.

Lemma elem_loop_run u es h :
  Forall (axial_ok h u) es ->
  for_each (SpringFEASolver.store_axial u) es h =
  (mkHeap (h_nodes h) (assign_all (h_elems h) (elem_asg h u es)), Ok tt).
Proof.
  revert h. induction es as [|e es IH]; intros h Hes; cbn [for_each].
  - by destruct h.
  - apply Forall_cons in Hes as [[v Hv] Hes].
    unfold SpringFEASolver.store_axial at 1. rewrite Hv.
    pose proof (same_geometry_update_elem h e (fun x => Elem.set_axial x v)
                  (fun _ => eq_refl)) as Hg.
    rewrite IH.
    + rewrite (elem_asg_same h _) by done. cbn.
      assert (axial_val h u e = v) as -> by (unfold axial_val; by rewrite Hv).
      done.
    + eapply Forall_impl; [exact Hes|]. intros x. by apply axial_ok_same.
Qed.

(** Assignments of [axial] leave the element inputs alone. *)
Lemma same_geometry_assign_axial ns es asg :
  Forall (fun a => is_set_axial a.2) asg ->
  same_geometry (mkHeap ns es) (mkHeap ns (assign_all es asg)).
Proof.
  intros Hs. split; [done|]. intros r. unfold elem_at. cbn.
  rewrite !list_lookup_total_alt, lookup_assign_all.
  destruct (es !! r) as [e|]; cbn; [|done].
  clear -Hs. revert e. induction asg as [|[x f] asg IH]; intros e; cbn; [done|].
  apply Forall_cons in Hs as [[v Hf] Hs]. cbn in Hf. subst f.
  rewrite IH by done. by case_decide.
Qed.

(** Writing the same displacements back a second time changes nothing. *)
Lemma write_back_twice s u h h1 :
  SpringFEASolver.write_back s u h = (h1, Ok tt) ->
  SpringFEASolver.write_back s u h1 = (h1, Ok tt).
Proof.
  unfold SpringFEASolver.write_back.
  destruct (for_each (SpringFEASolver.store_u u) _ h) as [ha [[]|e]] eqn:Hn; [|done].
  apply node_loop_Ok in Hn as [Hxs ->]. intros He.
  apply elem_loop_Ok in He as [Hes ->]. cbn in *.
  set (ns := assign_all (h_nodes h) _) in *.
  set (ha := mkHeap ns (h_elems h)) in *.
  set (es := assign_all (h_elems h) _).
  assert (same_geometry ha (mkHeap ns es)) as Hg.
  { apply same_geometry_assign_axial, elem_asg_setters. }
  rewrite node_loop_run by done. cbn.
  assert (assign_all ns (node_asg u (imap pair (SpringFEASolver.nodes s))) = ns) as ->.
  { apply (assign_all_twice is_set_u set_u_absorb), node_asg_setters. }
  rewrite elem_loop_run.
  - cbn. rewrite (elem_asg_same ha _) by done.
    f_equal. f_equal.
    apply (assign_all_twice is_set_axial set_axial_absorb), elem_asg_setters.
  - eapply Forall_impl; [exact Hes|]. intros x. by apply axial_ok_same.
Qed.

End WriteBack.

(** ** Solving twice *)

Section Idempotence.
Context {A : Type} `{Num A} `{!LinalgSolve A}.

Lemma solve_assembled_twice s h h1 out :
  SpringFEASolver.solve_assembled s h = (h1, Ok out) ->
  SpringFEASolver.solve_assembled s h1 = (h1, Ok out).
Proof.
  unfold SpringFEASolver.solve_assembled.
  repeat match goal with
  | |- context [decide ?P] => destruct (decide P)
  | |- context [linalg_solve ?K ?b] => destruct (linalg_solve K b)
  end;
  try done;
  match goal with
  | |- context [SpringFEASolver.write_back ?s ?u h] =>
      destruct (SpringFEASolver.write_back s u h) as [h' [[]|?]] eqn:Hw; [|done];
      intros [= <- <-]; by rewrite (write_back_twice _ _ _ _ Hw)
  end.
Qed.

Lemma solve_assembled_frame s h h1 r :
  SpringFEASolver.solve_assembled s h = (h1, r) -> same_inputs h h1.
Proof.
  intros Hs. pose proof (same_inputs_solve_assembled s h) as Hf.
  by rewrite Hs in Hf.
Qed.

(** A second [solve] on the solver and store left by a successful first
    one returns the same result and leaves both as they are. *)
Lemma solve_twice s h s1 h1 out :
  SpringFEASolver.solve s h = (s1, h1, Ok out) ->
  SpringFEASolver.solve s1 h1 = (s1, h1, Ok out).
Proof.
  unfold SpringFEASolver.solve at 1.
  destruct (SpringFEASolver.still_zero s) eqn:Hz.
  - destruct (SpringFEASolver.assemble s h) as [s' [K|e]] eqn:Ha; [|done].
    destruct (SpringFEASolver.solve_assembled s' h) as [h' r] eqn:Hs.
    intros [= <- <- ->].
    pose proof (solve_assembled_frame _ _ _ _ Hs) as Hf.
    unfold SpringFEASolver.solve.
    destruct (SpringFEASolver.still_zero s').
    + rewrite (assemble_same s' h h') by done.
      rewrite (assemble_idem _ _ _ _ Ha).
      by rewrite (solve_assembled_twice _ _ _ _ Hs).
    + by rewrite (solve_assembled_twice _ _ _ _ Hs).
  - destruct (SpringFEASolver.solve_assembled s h) as [h' r] eqn:Hs.
    intros [= <- <- ->].
    unfold SpringFEASolver.solve. rewrite Hz.
    by rewrite (solve_assembled_twice _ _ _ _ Hs).
Qed.

End Idempotence.

(** ** A load on a constrained node *)

Section ConstrainedLoad.
Context {A : Type} `{Num A} `{!LinalgSolve A}.

Lemma with_F_same (s : SpringFEASolver.t A) : with_F s (SpringFEASolver.F_full s) = s.
Proof. by destruct s. Qed.

Lemma node_at_set_load h r0 f r :
  node_at (set_load h r0 f) r =
  if decide (r0 = r /\ r0 < length (h_nodes h))
  then Node.set_force (node_at h r) f else node_at h r.
Proof.
  unfold node_at, set_load, update_node. cbn.
  rewrite list_lookup_total_alter. by case_decide as Hd; [destruct Hd as [-> _]|].
Qed.

Lemma same_geometry_set_load h r0 f : same_geometry h (set_load h r0 f).
Proof.
  split; [|done]. intros r. rewrite node_at_set_load. by case_decide.
Qed.

Lemma for_each_commute {X : Type} (G : Heap A -> Heap A)
    (body : X -> Heap A -> Heap A * result unit) xs h :
  (forall x h, body x (G h) = (G (body x h).1, (body x h).2)) ->
  for_each body xs (G h) = (G (for_each body xs h).1, (for_each body xs h).2).
Proof.
  intros Hc. revert h. induction xs as [|x xs IH]; intros h; cbn; [done|].
  rewrite Hc. destruct (body x h) as [h1 [[]|e]]; cbn; [apply IH | done].
Qed.

Lemma store_u_set_load u x h r0 f :
  SpringFEASolver.store_u u x (set_load h r0 f) =
  (set_load (SpringFEASolver.store_u u x h).1 r0 f, (SpringFEASolver.store_u u x h).2).
Proof.
  unfold SpringFEASolver.store_u. destruct (np.getitem u _) as [v|e]; cbn; [|done].
  f_equal. unfold set_load, update_node. cbn. f_equal.
  rewrite list_alter_alter. case_decide.
  - subst. rewrite list_alter_alter_eq. by apply list_alter_ext.
  - done.
Qed.

Lemma store_axial_set_load u e h r0 f :
  SpringFEASolver.store_axial u e (set_load h r0 f) =
  (set_load (SpringFEASolver.store_axial u e h).1 r0 f,
   (SpringFEASolver.store_axial u e h).2).
Proof.
  unfold SpringFEASolver.store_axial.
  rewrite (axial_force_same h (set_load h r0 f)) by apply same_geometry_set_load.
  by destruct (SpringElement.axial_force h (elem_at h e) u).
Qed.

Lemma write_back_set_load s u h r0 f :
  SpringFEASolver.write_back s u (set_load h r0 f) =
  (set_load (SpringFEASolver.write_back s u h).1 r0 f,
   (SpringFEASolver.write_back s u h).2).
Proof.
  unfold SpringFEASolver.write_back.
  rewrite (for_each_commute (fun h => set_load h r0 f))
    by (intros; apply store_u_set_load).
  destruct (for_each (SpringFEASolver.store_u u) _ h) as [h1 [[]|e]]; cbn; [|done].
  rewrite (for_each_commute (fun h => set_load h r0 f))
    by (intros; apply store_axial_set_load).
  done.
Qed.

(** [solve] after the assembly test reads the stored loads at the free
    DOFs only, to form the right-hand side; the others enter the
    reactions alone. *)
Lemma solve_assembled_load s F2 h r0 f h1 u R fr fx :
  np.take F2 (np.where_ (negb <$> SpringFEASolver.fixed s)) =
  np.take (SpringFEASolver.F_full s) (np.where_ (negb <$> SpringFEASolver.fixed s)) ->
  SpringFEASolver.solve_assembled s h = (h1, Ok (u, R, fr, fx)) ->
  R = np.vsub (np.matvec (SpringFEASolver.K_full s) u) (SpringFEASolver.F_full s) /\
  SpringFEASolver.solve_assembled (with_F s F2) (set_load h r0 f) =
  (set_load h1 r0 f,
   Ok (u, np.vsub (np.matvec (SpringFEASolver.K_full s) u) F2, fr, fx)).
Proof.
  intros Htake. unfold SpringFEASolver.solve_assembled.
  cbn [with_F SpringFEASolver.fixed SpringFEASolver.n SpringFEASolver.u_known
       SpringFEASolver.K_full SpringFEASolver.F_full].
  rewrite Htake.
  change (SpringFEASolver.write_back (with_F s F2)) with (SpringFEASolver.write_back s).
  repeat match goal with
  | |- context [decide ?P] => destruct (decide P)
  | |- context [linalg_solve ?K ?b] => destruct (linalg_solve K b)
  end;
  try done;
  rewrite write_back_set_load;
  match goal with
  | |- context [SpringFEASolver.write_back s ?u h] =>
      destruct (SpringFEASolver.write_back s u h) as [h' [[]|?]]; [|done];
      by intros [= <- <- <- <- <-]
  end.
Qed.

End ConstrainedLoad.

Section ConstrainedLoadSolve.
Context {A : Type} `{Num A} `{!LinalgSolve A}.

Lemma elem_of_where_from o mask i :
  i ∈ np.where_from o mask <-> exists j, i = o + j /\ mask !! j = Some true.
Proof.
  revert o. induction mask as [|b mask IH]; intros o; cbn.
  - split; [by intros ?%elem_of_nil | by intros (j & _ & ?)].
  - rewrite elem_of_app, IH. split.
    + intros [Hb | (j & -> & Hj)].
      * destruct b; [|by apply elem_of_nil in Hb].
        apply list_elem_of_singleton in Hb as ->. exists 0. split; [lia | done].
      * exists (S j). split; [lia | done].
    + intros ([|j] & -> & Hj); cbn in Hj.
      * injection Hj as ->. left. rewrite Nat.add_0_r. by apply list_elem_of_singleton.
      * right. exists j. split; [lia | done].
Qed.

Lemma elem_of_where mask i : i ∈ np.where_ mask <-> mask !! i = Some true.
Proof.
  unfold np.where_. rewrite elem_of_where_from. split.
  - by intros (j & -> & Hj).
  - intros Hi. by exists i.
Qed.

Lemma take_ext (a b : list A) idx :
  (forall i, i ∈ idx -> a !!! i = b !!! i) -> np.take a idx = np.take b idx.
Proof.
  intros Hab. unfold np.take. apply list_fmap_ext. intros k i Hk.
  apply Hab. by eapply list_elem_of_lookup_2.
Qed.

Lemma assemble_set_load s h r0 f s' K :
  Node.fixed (node_at h r0) = true ->
  SpringFEASolver.assemble s h = (s', Ok K) ->
  exists F2,
    SpringFEASolver.assemble s (set_load h r0 f) = (with_F s' F2, Ok K) /\
    np.take F2 (np.where_ (negb <$> SpringFEASolver.fixed s')) =
    np.take (SpringFEASolver.F_full s') (np.where_ (negb <$> SpringFEASolver.fixed s')) /\
    (forall i, SpringFEASolver.nodes s !! i <> Some r0 ->
               F2 !! i = SpringFEASolver.F_full s' !! i).
Proof.
  intros Hfix. unfold SpringFEASolver.assemble.
  rewrite (scatter_same h (set_load h r0 f)) by apply same_geometry_set_load.
  destruct (SpringFEASolver.scatter h _ _) as [K1|e]; [|done].
  intros [= <- <-].
  exists ((fun nd => Node.force (node_at (set_load h r0 f) nd)) <$> SpringFEASolver.nodes s).
  assert (forall r, r <> r0 -> node_at (set_load h r0 f) r = node_at h r) as Hne.
  { intros r Hr. rewrite node_at_set_load. case_decide as Hd; [|done].
    by destruct Hd as [-> _]. }
  split; [|split].
  - unfold with_F. cbn. f_equal. f_equal.
    + apply list_fmap_ext. intros i r _. rewrite node_at_set_load. by case_decide.
    + apply list_fmap_ext. intros i r _. rewrite node_at_set_load. by case_decide.
  - cbn. apply take_ext. intros i Hi.
    apply elem_of_where in Hi. rewrite list_lookup_fmap in Hi.
    destruct (((fun nd => Node.fixed (node_at h nd)) <$> SpringFEASolver.nodes s) !! i)
      as [b|] eqn:Hb; [|done].
    cbn in Hi. injection Hi as Hi. apply negb_true_iff in Hi. subst b.
    rewrite list_lookup_fmap in Hb.
    destruct (SpringFEASolver.nodes s !! i) as [r|] eqn:Hr; [|done].
    cbn in Hb. injection Hb as Hb.
    rewrite !list_lookup_total_alt, !list_lookup_fmap, Hr. cbn.
    rewrite Hne; [done|]. intros ->. congruence.
  - intros i Hi. cbn. rewrite !list_lookup_fmap.
    destruct (SpringFEASolver.nodes s !! i) as [r|] eqn:Hr; [|done]. cbn.
    rewrite Hne; [done|]. intros ->. done.
Qed.

Lemma assemble_Ok_fields s h s' K :
  SpringFEASolver.assemble s h = (s', Ok K) ->
  SpringFEASolver.K_full s' = K /\
  SpringFEASolver.nodes s' = SpringFEASolver.nodes s /\
  SpringFEASolver.elements s' = SpringFEASolver.elements s.
Proof.
  unfold SpringFEASolver.assemble.
  destruct (SpringFEASolver.scatter h _ _) as [K1|e]; [|done].
  by intros [= <- <-].
Qed.

(** Changing the load of a constrained node changes neither the
    displacements nor any axial force, and the reactions only at the DOFs
    of that node. *)
Lemma solve_set_load s h r0 f s1 h1 u R fr fx :
  Node.fixed (node_at h r0) = true ->
  SpringFEASolver.solve s h = (s1, h1, Ok (u, R, fr, fx)) ->
  exists s1' R',
    SpringFEASolver.solve s (set_load h r0 f) =
      (s1', set_load h1 r0 f, Ok (u, R', fr, fx)) /\
    SpringFEASolver.element_forces s1' (set_load h1 r0 f) =
      SpringFEASolver.element_forces s1 h1 /\
    (forall i, SpringFEASolver.nodes s !! i <> Some r0 -> R' !! i = R !! i).
Proof.
  intros Hfix. unfold SpringFEASolver.solve.
  destruct (SpringFEASolver.still_zero s).
  - destruct (SpringFEASolver.assemble s h) as [s' [K|e]] eqn:Ha; [|done].
    destruct (SpringFEASolver.solve_assembled s' h) as [h' r] eqn:Hs.
    intros [= <- <- ->].
    destruct (assemble_set_load s h r0 f s' K Hfix Ha) as (F2 & -> & Htake & Hoff).
    destruct (solve_assembled_load s' F2 h r0 f _ _ _ _ _ Htake Hs) as [-> ->].
    eexists _, _. split; [done|]. split; [done|].
    intros i Hi. unfold np.vsub. rewrite !lookup_zip_with. by rewrite Hoff.
  - destruct (SpringFEASolver.solve_assembled s h) as [h' r] eqn:Hs.
    intros [= <- <- ->].
    destruct (solve_assembled_load s (SpringFEASolver.F_full s) h r0 f _ _ _ _ _
                eq_refl Hs) as [-> Hs'].
    rewrite with_F_same in Hs'. rewrite Hs'.
    eexists _, _. split; [done|]. split; done.
Qed.

End ConstrainedLoadSolve.

(** * Exact arithmetic

    From here on the numbers form a commutative ring. *)

Section Sums.
Context {A : Type} `{NumRing A}.
Add Ring num_ring_sums : num_ring.
#[local] Arguments np.seq_sum : simpl never.
#[local] Arguments np.dot : simpl never.

Lemma foldl_nadd_acc (a b : A) l : foldl nadd (nadd a b) l = nadd a (foldl nadd b l).
Proof.
  revert b. induction l as [|x l IH]; intros b; cbn; [done|].
  rewrite <- IH. f_equal. ring.
Qed.

Lemma foldl_nadd (a : A) l : foldl nadd a l = nadd a (np.seq_sum l).
Proof.
  unfold np.seq_sum. rewrite <- foldl_nadd_acc. f_equal. ring.
Qed.

Lemma sum_nil : np.seq_sum (A:=A) [] = n0.
Proof. done. Qed.

Lemma sum_cons (x : A) l : np.seq_sum (x :: l) = nadd x (np.seq_sum l).
Proof. unfold np.seq_sum at 1. cbn [foldl]. rewrite foldl_nadd. ring. Qed.

Lemma sum_app (l1 l2 : list A) : np.seq_sum (l1 ++ l2) = nadd (np.seq_sum l1) (np.seq_sum l2).
Proof.
  induction l1 as [|x l1 IH]; cbn; rewrite ?sum_cons, ?sum_nil, ?IH; ring.
Qed.

Lemma sum_zeros n : np.seq_sum (np.zeros (A:=A) n) = n0.
Proof.
  unfold np.zeros. induction n as [|n IH]; cbn; [done|]. rewrite sum_cons, IH. ring.
Qed.

Lemma sum_all_zero (l : list A) : Forall (fun x => x = n0) l -> np.seq_sum l = n0.
Proof.
  induction 1 as [|x l -> _ IH]; [done|]. rewrite sum_cons, IH. ring.
Qed.

Lemma sum_vsub (a b : list A) :
  length a = length b -> np.seq_sum (np.vsub a b) = nsub (np.seq_sum a) (np.seq_sum b).
Proof.
  revert b. induction a as [|x a IH]; intros [|y b] Hl; cbn in *; try done.
  - rewrite sum_nil. ring.
  - unfold np.vsub in *. rewrite !sum_cons, IH by lia. ring.
Qed.

Lemma dot_nil_l (u : list A) : np.dot [] u = n0.
Proof. done. Qed.

Lemma dot_nil_r (a : list A) : np.dot a [] = n0.
Proof. by destruct a. Qed.

Lemma dot_cons (x y : A) a u : np.dot (x :: a) (y :: u) = nadd (nmul x y) (np.dot a u).
Proof. unfold np.dot. cbn [zip_with]. by rewrite sum_cons. Qed.

Lemma dot_zeros_l n (u : list A) : np.dot (np.zeros n) u = n0.
Proof.
  unfold np.zeros. revert u. induction n as [|n IH]; intros [|y u]; cbn; try done.
  rewrite dot_cons, IH. ring.
Qed.

Lemma dot_zeros_r n (a : list A) : np.dot a (np.zeros n) = n0.
Proof.
  unfold np.zeros. revert a. induction n as [|n IH]; intros [|x a]; cbn; try done.
  rewrite dot_cons, IH. ring.
Qed.

Lemma dot_add_l (a b u : list A) :
  length a = length b ->
  np.dot (zip_with nadd a b) u = nadd (np.dot a u) (np.dot b u).
Proof.
  revert b u. induction a as [|x a IH]; intros [|y b] [|z u] Hl; cbn in *;
    rewrite ?dot_nil_l, ?dot_nil_r, ?dot_cons, ?IH by lia; try done; ring.
Qed.

End Sums.

(** ** The order of the elements *)

Section Permute.
Context {A : Type} `{NumRing A}.
Add Ring num_ring_permute : num_ring.

Lemma matrix_ext n (K K' : list (list A)) :
  square n K -> square n K' ->
  (forall x y, x < n -> y < n -> (K !!! x) !!! y = (K' !!! x) !!! y) ->
  K = K'.
Proof.
  intros [Hl Hr] [Hl' Hr'] Heq.
  apply (list_eq_same_length _ _ n); [done | done |].
  intros x r r' Hx Hr1 Hr2.
  assert (length r = n) as Hlr.
  { rewrite Forall_lookup in Hr. by eapply Hr. }
  assert (length r' = n) as Hlr'.
  { rewrite Forall_lookup in Hr'. by eapply Hr'. }
  apply (list_eq_same_length _ _ n); [done | done |].
  intros y v v' Hy Hv Hv'.
  specialize (Heq x y Hx Hy).
  rewrite (list_lookup_total_correct _ _ _ Hr1) in Heq.
  rewrite (list_lookup_total_correct _ _ _ Hr2) in Heq.
  rewrite (list_lookup_total_correct _ _ _ Hv) in Heq.
  by rewrite (list_lookup_total_correct _ _ _ Hv') in Heq.
Qed.

Lemma cadd_if (c : bool) (v k : A) :
  (if c then nadd v k else v) = nadd v (if c then k else n0).
Proof. destruct c; ring. Qed.

Lemma cadd_decide (P : Prop) `{!Decision P} (v k : A) :
  (if decide P then nadd v k else v) = nadd v (if decide P then k else n0).
Proof. case_decide; ring. Qed.

Lemma entry_stamp_contrib n (K : list (list A)) a b k x y :
  square n K -> a < n -> b < n ->
  (stamp K a b k !!! x) !!! y = nadd ((K !!! x) !!! y) (contrib a b k x y).
Proof.
  intros HK Ha Hb. rewrite (entry_stamp n) by done. cbn zeta.
  rewrite !cadd_decide. unfold contrib. ring.
Qed.

Lemma stamp3_comm n (K : list (list A)) t1 t2 :
  square n K -> in_range n t1 -> in_range n t2 ->
  stamp3 (stamp3 K t1) t2 = stamp3 (stamp3 K t2) t1.
Proof.
  intros HK [H1a H1b] [H2a H2b]. unfold stamp3.
  apply (matrix_ext n); [by repeat apply square_stamp..|].
  intros x y _ _.
  rewrite !(entry_stamp_contrib n) by (by repeat apply square_stamp). ring.
Qed.

Lemma stamps_perm n ts ts' :
  ts ≡ₚ ts' -> Forall (in_range n) ts ->
  forall K : list (list A), square n K -> foldl stamp3 K ts = foldl stamp3 K ts'.
Proof.
  induction 1 as [|t ts ts' Hp IH|t1 t2 ts|ts1 ts2 ts3 Hp1 IH1 Hp2 IH2];
    intros Hr K HK; cbn.
  - done.
  - apply Forall_cons in Hr as [Ht Hr]. apply IH; [done | by apply square_stamp].
  - apply Forall_cons in Hr as [Ht2 Hr]. apply Forall_cons in Hr as [Ht1 Hr].
    by rewrite (stamp3_comm n).
  - rewrite IH1 by done. apply IH2; [|done]. by rewrite <- Hp1.
Qed.

Lemma resolve_all_perm_Ok n h es es' ts :
  es ≡ₚ es' -> resolve_all n h es = Ok ts ->
  exists ts', resolve_all n h es' = Ok ts' /\ ts ≡ₚ ts'.
Proof.
  intros Hp. revert ts.
  induction Hp as [|e es es' Hp IH|e1 e2 es|es1 es2 es3 Hp1 IH1 Hp2 IH2];
    intros ts; cbn [resolve_all].
  - intros [= <-]. by exists [].
  - destruct (resolve n h e) as [t|?]; [|done]. cbn.
    destruct (resolve_all n h es) as [ts0|?] eqn:Hes; [|done]. cbn.
    intros [= <-]. destruct (IH _ eq_refl) as (ts' & -> & Hts).
    exists (t :: ts'). split; [done | by constructor].
  - destruct (resolve n h e1) as [t1|?]; destruct (resolve n h e2) as [t2|?];
      cbn; try done.
    destruct (resolve_all n h es) as [ts0|?]; cbn; [|done].
    intros [= <-]. eexists. split; [done | constructor].
  - intros H1. destruct (IH1 _ H1) as (ts2 & H2 & Hts12).
    destruct (IH2 _ H2) as (ts3 & H3 & Hts23).
    exists ts3. split; [done | by etrans].
Qed.

(** Assembling the elements in another order gives the same matrix, and
    fails if and only if the first order does. *)
Lemma scatter_perm n h es es' :
  es ≡ₚ es' ->
  SpringFEASolver.scatter h es (np.zeros2 n n) =
  SpringFEASolver.scatter h es' (np.zeros2 (A:=A) n n).
Proof.
  intros Hp. rewrite !(scatter_resolve n) by apply square_zeros2.
  destruct (resolve_all n h es) as [ts|e] eqn:Hes.
  - destruct (resolve_all_perm_Ok n h es es' ts Hp Hes) as (ts' & -> & Hts). cbn.
    f_equal. apply (stamps_perm n); [done | | apply square_zeros2].
    by eapply resolve_all_in_range.
  - apply resolve_all_Raise in Hes as Hi. subst e.
    destruct (resolve_all n h es') as [ts'|e'] eqn:Hes'.
    + symmetry in Hp.
      destruct (resolve_all_perm_Ok n h es' es ts' Hp Hes') as (ts & Hts & _).
      congruence.
    + by apply resolve_all_Raise in Hes' as ->.
Qed.

End Permute.

(** ** Column sums of the assembled matrix *)

Section Balance.
Context {A : Type} `{NumRing A}.
Add Ring num_ring_balance : num_ring.
#[local] Arguments np.seq_sum : simpl never.
#[local] Arguments np.dot : simpl never.

Lemma colsums_cons n r (K : list (list A)) :
  colsums n (r :: K) = zip_with nadd r (colsums n K).
Proof. done. Qed.

Lemma length_zeros n : length (np.zeros (A:=A) n) = n.
Proof. apply length_replicate. Qed.

Lemma length_colsums n (K : list (list A)) :
  Forall (fun r => length r = n) K -> length (colsums n K) = n.
Proof.
  induction 1 as [|r K Hr _ IH]; cbn; [apply length_zeros|].
  rewrite length_zip_with. fold (colsums n K). lia.
Qed.

Lemma sum_matvec n (K : list (list A)) u :
  Forall (fun r => length r = n) K ->
  np.seq_sum (np.matvec K u) = np.dot (colsums n K) u.
Proof.
  induction 1 as [|r K Hr HK IH]; cbn.
  - by rewrite sum_nil, dot_zeros_l.
  - fold (colsums n K). rewrite sum_cons, dot_add_l.
    + unfold np.matvec in IH. by rewrite IH.
    + by rewrite length_colsums.
Qed.

Lemma vadd_zeros n : zip_with nadd (np.zeros n) (np.zeros n) = np.zeros (A:=A) n.
Proof.
  unfold np.zeros. induction n as [|n IH]; cbn; [done|]. rewrite IH. f_equal. ring.
Qed.

Lemma colsums_zeros2 r n : colsums n (np.zeros2 r n) = np.zeros n.
Proof.
  unfold np.zeros2. induction r as [|r IH]; cbn; [done|].
  fold (colsums n (replicate r (np.zeros n))). by rewrite IH, vadd_zeros.
Qed.

Lemma vadd_alter_l (r cs : list A) b v :
  zip_with nadd (alter (fun x => nadd x v) b r) cs =
  alter (fun x => nadd x v) b (zip_with nadd r cs).
Proof.
  revert cs b. induction r as [|x r IH]; intros [|y cs] [|b]; cbn; try done.
  - f_equal. ring.
  - by rewrite IH.
Qed.

Lemma vadd_alter_r (r cs : list A) b v :
  zip_with nadd r (alter (fun x => nadd x v) b cs) =
  alter (fun x => nadd x v) b (zip_with nadd r cs).
Proof.
  revert cs b. induction r as [|x r IH]; intros [|y cs] [|b]; cbn; try done.
  - f_equal. ring.
  - by rewrite IH.
Qed.

Lemma colsums_madd n (K : list (list A)) a b v :
  a < length K ->
  colsums n (madd K a b v) = alter (fun x => nadd x v) b (colsums n K).
Proof.
  revert a. induction K as [|r K IH]; intros [|a] Ha; cbn in Ha; try lia.
  - change (madd (r :: K) 0 b v) with (alter (fun x => nadd x v) b r :: K).
    rewrite !colsums_cons. apply vadd_alter_l.
  - change (madd (r :: K) (S a) b v) with (r :: madd K a b v).
    rewrite !colsums_cons, IH by lia. apply vadd_alter_r.
Qed.

Lemma colsums_stamp n (K : list (list A)) a b k :
  square n K -> a < n -> b < n -> colsums n (stamp K a b k) = colsums n K.
Proof.
  intros HK Ha Hb. unfold stamp.
  assert (forall K' : list (list A), square n K' -> a < length K' /\ b < length K') as Hlen.
  { intros K' [-> _]. done. }
  rewrite colsums_madd by (apply Hlen; by repeat apply square_madd).
  rewrite colsums_madd by (apply Hlen; by repeat apply square_madd).
  rewrite colsums_madd by (apply Hlen; by repeat apply square_madd).
  rewrite colsums_madd by (by apply Hlen).
  apply list_eq. intros i. rewrite !list_lookup_alter.
  destruct (colsums n K !! i) as [c|] eqn:Hc; rewrite ?Hc;
    repeat case_decide; subst; rewrite ?Hc; cbn; try done; f_equal; ring.
Qed.

Lemma colsums_stamps n (K : list (list A)) ts :
  square n K -> Forall (in_range n) ts ->
  colsums n (foldl stamp3 K ts) = colsums n K.
Proof.
  revert K. induction ts as [|t ts IH]; intros K HK Hts; cbn [foldl]; [done|].
  apply Forall_cons in Hts as [[Ht1 Ht2] Hts].
  rewrite IH by (by try apply square_stamp). by apply colsums_stamp.
Qed.

(** Every column of an assembled matrix sums to zero. *)
Lemma scatter_colsums n h es (K : list (list A)) :
  SpringFEASolver.scatter h es (np.zeros2 n n) = Ok K ->
  colsums n K = np.zeros n.
Proof.
  rewrite (scatter_resolve n) by apply square_zeros2.
  destruct (resolve_all n h es) as [ts|e] eqn:Hts; cbn; [|done].
  intros [= <-]. rewrite colsums_stamps.
  - apply colsums_zeros2.
  - apply square_zeros2.
  - by eapply resolve_all_in_range.
Qed.

Lemma scatter_square n h es (K : list (list A)) :
  SpringFEASolver.scatter h es (np.zeros2 n n) = Ok K -> square n K.
Proof.
  rewrite (scatter_resolve n) by apply square_zeros2.
  destruct (resolve_all n h es) as [ts|e] eqn:Hts; cbn; [|done].
  intros [= <-]. apply square_stamps, square_zeros2.
Qed.

End Balance.

(** ** Index arrays: [np.where], fancy indexing and assignment *)

Section Placement.
Context {A : Type} `{Num A}.

Lemma put_cons (u : list A) i idx v vals :
  np.put u (i :: idx) (v :: vals) = np.put (<[i:=v]> u) idx vals.
Proof. done. Qed.

Lemma length_put (u : list A) idx vals : length (np.put u idx vals) = length u.
Proof.
  revert u vals. induction idx as [|i idx IH]; intros u [|v vals]; try done.
  by rewrite put_cons, IH, length_insert.
Qed.

Lemma lookup_put_notin (u : list A) idx vals i :
  i ∉ idx -> np.put u idx vals !! i = u !! i.
Proof.
  revert u vals. induction idx as [|j idx IH]; intros u [|v vals] Hi; try done.
  apply not_elem_of_cons in Hi as [Hij Hi].
  rewrite put_cons, IH by done. by apply list_lookup_insert_ne.
Qed.

Lemma lookup_put_in (u : list A) idx vals p i v :
  NoDup idx -> idx !! p = Some i -> vals !! p = Some v -> i < length u ->
  np.put u idx vals !! i = Some v.
Proof.
  revert u vals p. induction idx as [|j idx IH]; intros u [|w vals] [|p] Hnd Hi Hv Hlt;
    try done; apply NoDup_cons in Hnd as [Hj Hnd]; cbn in Hi, Hv.
  - injection Hi as ->. injection Hv as ->.
    rewrite put_cons, lookup_put_notin by done. by apply list_lookup_insert_eq.
  - rewrite put_cons. apply (IH _ _ p); try done. by rewrite length_insert.
Qed.

Lemma length_take (a : list A) idx : length (np.take a idx) = length idx.
Proof. apply length_fmap. Qed.

Lemma take_put_same (u : list A) idx vals :
  NoDup idx -> Forall (fun i => i < length u) idx -> length vals = length idx ->
  np.take (np.put u idx vals) idx = vals.
Proof.
  intros Hnd Hlt Hlen. apply list_eq. intros p. unfold np.take.
  rewrite list_lookup_fmap.
  destruct (idx !! p) as [i|] eqn:Hi; cbn.
  - destruct (lookup_lt_is_Some_2 vals p) as [v Hv].
    { rewrite Hlen. by eapply lookup_lt_Some. }
    rewrite Hv. f_equal. apply list_lookup_total_correct.
    apply (lookup_put_in _ _ _ p); try done.
    rewrite Forall_lookup in Hlt. by eapply Hlt.
  - symmetry. apply lookup_ge_None. rewrite Hlen. by apply lookup_ge_None.
Qed.






Lemma where_disjoint mask i :
  i ∈ np.where_ (negb <$> mask) -> i ∉ np.where_ mask.
Proof.
  rewrite !elem_of_where, list_lookup_fmap. intros Hn Hp. rewrite Hp in Hn. done.
Qed.

Lemma where_disjoint' mask i :
  i ∈ np.where_ mask -> i ∉ np.where_ (negb <$> mask).
Proof. intros Hp Hn. by eapply where_disjoint. Qed.


Lemma take_where_from (pre v : list A) mask :
  length v = length mask ->
  np.take (pre ++ v) (np.where_from (length pre) mask) = select mask v.
Proof.
  revert pre v. induction mask as [|b mask IH]; intros pre [|x v] Hl; try done.
  cbn [np.where_from select]. unfold np.take in *. rewrite fmap_app.
  assert ((fun i => (pre ++ x :: v) !!! i) <$> np.where_from (S (length pre)) mask
          = select mask v) as ->.
  { specialize (IH (pre ++ [x]) v). rewrite <- app_assoc in IH. cbn in IH.
    rewrite length_app in IH. cbn in IH. rewrite Nat.add_1_r in IH.
    apply IH. cbn in Hl. lia. }
  destruct b; cbn; [|done]. f_equal. by apply list_lookup_total_middle.
Qed.

Lemma take_where (v : list A) mask :
  length v = length mask -> np.take v (np.where_ mask) = select mask v.
Proof. intros Hl. by apply (take_where_from [] v mask). Qed.

Lemma select_zip_with {X Y Z : Type} (f : X -> Y -> Z) mask a b :
  select mask (zip_with f a b) = zip_with f (select mask a) (select mask b).
Proof.
  revert a b. induction mask as [|c mask IH]; intros [|x a] [|y b]; cbn; try done.
  - by destruct c; cbn; destruct (select mask a).
  - destruct c; cbn; by rewrite IH.
Qed.

End Placement.

(** ** The partitioned solve *)

Section Partitioned.
Context {A : Type} `{Num A} `{!LinalgSolve A}.

Lemma wf_init nodes elements : wf (SpringFEASolver.init nodes elements).
Proof.
  unfold wf, SpringFEASolver.init. cbn.
  repeat split; try apply length_replicate; apply square_zeros2.
Qed.

Lemma scatter_Ok_square n h es (K : list (list A)) :
  SpringFEASolver.scatter h es (np.zeros2 n n) = Ok K -> square n K.
Proof.
  rewrite (scatter_resolve n) by apply square_zeros2.
  destruct (resolve_all n h es) as [ts|e] eqn:Hts; cbn; [|done].
  intros [= <-]. apply square_stamps, square_zeros2.
Qed.

Lemma wf_assemble s h s' K :
  SpringFEASolver.n s = length (SpringFEASolver.nodes s) ->
  SpringFEASolver.assemble s h = (s', Ok K) -> wf s'.
Proof.
  intros Hn. unfold SpringFEASolver.assemble.
  destruct (SpringFEASolver.scatter h _ _) as [K1|e] eqn:Hsc; [|done].
  intros [= <- <-]. apply scatter_Ok_square in Hsc as [Hl Hr].
  unfold wf. cbn. rewrite !length_fmap. by repeat split.
Qed.

Lemma assemble_Raise s h s' e :
  SpringFEASolver.assemble s h = (s', Raise e) -> s' = s /\ e = IndexError /\ ~ in_bounds s h.
Proof.
  unfold SpringFEASolver.assemble.
  destruct (SpringFEASolver.scatter h _ _) as [K1|e1] eqn:Hsc; [done|].
  intros [= <- <-]. split; [done|].
  rewrite (scatter_resolve (SpringFEASolver.n s)) in Hsc by apply square_zeros2.
  destruct (resolve_all _ h _) as [ts|e2] eqn:Hts; cbn in Hsc; [done|].
  injection Hsc as <-. split; [by eapply resolve_all_Raise|].
  intros [ts Hts']. congruence.
Qed.

Lemma assemble_in_bounds s h :
  in_bounds s h -> exists s' K, SpringFEASolver.assemble s h = (s', Ok K).
Proof.
  intros [ts Hts]. unfold SpringFEASolver.assemble.
  rewrite (scatter_resolve (SpringFEASolver.n s)) by apply square_zeros2.
  rewrite Hts. cbn. eauto.
Qed.

(** What a successful run of [solve] after the assembly test computed. *)
Lemma solve_assembled_Ok s h h' u R fr fx :
  SpringFEASolver.solve_assembled s h = (h', Ok (u, R, fr, fx)) ->
  fr = free_idx s /\ fx = fixed_idx s /\
  R = np.vsub (np.matvec (SpringFEASolver.K_full s) u) (SpringFEASolver.F_full s) /\
  SpringFEASolver.write_back s u h = (h', Ok tt) /\
  ((free_idx s = [] /\
    u = np.put (np.zeros (SpringFEASolver.n s)) (fixed_idx s) (uc s)) \/
   (free_idx s <> [] /\
    exists uf, linalg_solve (Kff s) (rhs s) = Some uf /\
      u = np.put (np.put (np.zeros (SpringFEASolver.n s)) (free_idx s) uf)
                 (fixed_idx s) (uc s))).
Proof.
  unfold SpringFEASolver.solve_assembled.
  fold (free_idx s). fold (fixed_idx s). fold (Kff s). fold (Kfc s). fold (Ff s).
  destruct (decide (free_idx s = [])) as [Hfree|Hfree].
  - match goal with
    | |- context [SpringFEASolver.write_back s ?v h] =>
        destruct (SpringFEASolver.write_back s v h) as [h1 [[]|?]] eqn:Hw; [|done]
    end.
    intros [= <- <- <- <- <-]. repeat split; try done.
    left. split; [done|]. unfold uc. by destruct (decide (fixed_idx s = [])) as [->|].
  - assert ((if decide (fixed_idx s = []) then Ff s
             else np.vsub (Ff s)
                    (np.matvec (Kfc s)
                       (if decide (fixed_idx s = []) then []
                        else np.take (SpringFEASolver.u_known s) (fixed_idx s))))
            = rhs s) as ->.
    { unfold rhs, uc. by destruct (decide (fixed_idx s = [])). }
    destruct (linalg_solve (Kff s) (rhs s)) as [uf|] eqn:Hsol; [|done].
    match goal with
    | |- context [SpringFEASolver.write_back s ?v h] =>
        destruct (SpringFEASolver.write_back s v h) as [h1 [[]|?]] eqn:Hw; [|done]
    end.
    intros [= <- <- <- <- <-]. repeat split; try done.
    right. split; [done|]. exists uf. split; [done|].
    unfold uc. by destruct (decide (fixed_idx s = [])) as [->|].
Qed.

End Partitioned.

(** ** Where [solve] puts the displacements *)

Section Displacements.
Context {A : Type} `{Num A} `{!LinalgSolve A}.

Lemma length_np_zeros n : length (np.zeros (A:=A) n) = n.
Proof. apply length_replicate. Qed.

Lemma length_u_full s uf : length (u_full s uf) = SpringFEASolver.n s.
Proof. unfold u_full. by rewrite !length_put, length_np_zeros. Qed.



Lemma put_nil_idx (u : list A) vals : np.put u [] vals = u.
Proof. done. Qed.

(** With no free DOF the displacements are the known values. *)
Lemma u_full_all_fixed s :
  free_idx s = [] ->
  np.put (np.zeros (SpringFEASolver.n s)) (fixed_idx s) (uc s) = u_full s [].
Proof. intros Hf. unfold u_full. by rewrite Hf. Qed.

Lemma solve_Ok_inv s h s' h' out :
  SpringFEASolver.solve s h = (s', h', Ok out) ->
  SpringFEASolver.solve_assembled s' h = (h', Ok out) /\
  ((SpringFEASolver.still_zero s = true /\
    exists K, SpringFEASolver.assemble s h = (s', Ok K)) \/
   (SpringFEASolver.still_zero s = false /\ s' = s)).
Proof.
  unfold SpringFEASolver.solve.
  destruct (SpringFEASolver.still_zero s).
  - destruct (SpringFEASolver.assemble s h) as [s1 [K|e]] eqn:Ha; [|done].
    destruct (SpringFEASolver.solve_assembled s1 h) as [h1 r] eqn:Hs.
    intros [= <- <- ->]. split; [done|]. left. eauto.
  - destruct (SpringFEASolver.solve_assembled s h) as [h1 r] eqn:Hs.
    intros [= <- <- ->]. split; [done|]. by right.
Qed.

Lemma solve_Ok_wf s h s' h' out :
  wf s -> SpringFEASolver.solve s h = (s', h', Ok out) -> wf s'.
Proof.
  intros Hwf Hs. apply solve_Ok_inv in Hs as [_ [[_ [K Ha]] | [_ ->]]]; [|done].
  eapply wf_assemble; [apply Hwf | done].
Qed.

Lemma square_Kff s : square (length (free_idx s)) (Kff s).
Proof.
  unfold Kff, np.ix_. split; [apply length_fmap|].
  apply Forall_fmap, Forall_forall. intros i _. apply length_take.
Qed.

Lemma length_matvec (K : list (list A)) u : length (np.matvec K u) = length K.
Proof. apply length_fmap. Qed.

Lemma length_rhs s : length (rhs s) = length (free_idx s).
Proof.
  unfold rhs, Ff, Kfc, np.vsub, np.ix_. case_decide.
  - apply length_take.
  - rewrite length_zip_with, length_take, length_matvec, length_fmap. lia.
Qed.

End Displacements.

(** ** When [solve] raises *)

Section Raises.
Context {A : Type} `{Num A} `{!LinalgSolve A}.

(** [solve] after the assembly test, with the reduced system named. *)
Lemma solve_assembled_unfold s h :
  SpringFEASolver.solve_assembled s h =
  if decide (free_idx s = []) then
    match SpringFEASolver.write_back s (u_full s []) h with
    | (h', Raise e) => (h', Raise e)
    | (h', Ok _) =>
        (h', Ok (u_full s [],
                 np.vsub (np.matvec (SpringFEASolver.K_full s) (u_full s []))
                         (SpringFEASolver.F_full s),
                 free_idx s, fixed_idx s))
    end
  else
    match linalg_solve (Kff s) (rhs s) with
    | None => (h, Raise ValueError_singular)
    | Some uf =>
        match SpringFEASolver.write_back s (u_full s uf) h with
        | (h', Raise e) => (h', Raise e)
        | (h', Ok _) =>
            (h', Ok (u_full s uf,
                     np.vsub (np.matvec (SpringFEASolver.K_full s) (u_full s uf))
                             (SpringFEASolver.F_full s),
                     free_idx s, fixed_idx s))
        end
    end.
Proof.
  unfold SpringFEASolver.solve_assembled.
  fold (free_idx s). fold (fixed_idx s). fold (Kff s). fold (Kfc s). fold (Ff s).
  assert ((if decide (fixed_idx s = []) then []
           else np.take (SpringFEASolver.u_known s) (fixed_idx s)) = uc s) as ->.
  { unfold uc. by destruct (decide (fixed_idx s = [])) as [->|]. }
  fold (rhs s).
  destruct (decide (free_idx s = [])) as [Hfree|Hfree].
  - by rewrite (u_full_all_fixed s Hfree).
  - destruct (linalg_solve (Kff s) (rhs s)) as [uf|]; [|done].
    assert ((if decide (fixed_idx s = [])
             then np.put (np.zeros (SpringFEASolver.n s)) (free_idx s) uf
             else np.put (np.put (np.zeros (SpringFEASolver.n s)) (free_idx s) uf)
                         (fixed_idx s) (uc s)) = u_full s uf) as ->; [|done].
    unfold u_full. by destruct (decide (fixed_idx s = [])) as [->|].
Qed.

Lemma resolve_all_Forall n h es ts :
  resolve_all n h es = Ok ts -> Forall (fun e => exists t, resolve n h e = Ok t) es.
Proof.
  revert ts. induction es as [|e es IH]; intros ts; cbn [resolve_all]; [constructor|].
  destruct (resolve n h e) as [t|?] eqn:He; [|done]. cbn.
  destruct (resolve_all n h es) as [ts'|?]; [|done]. cbn.
  intros _. constructor; [by exists t | by eapply IH].
Qed.

Lemma axial_ok_resolve h (u : list A) e t :
  resolve (length u) h e = Ok t -> axial_ok h u e.
Proof.
  unfold resolve, axial_ok, SpringElement.axial_force, SpringElement.elongation, np.getitem.
  destruct (SpringElement.connectivity h (elem_at h e)) as [ii jj].
  destruct (np.index (length u) ii) as [a|?]; [|done].
  destruct (np.index (length u) jj) as [b|?]; [|done].
  cbn. eauto.
Qed.

Lemma resolve_same n h h' e :
  same_geometry h h' -> resolve n h' e = resolve n h e.
Proof.
  intros Hg. unfold resolve.
  by rewrite (connectivity_same h h'), (elem_k_same h h').
Qed.

(** With all indices in range the write-back loops run to the end. *)
Lemma write_back_in_bounds s u h :
  wf s -> in_bounds s h -> length u = SpringFEASolver.n s ->
  exists h', SpringFEASolver.write_back s u h = (h', Ok tt).
Proof.
  intros (Hn & _) [ts Hts] Hu. unfold SpringFEASolver.write_back.
  pose proof (same_inputs_for_each (SpringFEASolver.store_u u)
                (imap pair (SpringFEASolver.nodes s)) h (same_inputs_store_u u)) as Hsame.
  rewrite node_loop_run in *.
  - cbn in Hsame. apply same_inputs_geometry in Hsame.
    rewrite elem_loop_run; [eauto|].
    apply resolve_all_Forall in Hts.
    eapply Forall_impl; [exact Hts|]. intros e [t Ht].
    apply (axial_ok_resolve _ _ _ t). rewrite Hu, <- Ht.
    by apply resolve_same.
  - apply Forall_forall. intros [i r] Hir.
    apply elem_of_lookup_imap in Hir as (j & x & [= -> ->] & Hx). cbn.
    apply lookup_lt_Some in Hx. lia.
  - apply Forall_forall. intros [i r] Hir.
    apply elem_of_lookup_imap in Hir as (j & x & [= -> ->] & Hx). cbn.
    apply lookup_lt_Some in Hx. lia.
Qed.

(** [assemble] keeps the indices in range. *)
Lemma in_bounds_assemble s h s' K :
  SpringFEASolver.assemble s h = (s', Ok K) -> in_bounds s h -> in_bounds s' h.
Proof.
  intros Ha. pose proof (assemble_lists s h) as (_ & He & Hn).
  rewrite Ha in He, Hn. cbn in He, Hn. unfold in_bounds. by rewrite He, Hn.
Qed.

End Raises.

(** ** Solvers a caller can reach *)

Section Reachable.
Context {A : Type} `{NumRing A} `{!LinalgSolve A}.

Lemma solve_state s h :
  (SpringFEASolver.solve s h).1.1 = s \/
  (SpringFEASolver.solve s h).1.1 = (SpringFEASolver.assemble s h).1.
Proof.
  unfold SpringFEASolver.solve. destruct (SpringFEASolver.still_zero s).
  - right. destruct (SpringFEASolver.assemble s h) as [s1 [K|e]]; [|done].
    by destruct (SpringFEASolver.solve_assembled s1 h).
  - left. by destruct (SpringFEASolver.solve_assembled s h).
Qed.

Lemma balanced_assemble s h : balanced s -> balanced (SpringFEASolver.assemble s h).1.
Proof.
  intros Hb. destruct (SpringFEASolver.assemble s h) as [s1 [K|e]] eqn:Ha; cbn.
  - split; [eapply wf_assemble; [apply Hb | done]|].
    revert Ha. unfold SpringFEASolver.assemble.
    destruct (SpringFEASolver.scatter h _ _) as [K1|?] eqn:Hsc; [|done].
    intros [= <- <-]. cbn. by eapply scatter_colsums.
  - apply assemble_Raise in Ha as [-> _]. done.
Qed.

Lemma reachable_balanced s : reachable s -> balanced s.
Proof.
  induction 1 as [nodes elements | s h _ IH | s h _ IH].
  - split; [apply wf_init|]. cbn. apply colsums_zeros2.
  - by apply balanced_assemble.
  - destruct (solve_state s h) as [-> | ->]; [done | by apply balanced_assemble].
Qed.

End Reachable.

(** ** Index errors of the assembly *)

Section IndexErrors.
Context {A : Type} `{Num A}.

Lemma index_Ok_iff n i :
  (exists a, np.index n i = Ok a) <-> (- Z.of_nat n <= i < Z.of_nat n)%Z.
Proof.
  split.
  - intros [a Ha]. destruct (decide (- Z.of_nat n <= i < Z.of_nat n)%Z) as [|Hn]; [done|].
    exfalso. revert Ha. unfold np.index. repeat case_decide; try done; lia.
  - apply index_in_range.
Qed.

Lemma index_Ok_mod n i a : np.index n i = Ok a -> a = dof_index n i.
Proof.
  unfold np.index, dof_index. repeat case_decide; intros [= <-].
  - by rewrite Z.mod_small.
  - rewrite <- (Z.mod_small (i + Z.of_nat n) (Z.of_nat n)) at 1 by lia.
    f_equal. rewrite <- (Z.mul_1_l (Z.of_nat n)) at 1.
    apply Z_mod_plus_full.
Qed.

Lemma resolve_Ok_iff n h (e : ref) :
  (exists t, resolve (A:=A) n h e = Ok t) <-> dofs_in_range n h e.
Proof.
  unfold resolve, dofs_in_range.
  destruct (SpringElement.connectivity h (elem_at h e)) as [ii jj].
  rewrite <- !index_Ok_iff. split.
  - intros [t Ht].
    destruct (np.index n ii) as [a|]; [|done].
    destruct (np.index n jj) as [b|]; [|done]. eauto.
  - intros [[a ->] [b ->]]. cbn. eauto.
Qed.

Lemma resolve_Ok_entry n h (e : ref) t x y :
  resolve (A:=A) n h e = Ok t -> contrib t.1.1 t.1.2 t.2 x y = elem_entry n h x y e.
Proof.
  unfold resolve, elem_entry.
  destruct (SpringElement.connectivity h (elem_at h e)) as [ii jj].
  destruct (np.index n ii) as [a|] eqn:Ha; [|done].
  destruct (np.index n jj) as [b|] eqn:Hb; [|done]. cbn.
  intros [= <-]. cbn. by rewrite (index_Ok_mod _ _ _ Ha), (index_Ok_mod _ _ _ Hb).
Qed.

Lemma resolve_all_Ok_iff n h (es : list ref) :
  (exists ts, resolve_all (A:=A) n h es = Ok ts) <-> Forall (dofs_in_range n h) es.
Proof.
  induction es as [|e es IH]; cbn [resolve_all].
  - split; [constructor | eauto].
  - rewrite Forall_cons, <- IH, <- resolve_Ok_iff. split.
    + intros [ts Hts].
      destruct (resolve n h e) as [t|]; [|done].
      destruct (resolve_all n h es) as [ts'|]; [|done]. eauto.
    + intros [[t ->] [ts ->]]. cbn. eauto.
Qed.

Lemma assemble_index_error (s : SpringFEASolver.t A) (h : Heap A) :
  (Forall (dofs_in_range (SpringFEASolver.n s) h) (SpringFEASolver.elements s) /\
   exists s' K, SpringFEASolver.assemble s h = (s', Ok K)) \/
  (~ Forall (dofs_in_range (SpringFEASolver.n s) h) (SpringFEASolver.elements s) /\
   SpringFEASolver.assemble s h = (s, Raise IndexError)).
Proof.
  destruct (SpringFEASolver.assemble s h) as [s1 [K|e]] eqn:Ha.
  - left. split; [|eauto].
    apply resolve_all_Ok_iff.
    destruct (resolve_all (SpringFEASolver.n s) h (SpringFEASolver.elements s))
      as [ts|e] eqn:Hts; [eauto|].
    exfalso. revert Ha. unfold SpringFEASolver.assemble.
    rewrite (scatter_resolve (SpringFEASolver.n s)) by apply square_zeros2.
    by rewrite Hts.
  - right. apply assemble_Raise in Ha as (-> & -> & Hnb). split; [|done].
    intros Hall. apply Hnb. by apply resolve_all_Ok_iff.
Qed.

End IndexErrors.

(** ** The contributions to an entry of the assembled matrix *)

Section Terms.
Context {A : Type} `{Num A}.

Lemma entry_stamp_terms n (K : list (list A)) a b k x y :
  square n K -> a < n -> b < n ->
  (stamp K a b k !!! x) !!! y = foldl nadd ((K !!! x) !!! y) (terms a b k x y).
Proof.
  intros HK Ha Hb. rewrite (entry_stamp n) by done. cbn zeta. unfold terms.
  rewrite !foldl_app. by repeat case_decide.
Qed.

Lemma entry_stamps_terms n (K : list (list A)) ts x y :
  square n K -> Forall (in_range n) ts ->
  (foldl stamp3 K ts !!! x) !!! y =
  foldl nadd ((K !!! x) !!! y) (flat_map (fun t => terms t.1.1 t.1.2 t.2 x y) ts).
Proof.
  revert K. induction ts as [|t ts IH]; intros K HK Hts; cbn [foldl flat_map]; [done|].
  apply Forall_cons in Hts as [[Ha Hb] Hts].
  rewrite IH by (by try apply square_stamp). unfold stamp3.
  by rewrite (entry_stamp_terms n), foldl_app.
Qed.

Lemma resolve_terms n h (e : ref) t x y :
  resolve (A:=A) n h e = Ok t -> terms t.1.1 t.1.2 t.2 x y = elem_terms n h x y e.
Proof.
  unfold resolve, elem_terms.
  destruct (SpringElement.connectivity h (elem_at h e)) as [ii jj].
  destruct (np.index n ii) as [a|] eqn:Ha; [|done].
  destruct (np.index n jj) as [b|] eqn:Hb; [|done]. cbn.
  intros [= <-]. cbn. by rewrite (index_Ok_mod _ _ _ Ha), (index_Ok_mod _ _ _ Hb).
Qed.

Lemma resolve_all_terms n h (es : list ref) ts x y :
  resolve_all (A:=A) n h es = Ok ts ->
  flat_map (fun t => terms t.1.1 t.1.2 t.2 x y) ts = entry_terms n h x y es.
Proof.
  revert ts. induction es as [|e es IH]; intros ts; cbn [resolve_all].
  - by intros [= <-].
  - destruct (resolve n h e) as [t|] eqn:He; [|done].
    destruct (resolve_all n h es) as [ts'|]; [|done]. cbn.
    intros [= <-]. unfold entry_terms. cbn [flat_map]. f_equal; [|by apply IH].
    by apply resolve_terms.
Qed.

(** Every entry of the assembled matrix is the sum, accumulated from the
    left, of what the elements add to it, in the order of the list. *)
Lemma assembled_terms (s s' : SpringFEASolver.t A) h (K : list (list A)) x y :
  SpringFEASolver.assemble s h = (s', Ok K) ->
  (K !!! x) !!! y =
  foldl nadd n0 (entry_terms (SpringFEASolver.n s) h x y (SpringFEASolver.elements s)).
Proof.
  unfold SpringFEASolver.assemble.
  rewrite (scatter_resolve (SpringFEASolver.n s)) by apply square_zeros2.
  destruct (resolve_all _ h _) as [ts|e] eqn:Hts; cbn; [|done].
  intros [= _ <-].
  rewrite (entry_stamps_terms (SpringFEASolver.n s));
    [|apply square_zeros2 | by eapply resolve_all_in_range].
  by rewrite entry_zeros2, (resolve_all_terms _ _ _ _ x y Hts).
Qed.

Lemma entry_terms_perm n h x y (es es' : list ref) :
  es ≡ₚ es' -> entry_terms (A:=A) n h x y es ≡ₚ entry_terms n h x y es'.
Proof. intros Hp. by apply Permutation_flat_map. Qed.

Lemma foldl_nadd_perm (l l' : list A) z :
  (forall a b c : A, nadd (nadd a b) c = nadd (nadd a c) b) ->
  l ≡ₚ l' -> foldl nadd z l = foldl nadd z l'.
Proof.
  intros Hc Hp. revert z.
  induction Hp as [|a l l' Hp IH|a b l|l1 l2 l3 Hp1 IH1 Hp2 IH2]; intros z; cbn.
  - done.
  - apply IH.
  - by rewrite Hc.
  - by rewrite IH1.
Qed.

Lemma foldl_nadd_perm2 (l l' : list A) :
  (forall a b : A, nadd (nadd n0 a) b = nadd (nadd n0 b) a) ->
  length l <= 2 -> l ≡ₚ l' -> foldl nadd n0 l = foldl nadd n0 l'.
Proof.
  intros Hc Hl Hp. destruct l as [|a [|b [|c l]]]; [| | |cbn in Hl; lia].
  - apply Permutation_nil_l in Hp. by subst.
  - apply Permutation_singleton_l in Hp. by subst.
  - apply Permutation_length_2_inv in Hp as [->| ->]; cbn; [done|]. apply Hc.
Qed.

End Terms.

Section OrderOfElements.
Context {A : Type} `{Num A}.

Lemma assemble_Raise_perm (s s' : SpringFEASolver.t A) h e :
  SpringFEASolver.elements s ≡ₚ SpringFEASolver.elements s' ->
  SpringFEASolver.n s = SpringFEASolver.n s' ->
  (SpringFEASolver.assemble s h).2 = Raise e ->
  (SpringFEASolver.assemble s' h).2 = Raise e.
Proof.
  intros Hp Hn Hr.
  destruct (assemble_index_error s h) as [[_ (s1 & K & Ha)]|[Hnot Ha]];
    rewrite Ha in Hr; [done|]. injection Hr as <-.
  destruct (assemble_index_error s' h) as [[Hall _]|[_ ->]]; [|done].
  exfalso. apply Hnot. by rewrite Hp, Hn.
Qed.

Lemma assemble_Ok_square (s s' : SpringFEASolver.t A) h K :
  SpringFEASolver.assemble s h = (s', Ok K) -> square (SpringFEASolver.n s) K.
Proof.
  unfold SpringFEASolver.assemble.
  destruct (SpringFEASolver.scatter h _ _) as [K1|e] eqn:Hsc; [|done].
  intros [= _ <-]. by eapply scatter_Ok_square.
Qed.

End OrderOfElements.

(** ** Addition in binary64 *)

Section FloatAdd.

Lemma SFadd_comm prec emax x y : SFadd prec emax x y = SFadd prec emax y x.
Proof.
  destruct x as [[]|[]| |[] mx ex], y as [[]|[]| |[] my ey]; try reflexivity;
    cbn [SFadd]; by rewrite Z.min_comm, Z.add_comm.
Qed.

Lemma SFadd_zero_swap prec emax x y :
  SFadd prec emax (SFadd prec emax (S754_zero false) x) y =
  SFadd prec emax (SFadd prec emax (S754_zero false) y) x.
Proof.
  destruct x as [[]|[]| |[] mx ex], y as [[]|[]| |[] my ey]; try reflexivity;
    cbn [SFadd]; by rewrite Z.min_comm, Z.add_comm.
Qed.

(** Two values added to [0.0] give the same sum in either order. *)
Lemma float_add_swap (a b : float) : (0 + a + b = 0 + b + a)%float.
Proof.
  apply Prim2SF_inj. rewrite !add_spec. apply SFadd_zero_swap.
Qed.

End FloatAdd.

(** * Worked examples *)

(** The spec's two worked examples. *)
Example single_spring_result :
  show (SpringFEASolver.solve single_spring_solver single_spring) =
  Some ([0; 1 # 2]%Q, [-5 # 1; 0]%Q, [1%nat], [0%nat], [5 # 1]%Q).
Proof. vm_compute. reflexivity. Qed.

Example chain3_result :
  show (SpringFEASolver.solve chain3_solver chain3) =
  Some ([0; 1; 2]%Q, [-1 # 1; 0; 1]%Q, [1%nat], [0%nat; 2%nat], [1; 1]%Q).
Proof. vm_compute. reflexivity. Qed.

(** * The claims of the specification *)

(** C4: constructing a [SpringElement] raises an [InvalidElement] error
    exactly when the two nodes carry the same id or [k <= 0]; the same node
    given twice always fails; a failed construction leaves the store as it
    was; a successful one allocates a new element on nodes [ni], [nj] with
    stiffness [k] and axial force 0, and touches no node and no element
    that existed. *)
Theorem C4_element_construction {A : Type} `{Num A} (h : Heap A) (ni nj : ref) (k : A) :
  let r := SpringElement.init h ni nj k in
  ((exists e, r.2 = Raise e) <->
     (Node.id (node_at h ni) = Node.id (node_at h nj) \/ nleb k n0 = true)) /\
  (forall e, r.2 = Raise e -> InvalidElement e /\ r.1 = h) /\
  (ni = nj -> exists e, r.2 = Raise e) /\
  (forall x, r.2 = Ok x ->
     x = length (h_elems h) /\
     elem_at r.1 x = Elem.mk ni nj k n0 /\
     h_nodes r.1 = h_nodes h /\
     forall y, y < length (h_elems h) -> elem_at r.1 y = elem_at h y).
Proof.
  cbn zeta. unfold SpringElement.init.
  destruct (decide (Node.id (node_at h ni) = Node.id (node_at h nj))) as [Hid|Hid];
    [|destruct (nleb k n0) eqn:Hk]; cbn.
  - split; [split; eauto|]. split; [by intros e [= <-]|].
    split; [eauto | done].
  - split; [split; eauto|]. split; [by intros e [= <-]|].
    split; [eauto | done].
  - split; [split; [by intros [e ?] | by intros [?|?]]|].
    split; [done|]. split; [by intros ->|].
    intros x [= <-]. split; [done|]. split; [|split; [done|]].
    + unfold elem_at. cbn. apply list_lookup_total_correct. by apply list_lookup_middle.
    + intros y Hy. unfold elem_at. cbn.
      by rewrite !list_lookup_total_alt, lookup_app_l.
Qed.

(** C5: the global stiffness matrix produced by [assemble] is symmetric,
    [K[a][b] = K[b][a]] for all DOF pairs, in any arithmetic, and it is the
    matrix the solver stores. *)
Theorem C5_assembled_matrix_symmetric {A : Type} `{Num A}
    (s s' : SpringFEASolver.t A) (h : Heap A) (K : list (list A)) :
  SpringFEASolver.assemble s h = (s', Ok K) ->
  symmetric K /\ SpringFEASolver.K_full s' = K.
Proof.
  intros Ha. split; [|by apply assemble_Ok_fields in Ha as [? _]].
  revert Ha. unfold SpringFEASolver.assemble.
  destruct (SpringFEASolver.scatter h _ _) as [K1|e] eqn:Hsc; [|done].
  intros [= <- <-]. by eapply scatter_symmetric.
Qed.

Lemma C5_witness :
  exists s' K,
    SpringFEASolver.assemble (star4_solver [0; 1; 2]%nat) star4 = (s', Ok K) /\
    symmetric K /\ SpringFEASolver.K_full s' = K.
Proof.
  destruct (SpringFEASolver.assemble (star4_solver [0; 1; 2]%nat) star4)
    as [s' [K|e]] eqn:Ha.
  - exists s', K. split; [done|].
    exact (C5_assembled_matrix_symmetric _ _ _ _ Ha).
  - vm_compute in Ha. discriminate Ha.
Defined.

(** C10: [solve] writes only the solved displacement of nodes and the
    axial force of elements: whether it returns or raises, the store holds
    the same objects afterwards and every node keeps its id, load,
    constraint flag, prescribed flag, prescribed value and DOF index, every
    element its two node references and its stiffness; the solver keeps
    its node and element lists.  [assemble] takes the store read-only and
    keeps the lists as well. *)
Theorem C10_solve_frame {A : Type} `{Num A} `{!LinalgSolve A}
    (s : SpringFEASolver.t A) (h : Heap A) :
  same_inputs h (SpringFEASolver.solve s h).1.2 /\
  SpringFEASolver.nodes (SpringFEASolver.solve s h).1.1 = SpringFEASolver.nodes s /\
  SpringFEASolver.elements (SpringFEASolver.solve s h).1.1 = SpringFEASolver.elements s /\
  SpringFEASolver.nodes (SpringFEASolver.assemble s h).1 = SpringFEASolver.nodes s /\
  SpringFEASolver.elements (SpringFEASolver.assemble s h).1 = SpringFEASolver.elements s.
Proof.
  destruct (solve_frame s h) as (Hs & Hn & He).
  destruct (assemble_lists s h) as (Hn' & He' & _).
  done.
Qed.

(** C8: calling [solve] a second time, with nothing changed in between,
    returns the same displacement and reaction vectors and index lists,
    and leaves the solver and the store (so every node displacement and
    every element axial force) exactly as the first call left them. *)
Theorem C8_solve_idempotent {A : Type} `{Num A} `{!LinalgSolve A}
    (s s1 : SpringFEASolver.t A) (h h1 : Heap A) (out : SpringFEASolver.output) :
  SpringFEASolver.solve s h = (s1, h1, Ok out) ->
  SpringFEASolver.solve s1 h1 = (s1, h1, Ok out) /\
  SpringFEASolver.element_forces s1 h1 =
    SpringFEASolver.element_forces (SpringFEASolver.solve s1 h1).1.1
                                   (SpringFEASolver.solve s1 h1).1.2.
Proof.
  intros Hs. pose proof (solve_twice _ _ _ _ _ Hs) as Hs2.
  split; [done|]. by rewrite Hs2.
Qed.

Lemma C8_witness :
  exists s1 h1 out,
    SpringFEASolver.solve chain3_solver chain3 = (s1, h1, Ok out) /\
    SpringFEASolver.solve s1 h1 = (s1, h1, Ok out) /\
    SpringFEASolver.element_forces s1 h1 =
      SpringFEASolver.element_forces (SpringFEASolver.solve s1 h1).1.1
                                     (SpringFEASolver.solve s1 h1).1.2.
Proof.
  destruct (SpringFEASolver.solve chain3_solver chain3) as [[s1 h1] [out|e]] eqn:Hs.
  - exists s1, h1, out. split; [done|].
    exact (C8_solve_idempotent _ _ _ _ _ Hs).
  - vm_compute in Hs. discriminate Hs.
Defined.

(** C9: two solves that differ only in the load applied at a constrained
    node return the same displacements and leave the same axial force in
    every element; the reactions differ at most at the DOFs of that
    node. *)
Theorem C9_load_on_constrained_node {A : Type} `{Num A} `{!LinalgSolve A}
    (s s1 : SpringFEASolver.t A) (h h1 : Heap A) (r0 : ref) (f : A)
    (u R : list A) (fr fx : list nat) :
  Node.fixed (node_at h r0) = true ->
  SpringFEASolver.solve s h = (s1, h1, Ok (u, R, fr, fx)) ->
  exists s1' R',
    SpringFEASolver.solve s (set_load h r0 f) =
      (s1', set_load h1 r0 f, Ok (u, R', fr, fx)) /\
    SpringFEASolver.element_forces s1' (set_load h1 r0 f) =
      SpringFEASolver.element_forces s1 h1 /\
    (forall i, SpringFEASolver.nodes s !! i <> Some r0 -> R' !! i = R !! i).
Proof. apply solve_set_load. Qed.

Lemma C9_witness :
  exists s1 h1 u R fr fx s1' R',
    SpringFEASolver.solve single_spring_solver single_spring =
      (s1, h1, Ok (u, R, fr, fx)) /\
    SpringFEASolver.solve single_spring_solver (set_load single_spring 0%nat (qc 3)) =
      (s1', set_load h1 0%nat (qc 3), Ok (u, R', fr, fx)) /\
    SpringFEASolver.element_forces s1' (set_load h1 0%nat (qc 3)) =
      SpringFEASolver.element_forces s1 h1 /\
    (forall i, SpringFEASolver.nodes single_spring_solver !! i <> Some 0%nat ->
               R' !! i = R !! i).
Proof.
  destruct (SpringFEASolver.solve single_spring_solver single_spring)
    as [[s1 h1] [[[[u R] fr] fx]|e]] eqn:Hs.
  - destruct (C9_load_on_constrained_node single_spring_solver s1 single_spring h1
                0%nat (qc 3) u R fr fx eq_refl Hs) as (s1' & R' & H1 & H2 & H3).
    exists s1, h1, u, R, fr, fx, s1', R'. done.
  - vm_compute in Hs. discriminate Hs.
Defined.




(** C2 (evaluation at the failing input): with three free nodes the
    reduced matrix is the whole stiffness matrix
    [[3, -1, -2], [-1, 1, 0], [-2, 0, 2]], which is singular: it sends
    [1, 1, 1] to zero.  In binary64 [solve] raises nothing and returns
    displacements of about [4.5e15]. *)
Theorem C2_singular_matrix_solved :
  Kff (SpringFEASolver.solve adrift3_solver adrift3).1.1
    = [[3; -1; -2]; [-1; 1; 0]; [-2; 0; 2]]%float /\
  singular (Kff (SpringFEASolver.solve adrift3_solver adrift3).1.1) /\
  (SpringFEASolver.solve adrift3_solver adrift3).2
    = Ok ([4503599627370496; 4503599627370495.5; 4503599627370496]%float,
          [0; -0.5; -1]%float, [0; 1; 2]%nat, []).
Proof.
  split; [vm_compute; reflexivity|]. split; [|vm_compute; reflexivity].
  exists [1; 1; 1]%float. split; [vm_compute; reflexivity|]. split.
  - intros Heq.
    apply (f_equal (fun l : list float => PrimFloat.eqb (l !!! 0%nat) 0)) in Heq.
    vm_compute in Heq. discriminate Heq.
  - vm_compute. reflexivity.
Qed.

(** ** numpy's pairwise summation *)

Section PairwiseFuel.
Context {A : Type} `{Num A}.

(** More fuel than the length of the array changes nothing: the
    recursion of [pairwise_sum] always ends by itself. *)
Lemma pairwise_sum_fuel fuel fuel' (l : list A) :
  length l <= fuel -> length l <= fuel' ->
  np.pairwise_sum fuel l = np.pairwise_sum fuel' l.
Proof.
  revert fuel' l. induction fuel as [|fuel IH]; intros fuel' l Hf Hf'.
  - destruct l; [|cbn in Hf; lia]. by destruct fuel'.
  - destruct fuel' as [|fuel']; cbn [np.pairwise_sum].
    + destruct l; [|cbn in Hf'; lia]. done.
    + repeat case_decide; try done.
      assert (length l / 2 <= length l) by (apply Nat.Div0.div_le_upper_bound; lia).
      assert (64 <= length l / 2) by (apply Nat.div_le_lower_bound; lia).
      pose proof (Nat.Div0.mod_le (length l / 2) 8).
      pose proof (Nat.mod_upper_bound (length l / 2) 8).
      assert (length l / 2 < length l) by (apply Nat.div_lt; lia).
      f_equal; apply IH; rewrite ?list.length_take, ?length_drop; lia.
Qed.

End PairwiseFuel.

Section PairwiseExact.
Context {A : Type} `{NumRing A}.
Add Ring num_ring_pairwise : num_ring.
#[local] Arguments np.seq_sum : simpl never.

Lemma sum_vadd (a b : list A) :
  length a = length b ->
  np.seq_sum (zip_with nadd a b) = nadd (np.seq_sum a) (np.seq_sum b).
Proof.
  revert b. induction a as [|x a IH]; intros [|y b] Hl; cbn in *; try done.
  - rewrite sum_nil. ring.
  - rewrite !sum_cons, IH by lia. ring.
Qed.

Lemma sum_add_blocks k (r l : list A) :
  length r = 8 -> 8 * k <= length l ->
  np.seq_sum (np.add_blocks k r l) = nadd (np.seq_sum r) (np.seq_sum (firstn (8 * k) l)).
Proof.
  revert r l. induction k as [|k IH]; intros r l Hr Hl; cbn [np.add_blocks].
  - rewrite Nat.mul_0_r, take_0, sum_nil. ring.
  - rewrite IH.
    + rewrite sum_vadd by (rewrite list.length_take; lia).
      replace (8 * S k) with (8 + 8 * k) by lia.
      rewrite <- take_take_drop, sum_app. ring.
    + rewrite length_zip_with, list.length_take. lia.
    + rewrite length_drop. lia.
Qed.

Lemma length_add_blocks k (r l : list A) :
  length r = 8 -> 8 * k <= length l -> length (np.add_blocks k r l) = 8.
Proof.
  revert r l. induction k as [|k IH]; intros r l Hr Hl; cbn [np.add_blocks]; [done|].
  apply IH.
  - rewrite length_zip_with, list.length_take. lia.
  - rewrite length_drop. lia.
Qed.

Lemma sum_unrolled_exact (l : list A) :
  8 <= length l -> np.sum_unrolled l = np.seq_sum l.
Proof.
  intros Hl. unfold np.sum_unrolled. cbn zeta.
  assert (1 <= length l / 8) as Hq by (apply Nat.div_le_lower_bound; lia).
  pose proof (Nat.Div0.mul_div_le (length l) 8) as Hm.
  set (k := length l / 8 - 1) in *.
  assert (length l / 8 = S k) as Hk by lia. rewrite Hk in Hm.
  rewrite foldl_nadd.
  assert (8 * k <= length (skipn 8 l)) as Hd by (rewrite length_drop; lia).
  assert (length (firstn 8 l) = 8) as Ht by (rewrite list.length_take; lia).
  pose proof (sum_add_blocks k (firstn 8 l) (skipn 8 l) Ht Hd) as Hb.
  pose proof (length_add_blocks k (firstn 8 l) (skipn 8 l) Ht Hd) as Hlen.
  assert (np.seq_sum l = nadd (np.seq_sum (firstn 8 l))
                          (nadd (np.seq_sum (firstn (8 * k) (skipn 8 l)))
                                (np.seq_sum (skipn (8 * (k + 1)) l)))) as ->.
  { replace (8 * (k + 1)) with (8 + 8 * k) by lia.
    rewrite <- drop_drop, <- !sum_app, !take_drop. done. }
  destruct (np.add_blocks k (firstn 8 l) (skipn 8 l))
    as [|r0 [|r1 [|r2 [|r3 [|r4 [|r5 [|r6 [|r7 [|r8 r]]]]]]]]]; try done.
  rewrite !sum_cons, sum_nil in Hb. cbn [lookup_total list_lookup_total].
  transitivity (nadd (nadd r0 (nadd r1 (nadd r2 (nadd r3 (nadd r4 (nadd r5 (nadd r6
                   (nadd r7 n0))))))))
                     (np.seq_sum (drop (8 * (k + 1)) l))); [ring|].
  rewrite Hb. ring.
Qed.

Lemma pairwise_sum_exact fuel (l : list A) : np.pairwise_sum fuel l = np.seq_sum l.
Proof.
  revert l. induction fuel as [|fuel IH]; intros l; cbn [np.pairwise_sum].
  - repeat case_decide; [done | apply sum_unrolled_exact; lia | done].
  - repeat case_decide; [done | apply sum_unrolled_exact; lia |].
    rewrite !IH, <- sum_app. by rewrite take_drop.
Qed.

(** In exact arithmetic the pairwise sum is the sum. *)
Lemma sum_exact (l : list A) : np.sum l = np.seq_sum l.
Proof. unfold np.sum. rewrite pairwise_sum_exact. ring. Qed.

End PairwiseExact.

(** ** The assembly test of [solve] *)

Section StillZero.
Context {A : Type} `{NumRing A} `{!LinalgSolve A}.
Add Ring num_ring_still_zero : num_ring.
#[local] Arguments np.seq_sum : simpl never.

Lemma sum2_colsums n (K : list (list A)) :
  Forall (fun r => length r = n) K -> np.sum2 K = np.seq_sum (colsums n K).
Proof.
  unfold np.sum2. rewrite sum_exact. induction 1 as [|r K Hr HK IH]; cbn [concat].
  - cbn. by rewrite sum_zeros, sum_nil.
  - rewrite colsums_cons, sum_app, sum_vadd, IH; [done|].
    by rewrite length_colsums.
Qed.

(** All entries of a balanced matrix sum to zero, whatever the entries. *)
Lemma balanced_still_zero s : balanced s -> SpringFEASolver.still_zero s = true.
Proof.
  intros [(_ & [_ HK] & _) Hcol]. unfold SpringFEASolver.still_zero.
  apply neqb_eq. rewrite (sum2_colsums (SpringFEASolver.n s)) by done.
  by rewrite Hcol, sum_zeros.
Qed.

(** In exact arithmetic the test [K_full.sum() == 0.0] holds for every
    solver a caller can reach: [solve] always assembles first. *)
Lemma reachable_still_zero s : reachable s -> SpringFEASolver.still_zero s = true.
Proof. intros Hr. by apply balanced_still_zero, reachable_balanced. Qed.

End StillZero.

(** C3 (evaluation at the failing input): after [assemble()] on the single
    spring the stored matrix is [[10, -10], [-10, 10]], not zero, and the
    test [K_full.sum() == 0.0] of [solve] still holds, in binary64 and in
    exact arithmetic; a load changed between [assemble()] and [solve()] is
    therefore picked up by [solve], which assembles again. *)
Theorem C3_solve_reassembles_nonzero_matrix :
  SpringFEASolver.K_full
    (SpringFEASolver.assemble single_spring_solver_f single_spring_f).1
    = [[10; -10]; [-10; 10]]%float /\
  SpringFEASolver.still_zero
    (SpringFEASolver.assemble single_spring_solver_f single_spring_f).1 = true /\
  SpringFEASolver.still_zero
    (SpringFEASolver.assemble single_spring_solver single_spring).1 = true /\
  this <$> SpringFEASolver.F_full
    (SpringFEASolver.assemble single_spring_solver single_spring).1 = [0; 5 # 1]%Q /\
  this <$> SpringFEASolver.F_full
    (SpringFEASolver.solve
       (SpringFEASolver.assemble single_spring_solver single_spring).1
       (set_load single_spring 1%nat (qc 7))).1.1 = [0; 7 # 1]%Q.
Proof. vm_compute. repeat split; reflexivity. Qed.

(** C6 (as stated, in binary64): the star of three springs 0.1, 0.2, 0.3
    on node 1 assembles to different matrices in the orders (1, 2, 3) and
    (3, 2, 1): the entry [K[0][0]] is (0.1 + 0.2) + 0.3 in one and
    (0.3 + 0.2) + 0.1 in the other. *)
Lemma C6_float_counterexample :
  [0; 1; 2]%nat ≡ₚ [2; 1; 0]%nat /\
  exists K1 K2 : list (list float),
    (SpringFEASolver.assemble (star4_solver [0; 1; 2]%nat) star4).2 = Ok K1 /\
    (SpringFEASolver.assemble (star4_solver [2; 1; 0]%nat) star4).2 = Ok K2 /\
    (K1 !!! 0%nat) !!! 0%nat = ((0.1 + 0.2) + 0.3)%float /\
    (K2 !!! 0%nat) !!! 0%nat = ((0.3 + 0.2) + 0.1)%float /\
    PrimFloat.eqb ((K1 !!! 0%nat) !!! 0%nat) ((K2 !!! 0%nat) !!! 0%nat) = false /\
    K1 <> K2.
Proof.
  split.
  { etrans; [apply Permutation_swap|]. etrans; [apply perm_skip, Permutation_swap|].
    apply Permutation_swap. }
  eexists _, _. split; [vm_compute; reflexivity|]. split; [vm_compute; reflexivity|].
  split; [vm_compute; reflexivity|]. split; [vm_compute; reflexivity|].
  split; [vm_compute; reflexivity|].
  intros Heq.
  apply (f_equal (fun K : list (list float) =>
                    PrimFloat.eqb ((K !!! 0%nat) !!! 0%nat) ((0.3 + 0.2) + 0.1)%float))
    in Heq.
  vm_compute in Heq. discriminate Heq.
Qed.

(** C6 (amended): for two orderings of the same elements, [assemble]
    raises on one exactly when it raises on the other; otherwise every
    entry of either matrix is the sum, accumulated from the left starting
    at 0.0, of the same contributions, taken in the order of its element
    list.  The two matrices agree at every entry that receives at most two
    contributions as soon as [(0 + a) + b = (0 + b) + a], which binary64
    satisfies, and they are equal when a sum does not depend on the order
    of its terms. *)
Theorem C6_assemble_order {A : Type} `{Num A}
    (s s' : SpringFEASolver.t A) (h : Heap A) :
  SpringFEASolver.elements s ≡ₚ SpringFEASolver.elements s' ->
  SpringFEASolver.n s = SpringFEASolver.n s' ->
  (forall e, (SpringFEASolver.assemble s h).2 = Raise e <->
             (SpringFEASolver.assemble s' h).2 = Raise e) /\
  (forall K, (SpringFEASolver.assemble s h).2 = Ok K ->
     exists K', (SpringFEASolver.assemble s' h).2 = Ok K' /\
       (forall x y,
          (K !!! x) !!! y =
            foldl nadd n0 (entry_terms (SpringFEASolver.n s) h x y
                             (SpringFEASolver.elements s)) /\
          (K' !!! x) !!! y =
            foldl nadd n0 (entry_terms (SpringFEASolver.n s) h x y
                             (SpringFEASolver.elements s')) /\
          entry_terms (SpringFEASolver.n s) h x y (SpringFEASolver.elements s) ≡ₚ
          entry_terms (SpringFEASolver.n s) h x y (SpringFEASolver.elements s')) /\
       ((forall a b : A, nadd (nadd n0 a) b = nadd (nadd n0 b) a) ->
        forall x y,
          length (entry_terms (SpringFEASolver.n s) h x y
                    (SpringFEASolver.elements s)) <= 2 ->
          (K' !!! x) !!! y = (K !!! x) !!! y) /\
       ((forall a b c : A, nadd (nadd a b) c = nadd (nadd a c) b) -> K' = K)).
Proof.
  intros Hp Hn. split.
  - intros e. split; apply assemble_Raise_perm; done.
  - intros K HK.
    destruct (SpringFEASolver.assemble s h) as [s1 r] eqn:Ha. cbn in HK. subst r.
    destruct (SpringFEASolver.assemble s' h) as [s2 [K'|e]] eqn:Ha'.
    2:{ exfalso. assert ((SpringFEASolver.assemble s h).2 = Raise e) as Hr.
        { apply (assemble_Raise_perm s' s); [done | done | by rewrite Ha']. }
        by rewrite Ha in Hr. }
    exists K'. split; [done|].
    pose proof (fun x y => assembled_terms s s1 h K x y Ha) as HKe.
    pose proof (fun x y => assembled_terms s' s2 h K' x y Ha') as HKe'.
    rewrite <- Hn in HKe'.
    assert (forall x y,
      entry_terms (SpringFEASolver.n s) h x y (SpringFEASolver.elements s) ≡ₚ
      entry_terms (SpringFEASolver.n s) h x y (SpringFEASolver.elements s')) as Ht.
    { intros x y. by apply entry_terms_perm. }
    split; [|split].
    + intros x y. done.
    + intros Hc x y Hl. rewrite HKe, HKe'. symmetry. by apply foldl_nadd_perm2.
    + intros Hc. apply (matrix_ext (SpringFEASolver.n s)).
      * rewrite Hn. by eapply assemble_Ok_square.
      * by eapply assemble_Ok_square.
      * intros x y _ _. rewrite HKe, HKe'. symmetry. by apply foldl_nadd_perm.
Qed.

Lemma C6_witness :
  exists K K' : list (list float),
    (SpringFEASolver.assemble (chain3_solver_f [0; 1]%nat) chain3_f).2 = Ok K /\
    (SpringFEASolver.assemble (chain3_solver_f [1; 0]%nat) chain3_f).2 = Ok K' /\
    forall x y, (K' !!! x) !!! y = (K !!! x) !!! y.
Proof.
  destruct (SpringFEASolver.assemble (chain3_solver_f [0; 1]%nat) chain3_f).2
    as [K|e] eqn:HK; [|vm_compute in HK; discriminate HK].
  destruct (C6_assemble_order (chain3_solver_f [0; 1]%nat) (chain3_solver_f [1; 0]%nat)
              chain3_f (Permutation_swap 1%nat 0%nat []) eq_refl) as [_ Hok].
  destruct (Hok K HK) as (K' & HK' & _ & Hsame & _).
  exists K, K'. split; [done|]. split; [done|].
  intros x y. apply Hsame; [apply float_add_swap|].
  destruct x as [|[|[|x]]], y as [|[|[|y]]]; vm_compute; lia.
Defined.

(** C7 (evaluation at the failing input): [solve] returns on the three
    free nodes with load 1; no DOF is constrained, so the applied loads
    and the reactions at the constrained DOFs sum to 1, not to zero. *)
Theorem C7_equilibrium_violated :
  exists s' h' u R fx,
    SpringFEASolver.solve adrift3_solver adrift3 = (s', h', Ok (u, R, [0; 1; 2]%nat, fx)) /\
    fx = [] /\
    SpringFEASolver.F_full s' = [0; 0; 1]%float /\
    R = [0; -0.5; -1]%float /\
    nadd (np.sum (SpringFEASolver.F_full s')) (np.sum (np.take R fx)) = 1%float.
Proof.
  eexists _, _, _, _, _. split; [vm_compute; reflexivity|].
  split; [reflexivity|]. split; [vm_compute; reflexivity|].
  split; [vm_compute; reflexivity|]. vm_compute. reflexivity.
Qed.

(** * Further lemmas on the solver *)

(** ** Element end forces *)

Section ElementForces.
Context {A : Type} `{NumRing A}.
Add Ring num_ring_element_forces : num_ring.

Lemma nodal_actions_axial h (e : Elem.t A) (u : list A) :
  SpringElement.nodal_actions h e u =
  (f ← SpringElement.axial_force h e u; Ok (nopp f, f)).
Proof.
  unfold SpringElement.nodal_actions, SpringElement.axial_force,
    SpringElement.elongation, np.getitem.
  destruct (SpringElement.connectivity h e) as [ii jj].
  destruct (np.index (length u) ii) as [a|e1] eqn:Hi;
    destruct (np.index (length u) jj) as [b|e2] eqn:Hj; cbn; try done.
  - f_equal. f_equal. ring.
  - apply index_Raise in Hi as [-> _]. by apply index_Raise in Hj as [-> _].
Qed.

End ElementForces.

(** ** What [solve] leaves in the nodes and the elements *)

Section AssignEffect.
Context {X : Type}.

Lemma effect_notin (asg : list (nat * (X -> X))) x v :
  x ∉ asg.*1 -> effect asg x v = v.
Proof.
  revert v. induction asg as [|[r f] asg IH]; intros v Hx; cbn; [done|].
  cbn in Hx. apply not_elem_of_cons in Hx as [Hxr Hx].
  rewrite decide_False by done. by apply IH.
Qed.

End AssignEffect.

Section StoredResults.
Context {A : Type} `{Num A} `{!LinalgSolve A}.

Lemma node_asg_keys (u : list A) xs : (node_asg u xs).*1 = xs.*2.
Proof. unfold node_asg. rewrite <- list_fmap_compose. by apply list_fmap_ext. Qed.

Lemma elem_asg_keys h (u : list A) es : (elem_asg h u es).*1 = es.
Proof.
  unfold elem_asg. rewrite <- list_fmap_compose.
  rewrite <- (list_fmap_id es) at 2. by apply list_fmap_ext.
Qed.

Lemma effect_node_asg (u : list A) (xs : list (nat * nat)) i r v :
  NoDup xs.*2 -> (i, r) ∈ xs ->
  effect (node_asg u xs) r v = Node.set_u v (u !!! i).
Proof.
  revert v. induction xs as [|[i0 r0] xs IH]; intros v Hnd Hin; [by apply elem_of_nil in Hin|].
  cbn in Hnd. apply NoDup_cons in Hnd as [Hr0 Hnd].
  unfold node_asg. rewrite fmap_cons. fold (node_asg u xs). cbn [effect fst snd].
  apply elem_of_cons in Hin as [[= -> ->]|Hin].
  - rewrite decide_True by done. apply effect_notin. by rewrite node_asg_keys.
  - rewrite decide_False; [by apply IH|].
    intros ->. apply Hr0. apply list_elem_of_fmap. by exists (i, r).
Qed.

Lemma effect_elem_asg h (u : list A) es e v :
  e ∈ es ->
  effect (elem_asg h u es) e v = Elem.set_axial v (axial_val h u e).
Proof.
  revert v. induction es as [|e0 es IH]; intros v Hin; [by apply elem_of_nil in Hin|].
  unfold elem_asg. rewrite fmap_cons. fold (elem_asg h u es). cbn [effect fst snd].
  destruct (decide (e ∈ es)) as [He|He].
  - rewrite IH by done. by case_decide.
  - apply elem_of_cons in Hin as [->|Hin]; [|done].
    rewrite decide_True by done.
    apply effect_notin. by rewrite elem_asg_keys.
Qed.

Lemma imap_pair_snd {X : Type} (l : list X) : (imap pair l).*2 = l.
Proof.
  apply list_eq. intros i. rewrite list_lookup_fmap, list_lookup_imap.
  by destruct (l !! i).
Qed.

(** The store after the two write-back loops. *)
Lemma write_back_Ok s (u : list A) h h' :
  SpringFEASolver.write_back s u h = (h', Ok tt) ->
  Forall (fun x => x.1 < length u) (imap pair (SpringFEASolver.nodes s)) /\
  let h1 := mkHeap (assign_all (h_nodes h)
                      (node_asg u (imap pair (SpringFEASolver.nodes s)))) (h_elems h) in
  Forall (axial_ok h1 u) (SpringFEASolver.elements s) /\
  h' = mkHeap (h_nodes h1)
         (assign_all (h_elems h) (elem_asg h1 u (SpringFEASolver.elements s))).
Proof.
  unfold SpringFEASolver.write_back.
  destruct (for_each (SpringFEASolver.store_u u) _ h) as [ha [[]|e]] eqn:Hn; [|done].
  apply node_loop_Ok in Hn as [Hxs ->]. intros He.
  apply elem_loop_Ok in He as [Hes ->]. done.
Qed.

Lemma solve_Ok_write_back s h s' h' u R fr fx :
  SpringFEASolver.solve s h = (s', h', Ok (u, R, fr, fx)) ->
  SpringFEASolver.nodes s' = SpringFEASolver.nodes s /\
  SpringFEASolver.elements s' = SpringFEASolver.elements s /\
  length u = SpringFEASolver.n s' /\
  SpringFEASolver.write_back s' u h = (h', Ok tt).
Proof.
  intros Hs. pose proof (solve_frame s h) as (_ & Hn & He).
  rewrite Hs in Hn, He. cbn in Hn, He.
  apply solve_Ok_inv in Hs as [Hs _].
  apply solve_assembled_Ok in Hs as (_ & _ & _ & Hw & Hu).
  repeat split; try done.
  destruct Hu as [[_ ->] | [_ (uf & _ & ->)]];
    by rewrite !length_put, length_np_zeros.
Qed.

Lemma solve_stores_displacements s h s' h' u R fr fx :
  wf s -> NoDup (SpringFEASolver.nodes s) ->
  Forall (fun r => r < length (h_nodes h)) (SpringFEASolver.nodes s) ->
  SpringFEASolver.solve s h = (s', h', Ok (u, R, fr, fx)) ->
  (fun nd => Node.u (node_at h' nd)) <$> SpringFEASolver.nodes s' = u.
Proof.
  intros Hwf Hnd Hal Hs.
  pose proof (solve_Ok_wf _ _ _ _ _ Hwf Hs) as (Hn' & _).
  apply solve_Ok_write_back in Hs as (Hn & _ & Hu & Hw).
  apply write_back_Ok in Hw as (_ & _ & ->). rewrite Hn in *.
  apply list_eq. intros i. rewrite list_lookup_fmap.
  destruct (SpringFEASolver.nodes s !! i) as [r|] eqn:Hr; cbn.
  - assert (i < length u) as Hi by (apply lookup_lt_Some in Hr; lia).
    rewrite (list_lookup_lookup_total_lt u i) by done. f_equal.
    unfold node_at. cbn.
    assert (r < length (h_nodes h)) as Hrl.
    { rewrite Forall_forall in Hal. apply Hal. by eapply list_elem_of_lookup_2. }
    rewrite list_lookup_total_alt, lookup_assign_all.
    rewrite (list_lookup_lookup_total_lt (h_nodes h) r) by done. cbn.
    rewrite (effect_node_asg u _ i r); [done | by rewrite imap_pair_snd |].
    apply elem_of_lookup_imap. by exists i, r.
  - symmetry. apply lookup_ge_None. apply lookup_ge_None in Hr. lia.
Qed.

Lemma solve_stores_axial_forces s h s' h' u R fr fx :
  Forall (fun r => r < length (h_elems h)) (SpringFEASolver.elements s) ->
  SpringFEASolver.solve s h = (s', h', Ok (u, R, fr, fx)) ->
  (fun e => SpringElement.axial_force h' (elem_at h' e) u) <$> SpringFEASolver.elements s'
  = Ok <$> SpringFEASolver.element_forces s' h'.
Proof.
  intros Hal Hs.
  apply solve_Ok_write_back in Hs as (_ & He & _ & Hw).
  apply write_back_Ok in Hw as (_ & Hok & Hh). cbn zeta in *.
  set (h1 := mkHeap _ (h_elems h)) in *.
  assert (same_geometry h1 h') as Hg.
  { subst h'. apply same_geometry_assign_axial, elem_asg_setters. }
  unfold SpringFEASolver.element_forces. rewrite <- list_fmap_compose.
  apply list_fmap_ext. intros i e Hie. cbv beta delta [compose].
  assert (e ∈ SpringFEASolver.elements s') as Hin by (by eapply list_elem_of_lookup_2).
  rewrite (axial_force_same h1 h') by done.
  rewrite Forall_forall in Hok. destruct (Hok e Hin) as [v Hv]. rewrite Hv. f_equal.
  assert (e < length (h_elems h)) as Hel.
  { rewrite Forall_forall in Hal. apply Hal. by rewrite <- He. }
  subst h'. unfold elem_at at 1. cbn.
  rewrite list_lookup_total_alt, lookup_assign_all.
  rewrite (list_lookup_lookup_total_lt (h_elems h) e) by done. cbn.
  rewrite effect_elem_asg by done. cbn.
  unfold axial_val. by rewrite Hv.
Qed.

End StoredResults.

(** ** The branch without free DOFs *)

Section Masks.

Lemma where_from_all_true o n : np.where_from o (replicate n true) = seq o n.
Proof. revert o. induction n as [|n IH]; intros o; cbn; [done|]. by rewrite IH. Qed.

Lemma where_from_all_false o n : np.where_from o (replicate n false) = [].
Proof. revert o. induction n as [|n IH]; intros o; cbn; [done|]. by rewrite IH. Qed.

Lemma fmap_const_replicate {X Y : Type} (f : X -> Y) (l : list X) (y : Y) :
  Forall (fun x => f x = y) l -> f <$> l = replicate (length l) y.
Proof. induction 1 as [|x l Hx _ IH]; cbn; [done|]. by rewrite Hx, IH. Qed.

Lemma negb_replicate n b : negb <$> replicate n b = replicate n (negb b).
Proof. apply fmap_replicate. Qed.

End Masks.

Section AllFixed.
Context {A : Type} `{Num A} `{!LinalgSolve A}.

Lemma take_seq_all (v : list A) : np.take v (seq 0 (length v)) = v.
Proof.
  apply list_eq. intros i. unfold np.take. rewrite list_lookup_fmap.
  destruct (decide (i < length v)) as [Hi|Hi].
  - rewrite lookup_seq_lt by done. cbn. by rewrite (list_lookup_lookup_total_lt v i).
  - rewrite lookup_seq_ge by lia. cbn. symmetry. apply lookup_ge_None. lia.
Qed.

Lemma put_seq_all n (u vals : list A) :
  length u = n -> length vals = n -> np.put u (seq 0 n) vals = vals.
Proof.
  intros <- Hl.
  rewrite <- (take_seq_all (np.put u (seq 0 (length u)) vals)) at 1.
  rewrite length_put. apply take_put_same.
  - apply NoDup_seq.
  - apply Forall_forall. intros i Hi. apply elem_of_seq in Hi. lia.
  - by rewrite length_seq.
Qed.

Lemma ix_seq_all n (K : list (list A)) :
  square n K -> np.ix_ K (seq 0 n) (seq 0 n) = K.
Proof.
  intros [Hl Hr]. apply list_eq. intros i. unfold np.ix_. rewrite list_lookup_fmap.
  destruct (decide (i < n)) as [Hi|Hi].
  - rewrite lookup_seq_lt by done. cbn.
    rewrite (list_lookup_lookup_total_lt K i) by lia. f_equal.
    assert (length (K !!! i) = n) as Hrow by (by apply square_row).
    rewrite <- Hrow at 1. apply take_seq_all.
  - rewrite lookup_seq_ge by lia. cbn. symmetry. apply lookup_ge_None. lia.
Qed.

(** The arrays [assemble] stores. *)
Lemma assemble_Ok_arrays s h s' (K : list (list A)) :
  SpringFEASolver.assemble s h = (s', Ok K) ->
  SpringFEASolver.n s' = SpringFEASolver.n s /\
  SpringFEASolver.F_full s' =
    (fun nd => Node.force (node_at h nd)) <$> SpringFEASolver.nodes s /\
  SpringFEASolver.fixed s' =
    (fun nd => Node.fixed (node_at h nd)) <$> SpringFEASolver.nodes s /\
  SpringFEASolver.u_known s' = known_u h <$> SpringFEASolver.nodes s.
Proof.
  unfold SpringFEASolver.assemble.
  destruct (SpringFEASolver.scatter h _ _) as [K1|e]; [|done].
  by intros [= <- <-].
Qed.

End AllFixed.

Section AllFixedSolve.
Context {A : Type} `{Num A} `{!LinalgSolve A}.

Lemma solve_all_fixed s h :
  wf s -> in_bounds s h -> SpringFEASolver.still_zero s = true ->
  Forall (fun nd => Node.fixed (node_at h nd) = true) (SpringFEASolver.nodes s) ->
  exists s' h',
    let u := known_u h <$> SpringFEASolver.nodes s in
    SpringFEASolver.solve s h =
      (s', h', Ok (u,
                   np.vsub (np.matvec (SpringFEASolver.K_full s') u)
                           (SpringFEASolver.F_full s'),
                   [], seq 0 (length (SpringFEASolver.nodes s)))).
Proof.
  intros Hwf Hb Hz Hfix.
  unfold SpringFEASolver.solve. rewrite Hz.
  destruct (assemble_in_bounds s h Hb) as (s1 & K & Ha). rewrite Ha.
  assert (wf s1) as Hwf1 by (eapply wf_assemble; [apply Hwf | done]).
  pose proof (in_bounds_assemble _ _ _ _ Ha Hb) as Hb1.
  apply assemble_Ok_arrays in Ha as (Hn & HF & Hm & Hk).
  destruct Hwf as (Hlen & _).
  assert (SpringFEASolver.fixed s1 = replicate (SpringFEASolver.n s1) true) as Hmask.
  { rewrite Hm, Hn, Hlen. by apply fmap_const_replicate. }
  assert (free_idx s1 = []) as Hfree.
  { unfold free_idx, np.where_. rewrite Hmask, negb_replicate. apply where_from_all_false. }
  assert (fixed_idx s1 = seq 0 (SpringFEASolver.n s1)) as Hfixed.
  { unfold fixed_idx, np.where_. rewrite Hmask. apply where_from_all_true. }
  assert (u_full s1 [] = known_u h <$> SpringFEASolver.nodes s) as Hu.
  { unfold u_full, uc. rewrite Hfree, Hfixed. cbn [np.put zip foldl zip_with].
    destruct Hwf1 as (_ & _ & _ & _ & Hkl).
    assert (np.take (SpringFEASolver.u_known s1) (seq 0 (SpringFEASolver.n s1))
            = SpringFEASolver.u_known s1) as ->
      by (rewrite <- Hkl; apply take_seq_all).
    rewrite put_seq_all; [done | apply length_np_zeros | done]. }
  rewrite solve_assembled_unfold, decide_True by done.
  destruct (write_back_in_bounds s1 (u_full s1 []) h Hwf1 Hb1) as [h' Hw];
    [apply length_u_full|].
  rewrite Hw. exists s1, h'. cbn zeta.
  by rewrite Hu, Hfree, Hfixed, Hn, Hlen.
Qed.

End AllFixedSolve.

(** ** The entries of the assembled matrix *)

Section Entries.
Context {A : Type} `{NumRing A}.
Add Ring num_ring_entries : num_ring.
#[local] Arguments np.seq_sum : simpl never.

Lemma entry_stamps n (K : list (list A)) ts x y :
  square n K -> Forall (in_range n) ts ->
  (foldl stamp3 K ts !!! x) !!! y =
  nadd ((K !!! x) !!! y) (np.seq_sum ((fun t => contrib t.1.1 t.1.2 t.2 x y) <$> ts)).
Proof.
  revert K. induction ts as [|t ts IH]; intros K HK Hts; cbn [foldl fmap list_fmap].
  - rewrite sum_nil. ring.
  - apply Forall_cons in Hts as [[Ha Hb] Hts].
    rewrite IH by (by try apply square_stamp). unfold stamp3.
    rewrite (entry_stamp_contrib n) by done. rewrite sum_cons. ring.
Qed.

Lemma resolve_all_entries n h (es : list ref) ts x y :
  resolve_all (A:=A) n h es = Ok ts ->
  (fun t => contrib t.1.1 t.1.2 t.2 x y) <$> ts = elem_entry n h x y <$> es.
Proof.
  revert ts. induction es as [|e es IH]; intros ts; cbn [resolve_all].
  - by intros [= <-].
  - destruct (resolve n h e) as [t|] eqn:He; [|done].
    destruct (resolve_all n h es) as [ts'|]; [|done]. cbn.
    intros [= <-]. rewrite !fmap_cons. f_equal; [|by apply IH].
    by apply resolve_Ok_entry.
Qed.

Lemma assembled_entries (s s' : SpringFEASolver.t A) h (K : list (list A)) x y :
  SpringFEASolver.assemble s h = (s', Ok K) ->
  (K !!! x) !!! y =
  np.seq_sum (elem_entry (SpringFEASolver.n s) h x y <$> SpringFEASolver.elements s).
Proof.
  unfold SpringFEASolver.assemble.
  rewrite (scatter_resolve (SpringFEASolver.n s)) by apply square_zeros2.
  destruct (resolve_all _ h _) as [ts|e] eqn:Hts; cbn; [|done].
  intros [= _ <-].
  rewrite (entry_stamps (SpringFEASolver.n s));
    [|apply square_zeros2 | by eapply resolve_all_in_range].
  rewrite entry_zeros2, (resolve_all_entries _ _ _ _ x y Hts). ring.
Qed.

End Entries.

(** * Lemmas on the window *)

(** ** What [collect_model] builds *)

Section Collect.
Context {A : Type} `{Num A} `{!LinalgSolve A}.

Lemma bc_row_Ok (app : App.t A) r nodes nodes' :
  App.bc_row app r nodes = GOk nodes' ->
  length nodes' = length nodes /\
  (forall j, j <> r -> nodes' !! j = nodes !! j) /\
  (forall nd0, nodes !! r = Some nd0 ->
     exists nd, nodes' !! r = Some nd /\ row_node app r nd0 nd).
Proof.
  unfold App.bc_row.
  destruct (App.force_vars app !! r) as [[f|]|] eqn:Hf; [|done..].
  set (nodes1 := alter (fun nd => Node.set_force nd f) r nodes).
  assert (forall a b v nodes2,
    nodes2 = alter (fun nd => App.set_bc nd a b v) r nodes1 ->
    length nodes2 = length nodes /\
    (forall j, j <> r -> nodes2 !! j = nodes !! j) /\
    (forall nd0, nodes !! r = Some nd0 ->
       nodes2 !! r = Some (App.set_bc (Node.set_force nd0 f) a b v))) as Hset.
  { intros a b v nodes2 ->. unfold nodes1. split; [by rewrite !length_alter|]. split.
    - intros j Hj. by rewrite !list_lookup_alter_ne.
    - intros nd0 Hnd0. by rewrite !list_lookup_alter_eq, Hnd0. }
  unfold row_node, row_constrained.
  destruct (decide (App.bc_of app r = "Prescribed")) as [Hp|Hp].
  - destruct (App.u_val_vars app !! r) as [[v|]|] eqn:Hv; cbn; [|done..].
    rewrite decide_False by (by rewrite Hp).
    intros [= <-]. destruct (Hset true true v _ eq_refl) as (Hl & Hne & Heq).
    split; [done|]. split; [done|]. intros nd0 Hnd0. eexists. split; [by apply Heq|].
    cbn. rewrite !bool_decide_eq_true_2 by auto. done.
  - cbn. destruct (decide (App.bc_of app r = "Fixed")) as [Hx|Hx].
    + intros [= <-]. destruct (Hset true false n0 _ eq_refl) as (Hl & Hne & Heq).
      split; [done|]. split; [done|]. intros nd0 Hnd0. eexists. split; [by apply Heq|].
      cbn. rewrite bool_decide_eq_true_2 by auto.
      rewrite bool_decide_eq_false_2 by done. done.
    + intros [= <-]. destruct (Hset false false n0 _ eq_refl) as (Hl & Hne & Heq).
      split; [done|]. split; [done|]. intros nd0 Hnd0. eexists. split; [by apply Heq|].
      cbn. rewrite !bool_decide_eq_false_2 by tauto. done.
Qed.

Lemma bc_rows_Ok (app : App.t A) rs nodes nodes' :
  NoDup rs ->
  App.bc_loop app rs nodes = GOk nodes' ->
  length nodes' = length nodes /\
  (forall j, j ∉ rs -> nodes' !! j = nodes !! j) /\
  (forall j nd0, j ∈ rs -> nodes !! j = Some nd0 ->
     exists nd, nodes' !! j = Some nd /\ row_node app j nd0 nd).
Proof.
  revert nodes. induction rs as [|r rs IH]; intros nodes Hnd; cbn [App.bc_loop].
  - intros [= <-]. split; [done|]. split; [done|]. intros j nd0 Hj. by apply elem_of_nil in Hj.
  - apply NoDup_cons in Hnd as [Hr Hnd].
    destruct (App.bc_row app r nodes) as [nodes1|e] eqn:Hrow; cbn; [|done].
    intros Hloop. apply bc_row_Ok in Hrow as (Hl1 & Hne1 & Heq1).
    apply IH in Hloop as (Hl & Hne & Heq); [|done].
    split; [congruence|]. split.
    + intros j Hj. apply not_elem_of_cons in Hj as [Hjr Hj].
      by rewrite Hne, Hne1.
    + intros j nd0 Hj Hnd0. apply elem_of_cons in Hj as [->|Hj].
      * rewrite Hne by done. by apply Heq1.
      * apply Heq; [done|]. rewrite Hne1; [done|]. by intros ->.
Qed.

Lemma elem_row_Ok nN en (st st' : Heap A * list ref) :
  App.elem_row nN en st = GOk st' ->
  exists e,
    row_elem nN en e /\
    Node.id (node_at st.1 (Elem.i e)) <> Node.id (node_at st.1 (Elem.j e)) /\
    st' = (mkHeap (h_nodes st.1) (h_elems st.1 ++ [e]), st.2 ++ [length (h_elems st.1)]).
Proof.
  unfold App.elem_row. destruct en as [[[i|] [j|]] [k|]]; try done.
  case_decide as Hr; [done|].
  unfold SpringElement.init.
  case_decide as Hid; [done|].
  destruct (nleb k n0) eqn:Hk; [done|]. cbn.
  intros [= <-]. eexists. split; [|split; [|done]].
  - exists i, j, k. repeat split; try done; try lia.
    intros ->. done.
  - done.
Qed.

Lemma elem_rows_Ok nN entries (st st' : Heap A * list ref) :
  App.elem_loop nN entries st = GOk st' ->
  exists new,
    Forall2 (row_elem nN) entries new /\
    Forall (fun e => Node.id (node_at st.1 (Elem.i e)) <> Node.id (node_at st.1 (Elem.j e))) new /\
    h_nodes st'.1 = h_nodes st.1 /\
    h_elems st'.1 = h_elems st.1 ++ new /\
    st'.2 = st.2 ++ seq (length (h_elems st.1)) (length new).
Proof.
  revert st. induction entries as [|en entries IH]; intros st; cbn [App.elem_loop].
  - intros [= <-]. exists []. rewrite !app_nil_r. by repeat split.
  - destruct (App.elem_row nN en st) as [st1|e] eqn:Hrow; cbn; [|done].
    intros Hloop. apply elem_row_Ok in Hrow as (e & He & Hid & ->).
    apply IH in Hloop as (new & Hnew & Hids & Hn & Hel & Hrefs). cbn in *.
    exists (e :: new). split; [by constructor|]. split; [by constructor|].
    split; [done|]. split; [by rewrite Hel, <- app_assoc|].
    rewrite Hrefs, <- app_assoc, length_app. cbn.
    by rewrite Nat.add_1_r.
Qed.

(** What a successful [collect_model] returns. *)
Lemma collect_model_Ok (app : App.t A) h nodes elements :
  App.collect_model app = GOk (h, nodes, elements) ->
  exists nN,
    App.num_nodes_var app = Some nN /\
    nodes = seq 0 (Z.to_nat nN) /\
    length (h_nodes h) = Z.to_nat nN /\
    (forall r, r < Z.to_nat nN ->
       row_node app r (Node.init (Z.of_nat r + 1)) (node_at h r)) /\
    elements = seq 0 (length (h_elems h)) /\
    Forall2 (row_elem nN) (App.elem_entries app) (h_elems h) /\
    (existsb Node.fixed (h_nodes h) = false -> App.askyesno app = true).
Proof.
  unfold App.collect_model.
  destruct (App.num_nodes_var app) as [nN|]; [|done].
  set (n := Z.to_nat nN).
  destruct (App.bc_loop app (seq 0 n) _) as [nodes1|e] eqn:Hbc; cbn; [|done].
  destruct (App.elem_loop nN _ _) as [st|e] eqn:Hel; cbn; [|done].
  apply bc_rows_Ok in Hbc as (Hl & _ & Hrows); [|apply NoDup_seq].
  rewrite length_fmap, length_seq in Hl.
  apply elem_rows_Ok in Hel as (new & Hnew & _ & Hn & He & Hrefs). cbn in *.
  rewrite <- Hn. intros Hres.
  assert (h = st.1 /\ nodes = seq 0 n /\ elements = st.2 /\
          (existsb Node.fixed (h_nodes st.1) = false -> App.askyesno app = true))
    as (-> & -> & -> & Hask).
  { destruct (existsb Node.fixed (h_nodes st.1)); cbn in Hres.
    - by injection Hres as <- <- <-.
    - destruct (App.askyesno app); cbn in Hres; [|done]. by injection Hres as <- <- <-. }
  exists nN. split; [done|]. split; [done|]. split; [by rewrite Hn|].
  split; [|split; [by rewrite Hrefs, He | split; [by rewrite He | done]]].
  intros r Hr. unfold node_at. rewrite Hn.
  destruct (Hrows r (Node.init (Z.of_nat r + 1))) as (nd & Hnd & Hrow).
  - apply elem_of_seq. lia.
  - rewrite list_lookup_fmap, lookup_seq_lt by done. done.
  - by rewrite (list_lookup_total_correct _ _ _ Hnd).
Qed.

End Collect.

(** ** What [solve] can raise *)

Section SolveRaises.
Context {A : Type} `{Num A} `{!LinalgSolve A}.

Lemma solve_assembled_Raise s h h' e :
  wf s -> in_bounds s h ->
  SpringFEASolver.solve_assembled s h = (h', Raise e) -> e = ValueError_singular.
Proof.
  intros Hwf Hb. rewrite solve_assembled_unfold.
  destruct (decide (free_idx s = [])) as [Hfree|Hfree].
  - destruct (write_back_in_bounds s (u_full s []) h Hwf Hb) as [h1 ->];
      [apply length_u_full | done].
  - destruct (linalg_solve (Kff s) (rhs s)) as [uf|]; [|by intros [= _ <-]].
    destruct (write_back_in_bounds s (u_full s uf) h Hwf Hb) as [h1 ->];
      [apply length_u_full | done].
Qed.

Lemma solve_Raise s h e :
  wf s -> in_bounds s h ->
  (SpringFEASolver.solve s h).2 = Raise e -> e = ValueError_singular.
Proof.
  intros Hwf Hb. unfold SpringFEASolver.solve.
  destruct (SpringFEASolver.still_zero s).
  - destruct (assemble_in_bounds s h Hb) as (s1 & K & Ha). rewrite Ha.
    assert (wf s1) as Hwf1 by (eapply wf_assemble; [apply Hwf | done]).
    pose proof (in_bounds_assemble _ _ _ _ Ha Hb) as Hb1.
    destruct (SpringFEASolver.solve_assembled s1 h) as [h' r] eqn:Hs. cbn.
    intros ->. by eapply solve_assembled_Raise.
  - destruct (SpringFEASolver.solve_assembled s h) as [h' r] eqn:Hs. cbn.
    intros ->. by eapply solve_assembled_Raise.
Qed.

Lemma solve_n s h :
  SpringFEASolver.n (SpringFEASolver.solve s h).1.1 = SpringFEASolver.n s.
Proof.
  unfold SpringFEASolver.solve. destruct (SpringFEASolver.still_zero s).
  - pose proof (assemble_lists s h) as (_ & _ & Hn).
    destruct (SpringFEASolver.assemble s h) as [s1 [K|e]]; [|done].
    by destruct (SpringFEASolver.solve_assembled s1 h).
  - by destruct (SpringFEASolver.solve_assembled s h).
Qed.

Lemma dofs_in_range_same n (h h' : Heap A) e :
  same_geometry h h' -> dofs_in_range n h e -> dofs_in_range n h' e.
Proof. intros Hg. unfold dofs_in_range. by rewrite (connectivity_same h h'). Qed.

Lemma nodal_actions_in_range h (e : ref) (u : list A) :
  dofs_in_range (length u) h e ->
  exists f, SpringElement.nodal_actions h (elem_at h e) u = Ok f.
Proof.
  unfold dofs_in_range, SpringElement.nodal_actions, np.getitem.
  destruct (SpringElement.connectivity h (elem_at h e)) as [ii jj].
  intros [Hi Hj].
  apply index_Ok_iff in Hi as [a ->]. apply index_Ok_iff in Hj as [b ->].
  cbn. eauto.
Qed.

End SolveRaises.

(** ** The model the window builds *)

Section CollectedModel.
Context {A : Type} `{Num A} `{!LinalgSolve A}.

Lemma end_forces_in_range h (u : list A) es :
  Forall (dofs_in_range (length u) h) es ->
  exists fs, App.end_forces h u es = Ok fs.
Proof.
  induction 1 as [|e es He _ [fs IH]]; cbn [App.end_forces]; [eauto|].
  destruct (nodal_actions_in_range h e u He) as [f ->]. rewrite IH. cbn. eauto.
Qed.

Lemma collect_model_dofs (app : App.t A) h nodes elements :
  App.collect_model app = GOk (h, nodes, elements) ->
  Forall (dofs_in_range (length nodes) h) elements.
Proof.
  intros Hc. apply collect_model_Ok in Hc
    as (nN & _ & -> & Hl & Hrows & -> & Hel & _).
  rewrite length_seq. apply Forall_forall. intros e He.
  apply elem_of_seq in He as [_ He]. cbn in He.
  destruct (lookup_lt_is_Some_2 (h_elems h) e He) as [x Hx].
  destruct (Forall2_lookup_r _ _ _ _ _ Hel Hx) as (en & _ & Hrow).
  destruct Hrow as (i & j & k & -> & Hi & Hj & _ & _ & ->).
  unfold dofs_in_range, SpringElement.connectivity, elem_at.
  rewrite (list_lookup_total_correct _ _ _ Hx). cbn.
  destruct (Hrows (Z.to_nat (i - 1))) as (_ & Hdi & _); [lia|].
  destruct (Hrows (Z.to_nat (j - 1))) as (_ & Hdj & _); [lia|].
  unfold node_at in Hdi, Hdj. rewrite Hdi, Hdj. cbn. lia.
Qed.

Lemma collect_model_in_bounds (app : App.t A) h nodes elements :
  App.collect_model app = GOk (h, nodes, elements) ->
  in_bounds (SpringFEASolver.init nodes elements) h.
Proof.
  intros Hc. apply resolve_all_Ok_iff. cbn. by eapply collect_model_dofs.
Qed.

Lemma collect_model_Raise (app : App.t A) e :
  App.collect_model app = GRaise (Solver e) -> InvalidElement e.
Proof.
  unfold App.collect_model.
  destruct (App.num_nodes_var app) as [nN|]; [|done].
  destruct (App.bc_loop app _ _) as [nodes1|e1] eqn:Hbc; cbn.
  - destruct (App.elem_loop nN _ _) as [st|e2] eqn:Hel; cbn.
    + destruct (existsb _ _); cbn; [done|]. by destruct (App.askyesno app).
    + intros [= ->]. clear Hbc. revert Hel.
      generalize (mkHeap nodes1 [], @nil nat).
      induction (App.elem_entries app) as [|en ens IH]; intros st; cbn [App.elem_loop];
        [done|].
      destruct (App.elem_row nN en st) as [st1|e3] eqn:Hrow; cbn; [by apply IH|].
      intros [= ->]. revert Hrow. unfold App.elem_row.
      destruct en as [[[i|] [j|]] [k|]]; try done.
      case_decide; [done|]. unfold SpringElement.init.
      case_decide; [by intros [= <-]|].
      destruct (nleb k n0); [by intros [= <-]|]. done.
  - intros [= ->]. exfalso. revert Hbc.
    generalize ((fun i : nat => Node.init (A:=A) (Z.of_nat i + 1)) <$> seq 0 (Z.to_nat nN)).
    induction (seq 0 (Z.to_nat nN)) as [|r rs IH]; intros nodes; cbn [App.bc_loop]; [done|].
    destruct (App.bc_row app r nodes) as [nodes2|e3] eqn:Hrow; cbn; [by apply IH|].
    intros [= ->]. revert Hrow. unfold App.bc_row.
    destruct (App.force_vars app !! r) as [[f|]|]; [|done..].
    destruct (decide (App.bc_of app r = "Prescribed")).
    + destruct (App.u_val_vars app !! r) as [[v|]|]; cbn; [|done..].
      repeat case_decide; done.
    + cbn. repeat case_decide; done.
Qed.

(** The [try] block after [collect_model] has returned. *)
Lemma compute_collected (app : App.t A) h nodes elements :
  App.collect_model app = GOk (h, nodes, elements) ->
  exists s1 K,
    SpringFEASolver.assemble (SpringFEASolver.init nodes elements) h = (s1, Ok K) /\
    wf s1 /\ in_bounds s1 h /\
    SpringFEASolver.n s1 = length nodes /\
    match SpringFEASolver.solve s1 h with
    | (s2, h2, Ok (u, R, fr, fx)) =>
        exists eef,
          App.end_forces h2 u elements = Ok eef /\
          App.compute app =
            GOk (App.mk_results h2 nodes elements K u R fr fx
                   (SpringFEASolver.element_forces s2 h2) eef)
    | (_, _, Raise e) =>
        e = ValueError_singular /\ App.compute app = GRaise (Solver ValueError_singular)
    end.
Proof.
  intros Hc. pose proof (collect_model_in_bounds _ _ _ _ Hc) as Hb.
  pose proof (collect_model_dofs _ _ _ _ Hc) as Hd.
  destruct (assemble_in_bounds _ h Hb) as (s1 & K & Ha).
  assert (wf s1) as Hwf1 by (eapply wf_assemble; [|done]; done).
  pose proof (in_bounds_assemble _ _ _ _ Ha Hb) as Hb1.
  pose proof (assemble_lists (SpringFEASolver.init nodes elements) h) as (_ & _ & Hn).
  rewrite Ha in Hn. cbn in Hn.
  exists s1, K. split; [done|]. split; [done|]. split; [done|]. split; [done|].
  unfold App.compute. rewrite Hc. cbn. rewrite Ha. cbn.
  destruct (SpringFEASolver.solve s1 h) as [[s2 h2] [[[[u R] fr] fx]|e]] eqn:Hs; cbn.
  - pose proof (solve_frame s1 h) as (Hsame & _). rewrite Hs in Hsame. cbn in Hsame.
    assert (SpringFEASolver.n s2 = SpringFEASolver.n s1) as Hn2.
    { pose proof (solve_n s1 h) as Hst. by rewrite Hs in Hst. }
    apply solve_Ok_write_back in Hs as (_ & _ & Hu & _).
    destruct (end_forces_in_range h2 u elements) as [eef Heef].
    { rewrite Hu, Hn2, Hn. eapply Forall_impl; [exact Hd|].
      intros e. apply dofs_in_range_same. by apply same_inputs_geometry. }
    exists eef. split; [done|]. by rewrite Heef.
  - pose proof (solve_Raise s1 h e Hwf1 Hb1) as He. rewrite Hs in He. cbn in He.
    by rewrite (He eq_refl).
Qed.

End CollectedModel.

(** ** The [try] block of [solve_model] *)

Section GuiErrors.
Context {A : Type} `{Num A} `{!LinalgSolve A}.

Lemma compute_Raise (app : App.t A) e :
  App.compute app = GRaise (Solver e) ->
  (InvalidElement e /\ App.collect_model app = GRaise (Solver e)) \/
  (StructuralSingularity e /\ exists m, App.collect_model app = GOk m).
Proof.
  destruct (App.collect_model app) as [[[h nodes] elements]|e1] eqn:Hc.
  - destruct (compute_collected app h nodes elements Hc) as (s1 & K & _ & _ & _ & _ & Hs).
    destruct (SpringFEASolver.solve s1 h) as [[s2 h2] [[[[u R] fr] fx]|e2]].
    + destruct Hs as (eef & _ & ->). done.
    + destruct Hs as (-> & ->). intros [= <-]. right. split; [done | eauto].
  - unfold App.compute. rewrite Hc. cbn. intros [= ->]. left.
    split; [by apply (collect_model_Raise app) | done].
Qed.

End GuiErrors.

Section GuiDisplayed.
Context {A : Type} `{NumRing A} `{!LinalgSolve A}.

Lemma end_forces_Ok h (u : list A) es eef :
  App.end_forces h u es = Ok eef ->
  (fun e => SpringElement.nodal_actions h (elem_at h e) u) <$> es = Ok <$> eef.
Proof.
  revert eef. induction es as [|e es IH]; intros eef; cbn [App.end_forces].
  - by intros [= <-].
  - destruct (SpringElement.nodal_actions h (elem_at h e) u) as [f|] eqn:Hf; [|done].
    destruct (App.end_forces h u es) as [fs|]; [|done].
    cbn -[SpringElement.nodal_actions]. intros [= <-]. rewrite !fmap_cons. cbv beta. rewrite Hf. f_equal. by apply IH.
Qed.

#[local] Instance Ok_inj {T : Type} : Inj (=) (=) (@Ok T).
Proof. by intros x y [= ->]. Qed.

Lemma compute_Ok (app : App.t A) r :
  App.compute app = GOk r ->
  App.r_elem_end_forces r = (fun f => (nopp f, f)) <$> App.r_elem_forces r /\
  (fun nd => Node.u (node_at (App.r_store r) nd)) <$> App.r_nodes r = App.r_u r.
Proof.
  destruct (App.collect_model app) as [[[h nodes] elements]|e1] eqn:Hc;
    [|unfold App.compute; by rewrite Hc].
  destruct (compute_collected app h nodes elements Hc) as (s1 & K & Ha & Hwf & _ & _ & Hs).
  apply collect_model_Ok in Hc as (nN & _ & -> & Hl & _ & -> & _).
  apply assemble_Ok_fields in Ha as (_ & Hn1 & He1).
  destruct (SpringFEASolver.solve s1 h) as [[s2 h2] [[[[u R] fr] fx]|e2]] eqn:Hsol;
    [|destruct Hs as [_ ->]; done].
  destruct Hs as (eef & Heef & ->). intros [= <-]. cbn in Hn1, He1. cbn [App.r_elem_end_forces
    App.r_elem_forces App.r_store App.r_nodes App.r_u].
  pose proof (solve_frame s1 h) as (_ & Hn2 & He2). rewrite Hsol in Hn2, He2.
  cbn in Hn2, He2. split.
  - apply end_forces_Ok in Heef.
    assert ((fun e => SpringElement.axial_force h2 (elem_at h2 e) u)
              <$> seq 0 (length (h_elems h))
            = Ok <$> SpringFEASolver.element_forces s2 h2) as Hax.
    { rewrite <- He1, <- He2.
      apply (solve_stores_axial_forces s1 h s2 h2 u R fr fx); [|done].
      rewrite He1. apply Forall_forall. intros e Hin. apply elem_of_seq in Hin. lia. }
    apply (inj (fmap Ok)).
    rewrite <- Heef, <- list_fmap_compose.
    transitivity ((fun r : result A => f ← r; Ok (nopp f, f)) <$>
                  (Ok <$> SpringFEASolver.element_forces s2 h2)).
    + rewrite <- Hax. rewrite <- list_fmap_compose. apply list_fmap_ext.
      intros i e _. cbv beta delta [compose]. apply nodal_actions_axial.
    + by rewrite <- list_fmap_compose.
  - rewrite <- Hn1, <- Hn2.
    apply (solve_stores_displacements s1 h s2 h2 u R fr fx); [done | | | done].
    + rewrite Hn1. apply NoDup_seq.
    + rewrite Hn1. apply Forall_forall. intros r Hin. apply elem_of_seq in Hin. lia.
Qed.

End GuiDisplayed.

(** ** When [solve_model] returns without a message *)

Section Aborted.
Context {A : Type} `{Num A} `{!LinalgSolve A}.

Lemma bc_rows_Raise (app : App.t A) rs nodes e :
  App.bc_loop app rs nodes = GRaise e -> e = ValueError_forces \/ e = ValueError_prescribed.
Proof.
  revert nodes. induction rs as [|r rs IH]; intros nodes; cbn [App.bc_loop]; [done|].
  destruct (App.bc_row app r nodes) as [nodes2|e3] eqn:Hrow; cbn; [by apply IH|].
  intros [= ->]. revert Hrow. unfold App.bc_row.
  destruct (App.force_vars app !! r) as [[f|]|]; [|intros [= <-]; by left..].
  destruct (decide (App.bc_of app r = "Prescribed")).
  - destruct (App.u_val_vars app !! r) as [[v|]|]; cbn; [|intros [= <-]; by right..].
    repeat case_decide; done.
  - cbn. repeat case_decide; done.
Qed.

Lemma elem_rows_Raise nN entries (st : Heap A * list ref) e :
  App.elem_loop nN entries st = GRaise e -> e <> RuntimeError_aborted.
Proof.
  revert st. induction entries as [|en ens IH]; intros st; cbn [App.elem_loop]; [done|].
  destruct (App.elem_row nN en st) as [st1|e3] eqn:Hrow; cbn; [by apply IH|].
  intros [= ->]. revert Hrow. unfold App.elem_row.
  destruct en as [[[i|] [j|]] [k|]]; try (by intros [= <-]).
  case_decide; [by intros [= <-]|].
  destruct (SpringElement.init st.1 _ _ k) as [h1 [r|x]]; [done | by intros [= <-]].
Qed.

Lemma collect_model_aborted (app : App.t A) :
  App.collect_model app = GRaise RuntimeError_aborted ->
  App.askyesno app = false /\
  exists nN, App.num_nodes_var app = Some nN /\
             forall r, r < Z.to_nat nN -> ~ row_constrained app r.
Proof.
  unfold App.collect_model.
  destruct (App.num_nodes_var app) as [nN|]; [|done].
  destruct (App.bc_loop app _ _) as [nodes1|e1] eqn:Hbc; cbn.
  - destruct (App.elem_loop nN _ _) as [st|e2] eqn:Hel; cbn.
    + destruct (existsb Node.fixed nodes1) eqn:Hex; cbn; [done|].
      destruct (App.askyesno app); cbn; [done|]. intros _. split; [done|].
      exists nN. split; [done|]. intros r Hr Hc.
      apply bc_rows_Ok in Hbc as (Hl & _ & Hrows); [|apply NoDup_seq].
      destruct (Hrows r (Node.init (Z.of_nat r + 1))) as (nd & Hnd & Hrow).
      * apply elem_of_seq. lia.
      * by rewrite list_lookup_fmap, lookup_seq_lt.
      * destruct Hrow as (_ & _ & _ & _ & Hfix & _).
        rewrite bool_decide_eq_true_2 in Hfix by done.
        assert (existsb Node.fixed nodes1 = true) as Hex'.
        { apply existsb_exists. exists nd. split; [|done].
          apply list_elem_of_In. by eapply list_elem_of_lookup_2. }
        congruence.
    + intros [= ->]. by apply elem_rows_Raise in Hel.
  - intros [= ->]. by apply bc_rows_Raise in Hbc as [|].
Qed.

Lemma solve_model_Returned (app : App.t A) :
  App.solve_model app = App.Returned ->
  App.collect_model app = GRaise RuntimeError_aborted.
Proof.
  unfold App.solve_model, App.compute.
  destruct (App.collect_model app) as [m|e] eqn:Hc; cbn.
  - destruct (SpringFEASolver.assemble _ _).2 as [K|x]; cbn; [|done].
    destruct (SpringFEASolver.solve _ _).2 as [out|x]; cbn; [|done].
    destruct (App.end_forces _ _ _) as [eef|x]; cbn; done.
  - by destruct e.
Qed.

End Aborted.

(** ** The tracks of the sketch *)

Section SketchTracks.

Lemma filter_above_lt (t : nat) (used : list nat) :
  t ∈ used ->
  length (filter (fun x => S t <= x) used) < length (filter (fun x => t <= x) used).
Proof.
  induction used as [|x used IH]; intros Hin; [by apply elem_of_nil in Hin|].
  rewrite !filter_cons.
  assert (length (filter (fun x => S t <= x) used) <= length (filter (fun x => t <= x) used))
    as Hle.
  { clear. induction used as [|y used IH]; [done|]. rewrite !filter_cons.
    repeat case_decide; cbn; lia. }
  apply elem_of_cons in Hin as [<-|Hin].
  - rewrite decide_False by lia. rewrite decide_True by lia. cbn. lia.
  - specialize (IH Hin). repeat case_decide; cbn; lia.
Qed.

Lemma first_unused_spec fuel t used :
  length (filter (fun x => t <= x) used) < fuel ->
  (Sketch.first_unused fuel t used ∉ used) /\
  t <= Sketch.first_unused fuel t used /\
  (forall x, t <= x < Sketch.first_unused fuel t used -> x ∈ used).
Proof.
  revert t. induction fuel as [|fuel IH]; intros t Hf; [lia|].
  cbn [Sketch.first_unused]. case_bool_decide as Hin.
  - destruct (IH (S t)) as (Hnotin & Hle & Hbelow).
    { pose proof (filter_above_lt t used Hin). lia. }
    split; [done|]. split; [lia|]. intros x Hx.
    destruct (decide (x = t)) as [->|]; [done|]. apply Hbelow. lia.
  - split; [done|]. split; [lia|]. intros x Hx. lia.
Qed.

Lemma first_unused_pick used :
  let t := Sketch.first_unused (S (length used)) 0 used in
  (t ∉ used) /\ forall x, x < t -> x ∈ used.
Proof.
  destruct (first_unused_spec (S (length used)) 0 used) as (H1 & _ & H3).
  { pose proof (length_filter (fun x => 0 <= x) used). lia. }
  split; [done|]. intros x Hx. apply H3. lia.
Qed.

Lemma elem_of_used_by elems tracks e_idx e t :
  t ∈ Sketch.used_by elems tracks e_idx e <->
  exists p, p < e_idx /\ conflict e (elems !!! p) /\ tracks !!! p = t.
Proof.
  unfold Sketch.used_by.
  set (step := fun (used : list nat) (p_idx : nat) =>
           let p := elems !!! p_idx in
           let used := if Sketch.shares e p then tracks !!! p_idx :: used else used in
           if Sketch.overlaps e p then tracks !!! p_idx :: used else used).
  assert (forall used n,
    t ∈ step used n <-> (t ∈ used \/ (conflict e (elems !!! n) /\ tracks !!! n = t)))
    as Hstep.
  { intros used n. unfold step, conflict. cbn zeta.
    destruct (Sketch.overlaps e (elems !!! n)), (Sketch.shares e (elems !!! n));
      rewrite ?elem_of_cons; intuition congruence. }
  assert (forall n acc,
    t ∈ foldl step acc (seq 0 n)
    <-> (t ∈ acc \/ exists p, p < n /\ conflict e (elems !!! p) /\ tracks !!! p = t)) as Hgen.
  { induction n as [|n IH]; intros acc.
    - cbn. split; [auto|]. intros [?|(p & ? & _)]; [done | lia].
    - rewrite seq_S, foldl_app. cbn [foldl]. rewrite Hstep, IH. split.
      + intros [[?|(p & ? & ?)]|[? ?]]; [by left | right; exists p | right; exists n];
          (split; [lia | done]).
      + intros [?|(p & Hp & Hc & Ht)]; [by left; left|].
        destruct (decide (p = n)) as [->|]; [by right|].
        left; right. exists p. split; [lia | done]. }
  rewrite Hgen. split; [|auto]. intros [Hnil|?]; [|done]. by apply elem_of_nil in Hnil.
Qed.

(** The tracks after the first [m] springs have been placed. *)
Lemma assign_tracks_prefix elems m :
  m <= length elems ->
  let tracks := foldl (Sketch.place elems) [] (imap pair (take m elems)) in
  length tracks = m /\
  forall e, e < m ->
    tracks !!! e <= e /\
    (forall p, p < e -> conflict (elems !!! e) (elems !!! p) -> tracks !!! p <> tracks !!! e) /\
    (forall t, t < tracks !!! e ->
       exists p, p < e /\ conflict (elems !!! e) (elems !!! p) /\ tracks !!! p = t).
Proof.
  induction m as [|m IH]; intros Hm; cbn zeta.
  - rewrite take_0. cbn. split; [done|]. intros e He. lia.
  - destruct (lookup_lt_is_Some_2 elems m) as [x Hx]; [lia|].
    rewrite (take_S_r _ _ _ Hx), imap_app, foldl_app. cbn [imap foldl].
    rewrite list.length_take, Nat.min_l, Nat.add_0_r by lia.
    destruct IH as [Hl IH]; [lia|].
    set (tracks := foldl (Sketch.place elems) [] (imap pair (take m elems))) in *.
    unfold Sketch.place. cbn [fst snd].
    set (used := Sketch.used_by elems tracks m x).
    destruct (first_unused_pick used) as [Hnot Hbelow]. cbn zeta in Hnot, Hbelow.
    set (t0 := Sketch.first_unused (S (length used)) 0 used) in *.
    assert (elems !!! m = x) as Hxm by (by apply list_lookup_total_correct).
    assert (forall p, p < m -> (tracks ++ [t0]) !!! p = tracks !!! p) as Hold.
    { intros p Hp. rewrite !list_lookup_total_alt, lookup_app_l by lia. done. }
    assert ((tracks ++ [t0]) !!! m = t0) as Hnew.
    { rewrite list_lookup_total_alt, lookup_app_r by lia.
      by rewrite Hl, Nat.sub_diag. }
    split; [rewrite length_app; cbn; lia|].
    intros e He. destruct (decide (e = m)) as [->|Hem].
    + rewrite Hnew, Hxm. split; [|split].
      * destruct (decide (t0 <= m)) as [|Hgt]; [done|]. exfalso.
        assert (m ∈ used) as Hin by (apply Hbelow; lia).
        apply elem_of_used_by in Hin as (p & Hp & _ & Ht).
        destruct (IH p Hp) as (Hle & _). lia.
      * intros p Hp Hc. rewrite Hold by done. intros Heq. apply Hnot.
        apply elem_of_used_by. by exists p.
      * intros t Ht. apply Hbelow, elem_of_used_by in Ht as (p & Hp & Hc & Hpt).
        exists p. rewrite Hold by done. done.
    + assert (e < m) as He' by lia. destruct (IH e He') as (Hle & Hdiff & Hfit).
      rewrite Hold by done. split; [done|]. split.
      * intros p Hp Hc. rewrite Hold by lia. by apply Hdiff.
      * intros t Ht. destruct (Hfit t Ht) as (p & Hp & Hc & Hpt).
        exists p. rewrite Hold by lia. done.
Qed.

Lemma assign_tracks_spec elems :
  let tracks := Sketch.assign_tracks elems in
  length tracks = length elems /\
  forall e, e < length elems ->
    tracks !!! e <= e /\
    (forall p, p < e -> conflict (elems !!! e) (elems !!! p) -> tracks !!! p <> tracks !!! e) /\
    (forall t, t < tracks !!! e ->
       exists p, p < e /\ conflict (elems !!! e) (elems !!! p) /\ tracks !!! p = t).
Proof.
  pose proof (assign_tracks_prefix elems (length elems) (Nat.le_refl _)) as Hp.
  rewrite firstn_all in Hp. exact Hp.
Qed.

Lemma track_to_level_abs t : Z.abs (Sketch.track_to_level t) = Z.of_nat ((t + 1) / 2).
Proof.
  unfold Sketch.track_to_level. destruct (decide (t = 0)) as [->|Ht]; [done|].
  case_decide; lia.
Qed.

Lemma track_to_level_sign t :
  (0 < Sketch.track_to_level t)%Z <-> t mod 2 = 1.
Proof.
  unfold Sketch.track_to_level. destruct (decide (t = 0)) as [->|Ht]; [cbn; lia|].
  assert (1 <= (t + 1) / 2) by (apply Nat.div_le_lower_bound; lia).
  case_decide; split; intros; try done; lia.
Qed.

Lemma track_to_level_inj t t' :
  Sketch.track_to_level t = Sketch.track_to_level t' -> t = t'.
Proof.
  intros Heq.
  pose proof (track_to_level_abs t) as Ha. pose proof (track_to_level_abs t') as Ha'.
  pose proof (track_to_level_sign t) as Hs. pose proof (track_to_level_sign t') as Hs'.
  rewrite Heq in Ha, Hs.
  assert ((t + 1) / 2 = (t' + 1) / 2) as Hd by lia.
  assert (t mod 2 = t' mod 2) as Hm.
  { pose proof (Nat.mod_upper_bound t 2). pose proof (Nat.mod_upper_bound t' 2).
    destruct (decide (t mod 2 = 1)) as [H1|H1].
    - apply Hs, Hs' in H1. lia.
    - destruct (decide (t' mod 2 = 1)) as [H2|H2]; [|lia].
      apply Hs' in H2. apply Hs in H2. lia. }
  pose proof (Nat.div_mod_eq t 2). pose proof (Nat.div_mod_eq t' 2).
  pose proof (Nat.div_mod_eq (t + 1) 2). pose proof (Nat.div_mod_eq (t' + 1) 2).
  pose proof (Nat.mod_upper_bound (t + 1) 2). pose proof (Nat.mod_upper_bound (t' + 1) 2).
  pose proof (Nat.mod_upper_bound t 2). pose proof (Nat.mod_upper_bound t' 2).
  assert ((t + 1) mod 2 = (t' + 1) mod 2) as Hm1.
  { rewrite <- (Nat.Div0.add_mod_idemp_l t), <- (Nat.Div0.add_mod_idemp_l t'). by rewrite Hm. }
  lia.
Qed.

End SketchTracks.

Section SketchSpans.
Context {A : Type}.

Lemma elems_loop_spans nN (entries : list (option Z * option Z * option A)) acc elems :
  Sketch.elems_loop nN entries acc = Some elems ->
  Forall (span_ok nN) acc -> Forall (span_ok nN) elems.
Proof.
  revert acc. induction entries as [|[[[i|] [j|]] k] entries IH]; intros acc; cbn; try done.
  - by intros [= <-].
  - case_decide as Hr; [apply IH|].
    destruct (decide (i - 1 < j - 1)%Z) as [Hlt|Hlt]; intros Hl Hacc;
      (eapply IH; [exact Hl|]); apply Forall_app; (split; [done|]);
      apply Forall_singleton; unfold span_ok; cbn; lia.
Qed.

Lemma elems_of_spans nN (entries : list (option Z * option Z * option A)) :
  Forall (span_ok nN) (Sketch.elems_of nN entries).
Proof.
  unfold Sketch.elems_of.
  destruct (Sketch.elems_loop nN entries []) as [elems|] eqn:Hl; [|constructor].
  by eapply elems_loop_spans.
Qed.

End SketchSpans.

(** ** Comparisons with NaN *)

Section NotANumber.

Lemma SFcompare_refl x : x <> S754_nan -> SFcompare x x = Some Eq.
Proof.
  destruct x as [[]|[]| |[] m e]; cbn; try done.
  - intros _. by rewrite Z.compare_refl, Pos.compare_cont_refl.
  - intros _. by rewrite Z.compare_refl, Pos.compare_cont_refl.
Qed.

Lemma leb_nan (k x : float) : PrimFloat.is_nan k = true -> PrimFloat.leb k x = false.
Proof.
  unfold PrimFloat.is_nan. rewrite FloatAxioms.eqb_spec, FloatAxioms.leb_spec. intros Hk. unfold SFleb.
  destruct (Prim2SF k) as [z|i| |sg m e] eqn:Hp; [| |done|];
    unfold SFeqb in Hk; by rewrite SFcompare_refl in Hk.
Qed.

End NotANumber.

(** * Further properties of the code *)

(** ** The solver, [fea_core.py] *)

(** X1: the two end forces [nodal_actions] returns are opposite, and the
    second one is the axial force that [axial_force] returns for the same
    displacement vector; one method raises exactly when the other does. *)
Theorem X1_end_forces_opposite {A : Type} `{NumRing A}
    (h : Heap A) (e : Elem.t A) (u : list A) :
  SpringElement.nodal_actions h e u =
  (f ← SpringElement.axial_force h e u; Ok (nopp f, f)).
Proof. apply nodal_actions_axial. Qed.

(** X2: after a successful [solve] over a list of distinct nodes, the
    field [u] of the node at position [i] of the list holds entry [i] of
    the returned displacement vector. *)
Theorem X2_solve_stores_displacements {A : Type} `{Num A} `{!LinalgSolve A}
    (s s' : SpringFEASolver.t A) (h h' : Heap A) (u R : list A) (fr fx : list nat) :
  wf s ->
  NoDup (SpringFEASolver.nodes s) ->
  Forall (fun r => r < length (h_nodes h)) (SpringFEASolver.nodes s) ->
  SpringFEASolver.solve s h = (s', h', Ok (u, R, fr, fx)) ->
  (fun nd => Node.u (node_at h' nd)) <$> SpringFEASolver.nodes s' = u.
Proof. apply solve_stores_displacements. Qed.

Lemma X2_witness :
  exists s' h' u R fr fx,
    SpringFEASolver.solve chain3_solver chain3 = (s', h', Ok (u, R, fr, fx)) /\
    (fun nd => Node.u (node_at h' nd)) <$> SpringFEASolver.nodes s' = u.
Proof.
  destruct (SpringFEASolver.solve chain3_solver chain3)
    as [[s' h'] [[[[u R] fr] fx]|e]] eqn:Hs.
  - exists s', h', u, R, fr, fx. split; [done|].
    apply (X2_solve_stores_displacements chain3_solver s' chain3 h' u R fr fx);
      [apply wf_init | | | exact Hs].
    + cbn. apply (NoDup_seq 0 3).
    + cbn. repeat constructor.
  - vm_compute in Hs. discriminate Hs.
Defined.

(** X3: after a successful [solve], [element_forces] lists, element by
    element, the axial force [k (u_j - u_i)] of the returned displacement
    vector. *)
Theorem X3_element_forces_of_solution {A : Type} `{Num A} `{!LinalgSolve A}
    (s s' : SpringFEASolver.t A) (h h' : Heap A) (u R : list A) (fr fx : list nat) :
  Forall (fun r => r < length (h_elems h)) (SpringFEASolver.elements s) ->
  SpringFEASolver.solve s h = (s', h', Ok (u, R, fr, fx)) ->
  (fun e => SpringElement.axial_force h' (elem_at h' e) u) <$> SpringFEASolver.elements s'
  = Ok <$> SpringFEASolver.element_forces s' h'.
Proof. apply solve_stores_axial_forces. Qed.

Lemma X3_witness :
  exists s' h' u R fr fx,
    SpringFEASolver.solve chain3_solver chain3 = (s', h', Ok (u, R, fr, fx)) /\
    (fun e => SpringElement.axial_force h' (elem_at h' e) u) <$> SpringFEASolver.elements s'
    = Ok <$> SpringFEASolver.element_forces s' h'.
Proof.
  destruct (SpringFEASolver.solve chain3_solver chain3)
    as [[s' h'] [[[[u R] fr] fx]|e]] eqn:Hs.
  - exists s', h', u, R, fr, fx. split; [done|].
    apply (X3_element_forces_of_solution chain3_solver s' chain3 h' u R fr fx);
      [|exact Hs].
    cbn. repeat constructor.
  - vm_compute in Hs. discriminate Hs.
Defined.

(** X4: when every node is constrained and the stored matrix sums to
    zero, so that [solve] assembles first (as on a solver just
    constructed), [solve] succeeds whatever the arithmetic and the linear
    solver do, provided the DOF indices of the elements are in range: the
    displacement vector holds the prescribed value of each prescribed node
    and zero for each fixed one, the reactions are [K u - F], no index is
    free and every index is fixed. *)
Theorem X4_all_nodes_constrained {A : Type} `{Num A} `{!LinalgSolve A}
    (s : SpringFEASolver.t A) (h : Heap A) :
  wf s -> in_bounds s h -> SpringFEASolver.still_zero s = true ->
  Forall (fun nd => Node.fixed (node_at h nd) = true) (SpringFEASolver.nodes s) ->
  exists s' h',
    let u := known_u h <$> SpringFEASolver.nodes s in
    SpringFEASolver.solve s h =
      (s', h', Ok (u,
                   np.vsub (np.matvec (SpringFEASolver.K_full s') u)
                           (SpringFEASolver.F_full s'),
                   [], seq 0 (length (SpringFEASolver.nodes s)))).
Proof. apply solve_all_fixed. Qed.

Lemma X4_witness :
  exists s' h',
    let u := known_u clamped2_f <$> SpringFEASolver.nodes clamped2_solver_f in
    SpringFEASolver.solve clamped2_solver_f clamped2_f =
      (s', h', Ok (u,
                   np.vsub (np.matvec (SpringFEASolver.K_full s') u)
                           (SpringFEASolver.F_full s'),
                   [], seq 0 (length (SpringFEASolver.nodes clamped2_solver_f)))).
Proof.
  apply (X4_all_nodes_constrained clamped2_solver_f clamped2_f).
  - apply wf_init.
  - eexists. vm_compute. reflexivity.
  - vm_compute. reflexivity.
  - cbn. repeat constructor.
Defined.

(** X7: [assemble] returns the matrix exactly when both DOF indices of
    every element lie in [-n, n); otherwise it raises [IndexError] and
    leaves the solver as it was.  A negative index down to [-n] is
    accepted. *)
Theorem X7_assemble_index_error {A : Type} `{Num A}
    (s : SpringFEASolver.t A) (h : Heap A) :
  ((exists s' K, SpringFEASolver.assemble s h = (s', Ok K)) <->
   Forall (dofs_in_range (SpringFEASolver.n s) h) (SpringFEASolver.elements s)) /\
  (SpringFEASolver.assemble s h = (s, Raise IndexError) <->
   ~ Forall (dofs_in_range (SpringFEASolver.n s) h) (SpringFEASolver.elements s)).
Proof.
  destruct (assemble_index_error s h) as [[Hall (s' & K & Ha)]|[Hnot Ha]].
  - split; (split; [|intros Hx]).
    + done.
    + eauto.
    + by rewrite Ha.
    + done.
  - split; (split; [|intros Hx]).
    + intros (s' & K & Ha'). by rewrite Ha in Ha'.
    + done.
    + done.
    + done.
Qed.

(** X8: in exact arithmetic, entry [(x, y)] of the matrix [assemble]
    returns is the sum over the elements of what each contributes there:
    [k] on the diagonal at its two DOF rows, [-k] at the two crossings,
    a negative DOF index counting rows from the end. *)
Theorem X8_assembled_entries {A : Type} `{NumRing A}
    (s s' : SpringFEASolver.t A) (h : Heap A) (K : list (list A)) (x y : nat) :
  SpringFEASolver.assemble s h = (s', Ok K) ->
  (K !!! x) !!! y =
  np.seq_sum (elem_entry (SpringFEASolver.n s) h x y <$> SpringFEASolver.elements s).
Proof. apply assembled_entries. Qed.

Lemma X8_witness :
  exists s' K,
    SpringFEASolver.assemble chain3_solver chain3 = (s', Ok K) /\
    (K !!! 1%nat) !!! 1%nat =
    np.seq_sum (elem_entry (SpringFEASolver.n chain3_solver) chain3 1 1
              <$> SpringFEASolver.elements chain3_solver).
Proof.
  destruct (SpringFEASolver.assemble chain3_solver chain3) as [s' [K|e]] eqn:Ha.
  - exists s', K. split; [done|].
    exact (X8_assembled_entries chain3_solver s' chain3 K 1 1 Ha).
  - vm_compute in Ha. discriminate Ha.
Defined.

(** X18: on a model whose elements all have their DOF indices in range,
    the only exception [solve] raises is the singular-matrix
    [ValueError]; no arithmetic law is needed for this. *)
Theorem X18_solve_raises_only_singular {A : Type} `{Num A} `{!LinalgSolve A}
    (s : SpringFEASolver.t A) (h : Heap A) (e : exn) :
  wf s -> in_bounds s h ->
  (SpringFEASolver.solve s h).2 = Raise e -> e = ValueError_singular.
Proof. apply solve_Raise. Qed.

Lemma X18_witness :
  exists e,
    (SpringFEASolver.solve floating3_solver floating3).2 = Raise e /\
    e = ValueError_singular.
Proof.
  destruct (SpringFEASolver.solve floating3_solver floating3).2 as [out|e] eqn:Hs.
  - vm_compute in Hs. discriminate Hs.
  - exists e. split; [done|].
    apply (X18_solve_raises_only_singular floating3_solver floating3 e);
      [apply wf_init | | exact Hs].
    eexists. vm_compute. reflexivity.
Defined.

(** ** The window, [gui.py] *)

(** X9: when [collect_model] returns, it has built one node per table row,
    numbered from 1: node [r + 1] carries the load of row [r], is
    constrained exactly when the row says Fixed or Prescribed, is
    prescribed exactly when it says Prescribed, and then carries the
    row's prescribed value, zero otherwise. *)
Theorem X9_collected_nodes {A : Type} `{Num A} `{!LinalgSolve A}
    (app : App.t A) (h : Heap A) (nodes elements : list ref) :
  App.collect_model app = GOk (h, nodes, elements) ->
  exists nN,
    App.num_nodes_var app = Some nN /\
    nodes = seq 0 (Z.to_nat nN) /\
    length (h_nodes h) = Z.to_nat nN /\
    forall r, r < Z.to_nat nN ->
      row_node app r (Node.init (Z.of_nat r + 1)) (node_at h r).
Proof.
  intros Hc. apply collect_model_Ok in Hc as (nN & HnN & Hn & Hl & Hrows & _).
  exists nN. done.
Qed.

Lemma X9_witness :
  exists h nodes elements nN,
    App.collect_model form_chain3 = GOk (h, nodes, elements) /\
    App.num_nodes_var form_chain3 = Some nN /\
    nodes = seq 0 (Z.to_nat nN) /\
    length (h_nodes h) = Z.to_nat nN /\
    forall r, r < Z.to_nat nN ->
      row_node form_chain3 r (Node.init (Z.of_nat r + 1)) (node_at h r).
Proof.
  destruct (App.collect_model form_chain3) as [[[h nodes] elements]|e] eqn:Hc.
  - destruct (X9_collected_nodes form_chain3 h nodes elements Hc) as (nN & Hrest).
    exists h, nodes, elements, nN. split; [done | exact Hrest].
  - vm_compute in Hc. discriminate Hc.
Defined.

(** X10: when [collect_model] returns, it has built one element per row
    of the element table, in order, between two different nodes of the
    model and with a stiffness that is not [<= 0]; assembling the model
    it returns raises nothing. *)
Theorem X10_collected_elements {A : Type} `{Num A} `{!LinalgSolve A}
    (app : App.t A) (h : Heap A) (nodes elements : list ref) :
  App.collect_model app = GOk (h, nodes, elements) ->
  exists nN,
    App.num_nodes_var app = Some nN /\
    elements = seq 0 (length (h_elems h)) /\
    Forall2 (row_elem nN) (App.elem_entries app) (h_elems h) /\
    exists s' K,
      SpringFEASolver.assemble (SpringFEASolver.init nodes elements) h = (s', Ok K).
Proof.
  intros Hc. pose proof (collect_model_in_bounds _ _ _ _ Hc) as Hb.
  apply collect_model_Ok in Hc as (nN & HnN & _ & _ & _ & He & Hel & _).
  exists nN. split; [done|]. split; [done|]. split; [done|].
  by apply assemble_in_bounds.
Qed.

Lemma X10_witness :
  exists h nodes elements nN,
    App.collect_model form_chain3 = GOk (h, nodes, elements) /\
    App.num_nodes_var form_chain3 = Some nN /\
    elements = seq 0 (length (h_elems h)) /\
    Forall2 (row_elem nN) (App.elem_entries form_chain3) (h_elems h) /\
    exists s' K,
      SpringFEASolver.assemble (SpringFEASolver.init nodes elements) h = (s', Ok K).
Proof.
  destruct (App.collect_model form_chain3) as [[[h nodes] elements]|e] eqn:Hc.
  - destruct (X10_collected_elements form_chain3 h nodes elements Hc) as (nN & Hrest).
    exists h, nodes, elements, nN. split; [done | exact Hrest].
  - vm_compute in Hc. discriminate Hc.
Defined.

(** X11: an exception of [fea_core] that [solve_model] shows in its error
    box is either an invalid-element error raised while [collect_model]
    builds the elements, or the singular-matrix error of [solve] on the
    collected model; the window never runs into an [IndexError] of the
    solver. *)
Theorem X11_solver_errors_in_window {A : Type} `{Num A} `{!LinalgSolve A}
    (app : App.t A) (e : exn) :
  App.solve_model app = App.ErrorBox (Solver e) ->
  (InvalidElement e /\ App.collect_model app = GRaise (Solver e)) \/
  (StructuralSingularity e /\ exists m, App.collect_model app = GOk m).
Proof.
  intros Hs. apply compute_Raise. revert Hs. unfold App.solve_model.
  destruct (App.compute app) as [r|[]]; try done. by intros [= ->].
Qed.

Lemma X11_witness :
  exists e,
    App.solve_model form_free2 = App.ErrorBox (Solver e) /\
    ((InvalidElement e /\ App.collect_model form_free2 = GRaise (Solver e)) \/
     (StructuralSingularity e /\ exists m, App.collect_model form_free2 = GOk m)).
Proof.
  assert (App.solve_model form_free2 = App.ErrorBox (Solver ValueError_singular)) as Hs
    by (vm_compute; reflexivity).
  exists ValueError_singular. split; [exact Hs|].
  exact (X11_solver_errors_in_window form_free2 ValueError_singular Hs).
Defined.

(** X13: in exact arithmetic, the results [solve_model] goes on to
    display agree with each other: the end forces of each element are
    [(-f, f)] for its axial force [f], and the displacements stored in the
    nodes, which the sketch reads, are the displacement vector shown in
    the table. *)
Theorem X13_displayed_results_agree {A : Type} `{NumRing A} `{!LinalgSolve A}
    (app : App.t A) (r : App.results A) :
  App.solve_model app = App.Displayed r ->
  App.r_elem_end_forces r = (fun f => (nopp f, f)) <$> App.r_elem_forces r /\
  (fun nd => Node.u (node_at (App.r_store r) nd)) <$> App.r_nodes r = App.r_u r.
Proof.
  intros Hs. apply (compute_Ok app). revert Hs. unfold App.solve_model.
  destruct (App.compute app) as [r'|[]]; try done. by intros [= ->].
Qed.

Lemma X13_witness :
  exists r,
    App.solve_model form_chain3 = App.Displayed r /\
    App.r_elem_end_forces r = (fun f => (nopp f, f)) <$> App.r_elem_forces r /\
    (fun nd => Node.u (node_at (App.r_store r) nd)) <$> App.r_nodes r = App.r_u r.
Proof.
  destruct (App.solve_model form_chain3) as [r| |e] eqn:Hs.
  - exists r. split; [done|]. exact (X13_displayed_results_agree form_chain3 r Hs).
  - vm_compute in Hs. discriminate Hs.
  - vm_compute in Hs. discriminate Hs.
Defined.

(** X19: [solve_model] returns without showing anything only when the
    user has answered no to the no-supports dialog, which
    [collect_model] opens only when every row of the table read without
    error and none is set to Fixed or Prescribed; no error of the solver
    is ever swallowed. *)
Theorem X19_silent_return {A : Type} `{Num A} `{!LinalgSolve A} (app : App.t A) :
  App.solve_model app = App.Returned ->
  App.collect_model app = GRaise RuntimeError_aborted /\
  App.askyesno app = false /\
  exists nN, App.num_nodes_var app = Some nN /\
             forall r, r < Z.to_nat nN -> ~ row_constrained app r.
Proof.
  intros Hs. apply solve_model_Returned in Hs. split; [done|].
  by apply collect_model_aborted.
Qed.

Lemma X19_witness :
  App.solve_model form_aborted = App.Returned /\
  App.collect_model form_aborted = GRaise RuntimeError_aborted /\
  App.askyesno form_aborted = false /\
  exists nN, App.num_nodes_var form_aborted = Some nN /\
             forall r, r < Z.to_nat nN -> ~ row_constrained form_aborted r.
Proof.
  assert (App.solve_model form_aborted = App.Returned) as Hs by (vm_compute; reflexivity).
  split; [exact Hs|]. exact (X19_silent_return form_aborted Hs).
Defined.

(** X14: [draw_sketch] never draws two springs that share a node, or whose
    spans overlap, on the same level. *)
Theorem X14_sketch_levels_distinct (elems : list Sketch.elem) (p e : nat) :
  p < e -> e < length elems ->
  conflict (elems !!! e) (elems !!! p) ->
  Sketch.track_to_level (Sketch.assign_tracks elems !!! p) <>
  Sketch.track_to_level (Sketch.assign_tracks elems !!! e).
Proof.
  intros Hp He Hc Heq. apply track_to_level_inj in Heq.
  destruct (assign_tracks_spec elems) as [_ Hspec].
  destruct (Hspec e He) as (_ & Hdiff & _). by apply (Hdiff p Hp Hc).
Qed.

Lemma X14_witness :
  Sketch.track_to_level (Sketch.assign_tracks sketch3 !!! 0%nat) <>
  Sketch.track_to_level (Sketch.assign_tracks sketch3 !!! 2%nat).
Proof.
  apply (X14_sketch_levels_distinct sketch3 0 2).
  - lia.
  - vm_compute. lia.
  - left. vm_compute. reflexivity.
Defined.

(** X15: [draw_sketch] gives every spring a track, the lowest one not
    taken by an earlier spring in conflict with it: the track of spring
    number [e] (counted from 0) is taken by no earlier spring in conflict
    with [e], and every lower track is taken by one; the track is at most
    [e], and the spring is drawn at most [(e + 1) // 2] levels away from
    the axis. *)
Theorem X15_sketch_first_fit (elems : list Sketch.elem) :
  length (Sketch.assign_tracks elems) = length elems /\
  forall e, e < length elems ->
    Sketch.assign_tracks elems !!! e <= e /\
    (Z.abs (Sketch.track_to_level (Sketch.assign_tracks elems !!! e))
     <= Z.of_nat ((e + 1) / 2))%Z /\
    (forall p, p < e -> conflict (elems !!! e) (elems !!! p) ->
       Sketch.assign_tracks elems !!! p <> Sketch.assign_tracks elems !!! e) /\
    forall t, t < Sketch.assign_tracks elems !!! e ->
      exists p, p < e /\ conflict (elems !!! e) (elems !!! p) /\
                Sketch.assign_tracks elems !!! p = t.
Proof.
  destruct (assign_tracks_spec elems) as [Hl Hspec]. split; [done|].
  intros e He. destruct (Hspec e He) as (Hle & Hdiff & Hfit).
  split; [done|]. split; [|done].
  rewrite track_to_level_abs. apply inj_le.
  apply Nat.Div0.div_le_mono. lia.
Qed.

(** X16: every spring [draw_sketch] keeps for the sketch joins two
    different nodes of the model, and its span runs from the lower to the
    higher of the two. *)
Theorem X16_sketched_spans {A : Type} (nN : Z)
    (entries : list (option Z * option Z * option A)) :
  Forall (span_ok nN) (Sketch.elems_of nN entries).
Proof. apply elems_of_spans. Qed.

(** ** Floating point *)

(** X17: in binary64, [SpringElement.__init__] accepts a stiffness that is
    not a number: between nodes of different ids the test [k <= 0] is
    false for NaN, and the element is built with that stiffness. *)
Theorem X17_nan_stiffness_accepted (h : Heap float) (ni nj : ref) (k : float) :
  Node.id (node_at h ni) <> Node.id (node_at h nj) ->
  PrimFloat.is_nan k = true ->
  SpringElement.init h ni nj k =
    (mkHeap (h_nodes h) (h_elems h ++ [Elem.mk ni nj k n0]), Ok (length (h_elems h))).
Proof.
  intros Hid Hk. unfold SpringElement.init.
  rewrite decide_False by done. cbn [nleb float_Num].
  by rewrite (leb_nan k _ Hk).
Qed.

Lemma X17_witness :
  SpringElement.init single_spring_f 0%nat 1%nat PrimFloat.nan =
    (mkHeap (h_nodes single_spring_f)
            (h_elems single_spring_f ++ [Elem.mk 0%nat 1%nat PrimFloat.nan n0]),
     Ok (length (h_elems single_spring_f))).
Proof.
  apply (X17_nan_stiffness_accepted single_spring_f 0 1 PrimFloat.nan).
  - vm_compute. discriminate.
  - vm_compute. reflexivity.
Defined.
